(** * mol2chemfig: bond geometry and molecule tree construction

    A shallow embedding of [mol2chemfig/bond.py] and
    [mol2chemfig/molecule.py].

    Conventions of the embedding.
    - Python floats are idealised as real numbers ([R]); Python ints are [Z].
      Where a statement depends on the rounding of the float arithmetic, the
      code is given a second time with the rounding in it (see [Binary64]
      and [invert_rounded]).
    - A Python exception is a value of [exn]; a function that may raise
      returns [result A].  [OutOfFuel] is not a Python exception: it is the
      answer of a recursion of the embedding whose fuel ran out.
    - Atom objects are identified by their toolkit index; Bond objects live
      in a store ([heap]) and are identified by a [ref].  The two directed
      Bond objects of [Molecule.bonds] are the store entries [Key s e]. *)

From Stdlib Require Import Reals Lra ZArith Lia.
From Stdlib Require Floats.
From stdpp Require Import gmap strings list sorting pretty.

(** ** Exceptions *)

Inductive exn :=
| MCFError (msg : string)
| TypeError
| ValueError
| ZeroDivisionError
| KeyError
| IndexError
| AttributeError
| IndigoException
| OutOfFuel.

Inductive result (A : Type) :=
| Ok (a : A)
| Raise (e : exn).
Arguments Ok {A} a.
Arguments Raise {A} e.

#[global] Instance result_ret : MRet result := fun A a => Ok a.
#[global] Instance result_bind : MBind result := fun A B k r =>
  match r with
  | Ok a => k a
  | Raise e => Raise e
  end.

Definition is_ok {A} (r : result A) : Prop :=
  match r with Ok _ => True | Raise _ => False end.

(** ** Geometry utilities (bond.py, lines 34-65) *)

Section Geometry.
Local Open Scope R_scope.

(** Python's [x % m] on floats, for a positive [m]: the representative of
    [x] in [[0, m)]. *)
Definition fmod (x m : R) : R := x - IZR (Int_part (x / m)) * m.

(** [compare_positions(x1, y1, x2, y2)]: distance and angle between two
    points, over the real numbers.  On floats the squares can overflow, which
    raises in Python, and the arc tangent in degrees is rounded: it can be
    exactly 0 or 90 where the real one is strictly between them. *)
Definition compare_positions (x1 y1 x2 y2 : R) : R * R :=
  let xdiff := x2 - x1 in
  let ydiff := y2 - y1 in
  let length := sqrt (xdiff ^ 2 + ydiff ^ 2) in
  let angle :=
    if Req_dec_T xdiff 0 then
      if Rlt_dec ydiff 0 then 270 else 90
    else
      let raw_angle := atan (Rabs (ydiff / xdiff)) * 180 / PI in
      if Rge_dec ydiff 0 then
        if Rgt_dec xdiff 0 then raw_angle else 180 - raw_angle
      else
        if Rgt_dec xdiff 0 then - raw_angle else 180 + raw_angle
  in (length, angle).

End Geometry.

(** ** Atoms and bonds *)

(** What the tree builder and the bond geometry read from an [Atom]
    (coordinates [x], [y] are the fields [atom_x], [atom_y]). *)
Record Atom := mkAtom {
  idx : Z;
  atom_x : R;
  atom_y : R;
  neighbors : list Z;
  bond_angles : list R;
  explicit : bool
}.

Definition with_neighbors (l : list Z) (a : Atom) : Atom :=
  mkAtom (idx a) (atom_x a) (atom_y a) l (bond_angles a) (explicit a).
Definition with_bond_angles (l : list R) (a : Atom) : Atom :=
  mkAtom (idx a) (atom_x a) (atom_y a) (neighbors a) l (explicit a).
Definition with_xy (x y : R) (a : Atom) : Atom :=
  mkAtom (idx a) x y (neighbors a) (bond_angles a) (explicit a).

(** The values of [Bond.bond_type].  [unspecified] is Python's [None], the
    type of a bond constructed without a bond order; [other_order n] is a
    bond order that [bond_mapping] does not map and that is kept as
    passed. *)
Inductive bond_type_t :=
| single | double | triple | aromatic
| upto | downto | either | upfrom | downfrom
| link | decorated | unspecified | other_order (n : Z).

#[global] Instance bond_type_eq_dec : EqDecision bond_type_t.
Proof. solve_decision. Defined.

(** The stereo flag of a toolkit bond (the toolkit's integer constants,
    as an enumeration). *)
Inductive stereo_t := st_none | st_up | st_down | st_either | st_cis | st_trans.

#[global] Instance stereo_eq_dec : EqDecision stereo_t.
Proof. solve_decision. Defined.

(** The user options read by the core. *)
Inductive bond_scale_t := keep | normalize | scale.

Record Options := mkOptions {
  flip_horizontal : bool;
  flip_vertical : bool;
  rotate : R;
  opt_entry_atom : option Z;
  opt_exit_atom : option Z;
  cross_bond : option (list (Z * Z));
  aromatic_circles : bool;
  markers : option string;
  bond_scale_opt : bond_scale_t;
  bond_stretch : R;
  bond_round : Z;
  strict : bool
}.

(** The attributes of an object of class [Bond] ([blength] is the
    attribute [length]).  The atoms are references to the molecule's Atom
    objects, written as atom indices.  The tree links ([parent],
    [descendants]) are kept with the store entry, see [node] below. *)
Record Bond := mkBond {
  start_atom : Z;
  end_atom : Z;
  bond_type : bond_type_t;
  blength : R;
  angle : R;
  clockwise : Z;
  is_last : bool;
  to_phantom : bool;
  is_trunk : bool;
  tikz_styles : gset string;
  tikz_values : gmap string Z;
  marker : string
}.

Definition with_atoms (s e : Z) (b : Bond) : Bond :=
  mkBond s e (bond_type b) (blength b) (angle b) (clockwise b) (is_last b)
    (to_phantom b) (is_trunk b) (tikz_styles b) (tikz_values b) (marker b).
Definition with_bond_type (t : bond_type_t) (b : Bond) : Bond :=
  mkBond (start_atom b) (end_atom b) t (blength b) (angle b) (clockwise b)
    (is_last b) (to_phantom b) (is_trunk b) (tikz_styles b) (tikz_values b)
    (marker b).
Definition with_blength (l : R) (b : Bond) : Bond :=
  mkBond (start_atom b) (end_atom b) (bond_type b) l (angle b) (clockwise b)
    (is_last b) (to_phantom b) (is_trunk b) (tikz_styles b) (tikz_values b)
    (marker b).
Definition with_angle (a : R) (b : Bond) : Bond :=
  mkBond (start_atom b) (end_atom b) (bond_type b) (blength b) a (clockwise b)
    (is_last b) (to_phantom b) (is_trunk b) (tikz_styles b) (tikz_values b)
    (marker b).
Definition with_clockwise (c : Z) (b : Bond) : Bond :=
  mkBond (start_atom b) (end_atom b) (bond_type b) (blength b) (angle b) c
    (is_last b) (to_phantom b) (is_trunk b) (tikz_styles b) (tikz_values b)
    (marker b).
Definition with_is_last (f : bool) (b : Bond) : Bond :=
  mkBond (start_atom b) (end_atom b) (bond_type b) (blength b) (angle b)
    (clockwise b) f (to_phantom b) (is_trunk b) (tikz_styles b)
    (tikz_values b) (marker b).
Definition with_to_phantom (f : bool) (b : Bond) : Bond :=
  mkBond (start_atom b) (end_atom b) (bond_type b) (blength b) (angle b)
    (clockwise b) (is_last b) f (is_trunk b) (tikz_styles b) (tikz_values b)
    (marker b).
Definition with_is_trunk (f : bool) (b : Bond) : Bond :=
  mkBond (start_atom b) (end_atom b) (bond_type b) (blength b) (angle b)
    (clockwise b) (is_last b) (to_phantom b) f (tikz_styles b) (tikz_values b)
    (marker b).
Definition with_tikz (st : gset string) (v : gmap string Z) (b : Bond) : Bond :=
  mkBond (start_atom b) (end_atom b) (bond_type b) (blength b) (angle b)
    (clockwise b) (is_last b) (to_phantom b) (is_trunk b) st v (marker b).
Definition with_marker (mk : string) (b : Bond) : Bond :=
  mkBond (start_atom b) (end_atom b) (bond_type b) (blength b) (angle b)
    (clockwise b) (is_last b) (to_phantom b) (is_trunk b) (tikz_styles b)
    (tikz_values b) mk.

Section BondOps.
Local Open Scope R_scope.

(** [bond_mapping.get(bond_type, bond_type)] on a bond order.  The keys
    of the dictionary [bond_mapping] (bond.py, lines 24-32) are 1, 2, 3, 4
    and then the toolkit's constants [Indigo.UP] = 5, [Indigo.DOWN] = 6 and
    [Indigo.EITHER] = 4: the entry for [Indigo.EITHER] replaces the entry
    4 : 'aromatic' written before it. *)
Definition bond_mapping_get (bond_order : option Z) : bond_type_t :=
  match bond_order with
  | None => unspecified
  | Some 1%Z => single
  | Some 2%Z => double
  | Some 3%Z => triple
  | Some 4%Z => either
  | Some 5%Z => upto
  | Some 6%Z => downto
  | Some n => other_order n
  end.

(** [Bond.__init__] (bond.py, lines 90-135). *)
Definition Bond_init (options : Options) (sa ea : Atom)
    (bond_order : option Z) (stereo : stereo_t) : Bond :=
  let stereo :=
    if bool_decide (stereo = st_up \/ stereo = st_down) then
      if negb (eqb (flip_vertical options) (flip_horizontal options)) then
        match stereo with st_up => st_down | st_down => st_up | s => s end
      else stereo
    else stereo in
  let bt :=
    match stereo with
    | st_up => upto
    | st_down => downto
    | st_either => either
    | _ => bond_mapping_get bond_order
    end in
  let '(len, ang) :=
    compare_positions (atom_x sa) (atom_y sa) (atom_x ea) (atom_y ea) in
  let ang := ang + rotate options in
  let mk :=
    match markers options with
    | Some m =>
        let a := (idx sa + 1)%Z in
        let b := (idx ea + 1)%Z in
        (m +:+ pretty (Z.min a b) +:+ "-" +:+ pretty (Z.max a b))%string
    | None => ""%string
    end in
  mkBond (idx sa) (idx ea) bt len ang 0 false false false ∅ ∅ mk.

(** [Bond.invert] (bond.py, lines 185-198).  [deepcopy] duplicates every
    attribute container, so the copy [c] shares nothing mutable with [b];
    its two atom references are then re-pointed at the atoms of [b],
    swapped. *)
Definition invert (b : Bond) : Bond :=
  let c := b in
  let c := with_atoms (end_atom b) (start_atom b) c in
  let c := with_angle (fmod (angle c + 180) 360) c in
  if decide (bond_type b = upto) then with_bond_type upfrom c
  else if decide (bond_type b = downto) then with_bond_type downfrom c
  else c.

(** [Bond.set_link] (bond.py, lines 201-209). *)
Definition set_link (b : Bond) : Bond :=
  with_marker "" (with_tikz ∅ ∅ (with_bond_type link b)).

(** Python's [round] on a float: to the nearest integer, ties to even. *)
Definition py_round (a : R) : Z :=
  let n := Int_part a in
  let d := a - IZR n in
  if Rlt_dec d (1 / 2) then n
  else if Rlt_dec (1 / 2) d then (n + 1)%Z
  else if Z.even n then n else (n + 1)%Z.

(** [list.remove(v)]: drops the first occurrence, [ValueError] if there is
    none. *)
Fixpoint list_remove (v : Z) (l : list Z) : result (list Z) :=
  match l with
  | [] => Raise ValueError
  | a :: l' =>
      if decide (a = v) then Ok l'
      else l'' ← list_remove v l'; Ok (a :: l'')
  end.

(** [Bond._adjoining_angles] (bond.py, lines 232-251). *)
Definition _adjoining_angles (b : Bond) (atom : Atom) (inversion_angle : R)
    : result (option Z * option Z) :=
  let raw_angles := bond_angles atom in
  let raw_angles := map (fun a => (py_round a mod 360)%Z) raw_angles in
  let reference_angle := (py_round (angle b - inversion_angle) mod 360)%Z in
  raw_angles ← list_remove reference_angle raw_angles;
  match raw_angles with
  | [] => Ok (None, None)
  | _ =>
      let angles := map (fun a => ((a - reference_angle) mod 360)%Z) raw_angles in
      let angles := merge_sort Z.le angles in
      Ok (head angles, last angles)
  end.

(** The dictionaries [dict(left=..., right=...)] of [upstream_angles] and
    [downstream_angles]. *)
Record sides := mkSides { a_left : option Z; a_right : option Z }.

(** [Bond.upstream_angles] (bond.py, lines 254-264). *)
Definition upstream_angles (b : Bond) (sa : Atom) : result sides :=
  '(first, last) ← _adjoining_angles b sa 0;
  let last := match last with Some l => Some (360 - l)%Z | None => None end in
  Ok (mkSides first last).

(** [Bond.downstream_angles] (bond.py, lines 267-277). *)
Definition downstream_angles (b : Bond) (ea : Atom) : result sides :=
  '(first, last) ← _adjoining_angles b ea 180;
  let last := match last with Some l => Some (360 - l)%Z | None => None end in
  Ok (mkSides last first).

(** [min(d.values())]: comparing with [None] is a [TypeError]. *)
Definition min_values (d : sides) : result Z :=
  match a_left d, a_right d with
  | Some l, Some r => Ok (Z.min l r)
  | _, _ => Raise TypeError
  end.

(** [Bond.cotan100] (bond.py, lines 291-296) on an integer angle.  The
    float tangent is [0.0], and the division [100/_tan] raises, at the
    angle 0 only.  At 180 and 360 the float tangent of the float nearest
    to pi or to twice pi is a tiny negative number, and the answer is the
    huge negative integer that the division rounds to; everywhere else
    the quotient is idealised over the reals (at 90 and 270, where the
    float tangent is huge and the answer 0, the real tangent is a
    quotient by 0, which the real numbers of the embedding take as 0, so
    that the answer is 0 as well). *)
Definition cotan100 (angle : Z) : result Z :=
  if decide (angle = 0%Z) then Raise ZeroDivisionError
  else if decide (angle = 180%Z) then Ok (-816561967659768448)%Z
  else if decide (angle = 360%Z) then Ok (-408280983829884224)%Z
  else Ok (py_round (100 / tan (IZR angle * PI / 180))).

(** [Bond.set_cross] (bond.py, lines 212-229); [sa] and [ea] are the
    bond's start and end Atom objects. *)
Definition set_cross (b : Bond) (sa ea : Atom) (last : bool) : result Bond :=
  start_angles ← upstream_angles b sa;
  end_angles ← downstream_angles b ea;
  start_angle ← min_values start_angles;
  c ← cotan100 start_angle;
  let start := Z.max 10 c in
  end_angle ← min_values end_angles;
  c ← cotan100 end_angle;
  let end_ := Z.max 10 c in
  let b := with_tikz ({[ "cross"%string ]} ∪ tikz_styles b)
             (<[ "bgend"%string := end_ ]>
                (<[ "bgstart"%string := start ]> (tikz_values b))) b in
  Ok (with_is_last last b).

(** [Bond.is_clockwise] (bond.py, lines 150-172); [ea] is the bond's end
    Atom object. *)
Definition is_clockwise (options : Options) (b : Bond) (ea : Atom)
    (center_x center_y : R) : Bond :=
  if decide (clockwise b = 0%Z) then
    let '(center_dist, center_angle) :=
      compare_positions (atom_x ea) (atom_y ea) center_x center_y in
    let center_angle := center_angle + rotate options in
    let center_kink := fmod (center_angle - angle b) 360 in
    if Rgt_dec center_kink 180 then with_clockwise 1 b
    else with_clockwise (-1) b
  else b.

End BondOps.

(** ** The angle of an inverted bond, with its rounding *)

(** Line 191 of bond.py, [c.angle = (c.angle + 180) % 360], on the machine
    numbers themselves.  [fmod] is the C function of that name, whose
    answer is exact: the remainder of the magnitudes, with the sign of [x].
    [rem] is Python's [%] on floats (the function [float_rem] of the
    interpreter): the answer of [fmod], moved by an addition of [y] when
    its sign is not that of [y].  A division by zero raises in Python; the
    divisor of [invert] is 360. *)
Module Binary64.
Import Floats.
Local Open Scope float_scope.

Definition fmod (x y : float) : float :=
  match Prim2SF x, Prim2SF y with
  | S754_finite sx mx ex, S754_finite sy my ey =>
      let e := Z.min ex ey in
      let X := (Z.pos mx * 2 ^ (ex - e))%Z in
      let Y := (Z.pos my * 2 ^ (ey - e))%Z in
      let r := (X mod Y)%Z in
      SF2Prim (binary_normalize prec emax (if sx then - r else r)%Z e sx)
  | S754_zero _, S754_finite _ _ _ => x
  | S754_zero _, S754_infinity _ => x
  | S754_finite _ _ _, S754_infinity _ => x
  | _, _ => nan
  end.

Definition rem (x y : float) : float :=
  let m := fmod x y in
  if m =? 0 then (if y <? 0 then -0 else 0)
  else if negb (Bool.eqb (y <? 0) (m <? 0)) then m + y else m.

Definition full_turn : float := 360.

Definition invert_angle (a : float) : float := rem (a + 180) full_turn.

(** The float nearest to 0.1, and the float 0.10000000000002274. *)
Definition tenth : float := 0x1.999999999999ap-4.
Definition tenth_and_a_bit : float := 0x1.999999999a000p-4.

End Binary64.

(** The same line over the real numbers, with the rounding of a float
    addition as a parameter [rnd].  [float_rem] is Python's [%] on floats
    for a divisor other than 0: [trunc] is the integer part towards zero
    of the quotient, which makes the exact remainder of the C function
    [fmod]; the addition that moves a remainder of the wrong sign is
    rounded.  [invert_rounded] is [Bond.invert] with these in the place of
    the exact sum and remainder. *)
Section Rounded.
Local Open Scope R_scope.

Variable rnd : R -> R.

Definition trunc (q : R) : Z :=
  if Rle_dec 0 q then Int_part q else (- Int_part (- q))%Z.

Definition float_rem (x y : R) : R :=
  let m := x - IZR (trunc (x / y)) * y in
  let negative (z : R) := if Rlt_dec z 0 then true else false in
  if Req_dec_T m 0 then 0
  else if negb (Bool.eqb (negative y) (negative m)) then rnd (m + y) else m.

Definition invert_rounded (b : Bond) : Bond :=
  let c := b in
  let c := with_atoms (end_atom b) (start_atom b) c in
  let c := with_angle (float_rem (rnd (angle c + 180)) 360) c in
  if decide (bond_type b = upto) then with_bond_type upfrom c
  else if decide (bond_type b = downto) then with_bond_type downfrom c
  else c.

End Rounded.

(** A rounding with the relative error [eps]: the answer of a float
    addition that does not overflow, for [eps] = 2^-53. *)
Definition rounds_within (eps : R) (rnd : R -> R) : Prop :=
  forall x : R, (Rabs (rnd x - x) <= eps * Rabs x)%R.

(** ** The store of bond objects and the molecule *)

(** The identity of an object of class [Bond] or of one of its
    subclasses.  [Key s e] is the object held by [Molecule.bonds[(s, e)]];
    [Root] is the [DummyFirstBond]; [Fresh n] is the n-th object created
    after parsing (clones, pseudo bonds, aromatic ring nodes). *)
Inductive ref :=
| Root
| Key (s e : Z)
| Fresh (n : nat).

#[global] Instance ref_eq_dec : EqDecision ref.
Proof. solve_decision. Defined.

#[global] Instance ref_countable : Countable ref.
Proof.
  refine (inj_countable'
    (fun r => match r with
              | Root => inl ()
              | Key s e => inr (inl (s, e))
              | Fresh n => inr (inr n)
              end)
    (fun c => match c with
              | inl () => Root
              | inr (inl (s, e)) => Key s e
              | inr (inr n) => Fresh n
              end) _).
  intros []; reflexivity.
Defined.

(** The object behind a reference: a [Bond], the [DummyFirstBond] (which
    has an end atom only), or an [AromaticRingBond]. *)
Inductive obj :=
| OBond (b : Bond)
| ODummy (dummy_end : Z)
| ORing (ring_angle : R) (parent_angle : option R) (ring_length radius : R).

(** A store entry: the object with its tree links, the attributes
    [parent] and [descendants]. *)
Record node := mkNode {
  obj_of : obj;
  parent : option ref;
  descendants : list ref
}.

Definition fresh_node (b : Bond) : node := mkNode (OBond b) None [].

Definition node_end_atom (n : node) : option Z :=
  match obj_of n with
  | OBond b => Some (end_atom b)
  | ODummy e => Some e
  | ORing _ _ _ _ => None
  end.

(** [to_phantom] is a class attribute, [False] unless assigned. *)
Definition node_to_phantom (n : node) : bool :=
  match obj_of n with
  | OBond b => to_phantom b
  | _ => false
  end.

Definition node_bond (n : node) : option Bond :=
  match obj_of n with
  | OBond b => Some b
  | _ => None
  end.

Definition map_bond (f : Bond -> Bond) (n : node) : node :=
  match obj_of n with
  | OBond b => mkNode (OBond (f b)) (parent n) (descendants n)
  | _ => n
  end.

Definition with_parent (p : option ref) (n : node) : node :=
  mkNode (obj_of n) p (descendants n).
Definition with_descendants (d : list ref) (n : node) : node :=
  mkNode (obj_of n) (parent n) d.

(** The state of a [Molecule] under construction.  [atoms] with
    [atom_keys] (the keys in insertion order) is the dictionary
    [self.atoms]; [heap] holds every bond object, among them the values of
    the dictionary [self.bonds], whose keys in insertion order are
    [bond_keys]. *)
Record Molecule := mkMolecule {
  options : Options;
  atoms : gmap Z Atom;
  atom_keys : list Z;
  heap : gmap ref node;
  bond_keys : list (Z * Z);
  atom_pairs : list (Z * Z);
  seen_atoms : gset Z;
  seen_bonds : gset (Z * Z);
  entry_atom : option Z;
  exit_atom : option Z;
  exit_bond : option ref;
  root : option ref;
  next_fresh : nat;
  bond_scale : R
}.

Definition set_atoms (a : gmap Z Atom) (m : Molecule) : Molecule :=
  mkMolecule (options m) a (atom_keys m) (heap m) (bond_keys m) (atom_pairs m)
    (seen_atoms m) (seen_bonds m) (entry_atom m) (exit_atom m) (exit_bond m)
    (root m) (next_fresh m) (bond_scale m).
Definition set_heap (h : gmap ref node) (m : Molecule) : Molecule :=
  mkMolecule (options m) (atoms m) (atom_keys m) h (bond_keys m) (atom_pairs m)
    (seen_atoms m) (seen_bonds m) (entry_atom m) (exit_atom m) (exit_bond m)
    (root m) (next_fresh m) (bond_scale m).
Definition set_bond_keys (k : list (Z * Z)) (m : Molecule) : Molecule :=
  mkMolecule (options m) (atoms m) (atom_keys m) (heap m) k (atom_pairs m)
    (seen_atoms m) (seen_bonds m) (entry_atom m) (exit_atom m) (exit_bond m)
    (root m) (next_fresh m) (bond_scale m).
Definition set_seen_atoms (s : gset Z) (m : Molecule) : Molecule :=
  mkMolecule (options m) (atoms m) (atom_keys m) (heap m) (bond_keys m)
    (atom_pairs m) s (seen_bonds m) (entry_atom m) (exit_atom m) (exit_bond m)
    (root m) (next_fresh m) (bond_scale m).
Definition set_seen_bonds (s : gset (Z * Z)) (m : Molecule) : Molecule :=
  mkMolecule (options m) (atoms m) (atom_keys m) (heap m) (bond_keys m)
    (atom_pairs m) (seen_atoms m) s (entry_atom m) (exit_atom m) (exit_bond m)
    (root m) (next_fresh m) (bond_scale m).
Definition set_entry_exit (en ex : option Z) (m : Molecule) : Molecule :=
  mkMolecule (options m) (atoms m) (atom_keys m) (heap m) (bond_keys m)
    (atom_pairs m) (seen_atoms m) (seen_bonds m) en ex (exit_bond m)
    (root m) (next_fresh m) (bond_scale m).
Definition set_exit_bond (r : option ref) (m : Molecule) : Molecule :=
  mkMolecule (options m) (atoms m) (atom_keys m) (heap m) (bond_keys m)
    (atom_pairs m) (seen_atoms m) (seen_bonds m) (entry_atom m) (exit_atom m) r
    (root m) (next_fresh m) (bond_scale m).
Definition set_root (r : option ref) (m : Molecule) : Molecule :=
  mkMolecule (options m) (atoms m) (atom_keys m) (heap m) (bond_keys m)
    (atom_pairs m) (seen_atoms m) (seen_bonds m) (entry_atom m) (exit_atom m)
    (exit_bond m) r (next_fresh m) (bond_scale m).
Definition set_next_fresh (n : nat) (m : Molecule) : Molecule :=
  mkMolecule (options m) (atoms m) (atom_keys m) (heap m) (bond_keys m)
    (atom_pairs m) (seen_atoms m) (seen_bonds m) (entry_atom m) (exit_atom m)
    (exit_bond m) (root m) n (bond_scale m).
Definition set_bond_scale (x : R) (m : Molecule) : Molecule :=
  mkMolecule (options m) (atoms m) (atom_keys m) (heap m) (bond_keys m)
    (atom_pairs m) (seen_atoms m) (seen_bonds m) (entry_atom m) (exit_atom m)
    (exit_bond m) (root m) (next_fresh m) x.

(** Dictionary and list accesses that raise. *)
Definition get_atom (m : Molecule) (i : Z) : result Atom :=
  match atoms m !! i with
  | Some a => Ok a
  | None => Raise KeyError
  end.

Definition get_node (m : Molecule) (r : ref) : result node :=
  match heap m !! r with
  | Some n => Ok n
  | None => Raise KeyError
  end.

Definition first_item {A} (l : list A) : result A :=
  match head l with
  | Some a => Ok a
  | None => Raise IndexError
  end.

Definition last_item {A} (l : list A) : result A :=
  match last l with
  | Some a => Ok a
  | None => Raise IndexError
  end.

Fixpoint foldM {A S} (f : A -> S -> result S) (l : list A) (s : S) : result S :=
  match l with
  | [] => Ok s
  | a :: l' => s' ← f a s; foldM f l' s'
  end.

(** [self.bonds[k] = bond]: the object stored under a key, a new key going
    to the end of the insertion order. *)
Definition store_bond (k : Z * Z) (b : Bond) (m : Molecule) : Molecule :=
  let m := set_heap (<[ Key k.1 k.2 := fresh_node b ]> (heap m)) m in
  if decide (k ∈ bond_keys m) then m else set_bond_keys (bond_keys m ++ [k]) m.

Definition append_neighbor (i n : Z) (m : Molecule) : Molecule :=
  set_atoms (alter (fun a => with_neighbors (neighbors a ++ [n]) a) i (atoms m)) m.

(** [Molecule.link_atoms] (molecule.py, lines 91-106). *)
Definition link_atoms (x y : Z) (m : Molecule) : result Molecule :=
  sa ← get_atom m x;
  ea ← get_atom m y;
  let bond := Bond_init (options m) sa ea None st_none in
  let bond := set_link bond in
  let m := store_bond (x, y) bond m in
  let m := store_bond (y, x) (invert bond) m in
  let m := append_neighbor x y m in
  let m := append_neighbor y x m in
  Ok m.

(** ** Fragments (molecule.py, lines 109-192) *)

Definition pair_atoms (p : Z * Z) : gset Z := {[ p.1; p.2 ]}.

(** One run of the [for r in rest] loop of [split_pairs]. *)
Fixpoint split_pass (rest : list (Z * Z)) (connected_atoms : gset Z)
    (connected_pairs unconnected : list (Z * Z))
    : gset Z * list (Z * Z) * list (Z * Z) :=
  match rest with
  | [] => (connected_atoms, connected_pairs, unconnected)
  | r :: rest' =>
      let s := pair_atoms r in
      if decide (connected_atoms ∩ s ≠ ∅) then
        split_pass rest' (connected_atoms ∪ s) (connected_pairs ++ [r])
          unconnected
      else
        split_pass rest' connected_atoms connected_pairs (unconnected ++ [r])
  end.

(** The [while True] loop of [split_pairs]; every turn but the last makes
    [rest] shorter. *)
Fixpoint split_loop (fuel : nat) (rest : list (Z * Z))
    (connected_atoms : gset Z) (connected_pairs : list (Z * Z))
    : result (list (Z * Z) * list (Z * Z)) :=
  match fuel with
  | O => Raise OutOfFuel
  | S fuel' =>
      let '(connected_atoms, connected_pairs, unconnected) :=
        split_pass rest connected_atoms connected_pairs [] in
      if decide (length unconnected = length rest) then
        Ok (connected_pairs, unconnected)
      else split_loop fuel' unconnected connected_atoms connected_pairs
  end.

Definition split_pairs (pair_list : list (Z * Z))
    : result (list (Z * Z) * list (Z * Z)) :=
  match pair_list with
  | [] => Raise IndexError
  | first :: rest =>
      split_loop (S (length rest)) rest (pair_atoms first) [first]
  end.

(** The [while True] loop of [molecule_fragments]. *)
Fixpoint fragments_loop (fuel : nat) (atom_pairs : list (Z * Z))
    (fragments : list (list (Z * Z))) : result (list (list (Z * Z))) :=
  match fuel with
  | O => Raise OutOfFuel
  | S fuel' =>
      '(connected, rest) ← split_pairs atom_pairs;
      let fragments := fragments ++ [connected] in
      match rest with
      | [] => Ok fragments
      | _ => fragments_loop fuel' rest fragments
      end
  end.

(** [Molecule.molecule_fragments] (molecule.py, lines 143-192). *)
Definition molecule_fragments (m : Molecule) : result (list (list (Z * Z))) :=
  let atom_pairs := atom_pairs m in
  match atom_pairs with
  | [] => Ok []
  | [_] => Ok [atom_pairs]
  | _ => fragments_loop (length atom_pairs) atom_pairs []
  end.

(** The atoms joined by the first loop of [connect_fragments]:
    [head[-1][-1]] and [tail[0][0]]. *)
Definition fragment_link (ht : list (Z * Z) * list (Z * Z)) : result (Z * Z) :=
  head_last ← last_item ht.1;
  tail_first ← first_item ht.2;
  Ok (head_last.2, tail_first.1).

(** [Molecule.connect_fragments] (molecule.py, lines 109-140).  The set
    difference [atoms - bonded] is listed in the order of [elements]. *)
Definition connect_fragments (m : Molecule) : result Molecule :=
  fragments ← molecule_fragments m;
  m ← (if decide (1 < length fragments)%nat then
         foldM (fun ht m => '(x, y) ← fragment_link ht; link_atoms x y m)
           (zip (removelast fragments) (tail fragments)) m
       else Ok m);
  let atoms_ := dom (atoms m) in
  let bonded := ⋃ (pair_atoms <$> atom_pairs m) in
  let unbonded := elements (atoms_ ∖ bonded) in
  match unbonded with
  | [] => Ok m
  | u0 :: urest =>
      '(anchor, unbonded) ←
        match fragments with
        | [] => Ok (u0, urest)
        | _ =>
            f ← last_item fragments;
            p ← last_item f;
            Ok (p.2, unbonded)
        end;
      foldM (fun atom m => link_atoms anchor atom m) unbonded m
  end.

(** ** The toolkit molecule *)

(** What the core reads from the external chemistry toolkit.  The class
    [Atom] is not among the sources: [tk_explicit] stands for what its
    constructor decides about the atom being drawn with a label.
    [countImplicitHydrogens] is the answer of the toolkit's method of that
    name, [None] when the method raises [IndigoException].
    [tk_rings] is the smallest set of smallest rings, each with its bonds
    as they are after the toolkit's [aromatize]. *)
Record TkAtom := mkTkAtom {
  tk_index : Z;
  tk_x : R;
  tk_y : R;
  tk_neighbors : list Z;
  tk_explicit : bool;
  countImplicitHydrogens : option Z
}.

Record TkBond := mkTkBond {
  source : Z;
  destination : Z;
  bondOrder : Z;
  bondStereo : stereo_t
}.

Record TkMol := mkTkMol {
  tk_atoms : list TkAtom;
  tk_bonds : list TkBond;
  tk_rings : list (list TkBond)
}.

(** A stable sort by key, as [list.sort(key=...)]: an element goes before
    the first element whose key is not smaller, folding from the right. *)
Fixpoint insert_by {A} (key : A -> nat) (x : A) (l : list A) : list A :=
  match l with
  | [] => [x]
  | y :: l' => if (key x <=? key y)%nat then x :: l else y :: insert_by key x l'
  end.

Definition sort_by {A} (key : A -> nat) (l : list A) : list A :=
  foldr (insert_by key) [] l.

Section MoleculeOps.
Local Open Scope R_scope.

(** [Molecule.parseAtoms] (molecule.py, lines 328-364): the atoms by
    index, with the indices in insertion order.  [implicit_hydrogens] is
    the [try] block of lines 341-346: an [IndigoException] of the toolkit
    is raised again under the option [strict], and gives the count 0
    otherwise.  [wrap_atom] is the body of the loop; the count goes to the
    rendering of the atom, which the record [Atom] does not carry. *)
Definition implicit_hydrogens (options : Options) (ra : TkAtom) : result Z :=
  match countImplicitHydrogens ra with
  | Some h => Ok h
  | None => if strict options then Raise IndigoException else Ok 0%Z
  end.

Definition wrap_atom (options : Options) (ra : TkAtom)
    (acc : gmap Z Atom * list Z) : result (gmap Z Atom * list Z) :=
  let i := tk_index ra in
  hydrogens ← implicit_hydrogens options ra;
  Ok (<[ i := mkAtom i (tk_x ra) (tk_y ra) (tk_neighbors ra) []
                (tk_explicit ra) ]> acc.1,
      if decide (i ∈ acc.2) then acc.2 else acc.2 ++ [i]).

Definition parseAtoms (options : Options) (tkmol : TkMol)
    : result (gmap Z Atom * list Z) :=
  foldM (wrap_atom options) (tk_atoms tkmol) (∅, []).

(** [Molecule.parseBonds] (molecule.py, lines 367-394), storing into the
    molecule what the method returns.  [wrap_bond] is the body of its
    loop. *)
Definition wrap_bond (bond : TkBond) (acc : Molecule * list (Z * Z))
    : result (Molecule * list (Z * Z)) :=
  let m := acc.1 in
  let start := source bond in
  let end_ := destination bond in
  sa ← get_atom m start;
  ea ← get_atom m end_;
  let b := Bond_init (options m) sa ea (Some (bondOrder bond))
             (bondStereo bond) in
  let m := store_bond (start, end_) b m in
  let m := store_bond (end_, start) (invert b) m in
  Ok (m, acc.2 ++ [(start, end_)]).

Definition parseBonds (tkmol : TkMol) (m : Molecule) : result Molecule :=
  '(m, pairs) ← foldM wrap_bond (tk_bonds tkmol) (m, []);
  Ok (mkMolecule (options m) (atoms m) (atom_keys m) (heap m) (bond_keys m)
        pairs (seen_atoms m) (seen_bonds m) (entry_atom m) (exit_atom m)
        (exit_bond m) (root m) (next_fresh m) (bond_scale m)).

(** [Molecule.pickFirstLastAtoms] (molecule.py, lines 302-325); the atoms
    are returned as references. *)
Definition pickFirstLastAtoms (m : Molecule) : result (Z * option Z) :=
  entry ←
    match opt_entry_atom (options m) with
    | Some n =>
        match atoms m !! (n - 1)%Z with
        | Some _ => Ok (n - 1)%Z
        | None => Raise (MCFError "Invalid entry atom number")
        end
    | None =>
        let atoms_ := omap (fun i => (fun a => (i, a)) <$> atoms m !! i)
                        (atom_keys m) in
        let atoms_ := sort_by (fun ia => length (neighbors ia.2)) atoms_ in
        ia ← first_item atoms_; Ok ia.1
    end;
  exit_ ←
    match opt_exit_atom (options m) with
    | Some n =>
        match atoms m !! (n - 1)%Z with
        | Some _ => Ok (Some (n - 1)%Z)
        | None => Raise (MCFError "Invalid exit atom number")
        end
    | None => Ok None
    end;
  Ok (entry, exit_).

(** ** The tree (molecule.py, lines 397-445) *)

Definition update_node (r : ref) (f : node -> node) (m : Molecule) : Molecule :=
  set_heap (alter f r (heap m)) m.

(** [next_bond.parent = bond; bond.descendants.append(next_bond)]. *)
Definition attach (bond next_bond : ref) (m : Molecule) : Molecule :=
  let m := update_node next_bond (with_parent (Some bond)) m in
  update_node bond
    (fun n => with_descendants (descendants n ++ [next_bond]) n) m.

(** The body of the loop of [parseTree] over the neighbors of the end
    atom; [rec] is the recursive call. *)
Definition visit_neighbor
    (rec : option Z -> Z -> Molecule -> result (option ref * Molecule))
    (start_atom : option Z) (end_atom : Z) (bond : ref) (ni : Z)
    (m : Molecule) : result Molecule :=
  if decide (start_atom = Some ni) then Ok m
  else
    _ ← get_atom m ni;
    '(next_bond, m) ← rec (Some end_atom) ni m;
    match next_bond with
    | Some nb => Ok (attach bond nb m)
    | None => Ok m
    end.

(** [parseTree] from "flag end atom as known" on (lines 427-445). *)
Definition recurse_neighbors
    (rec : option Z -> Z -> Molecule -> result (option ref * Molecule))
    (start_atom : option Z) (end_atom : Z) (bond : ref) (m : Molecule)
    : result (option ref * Molecule) :=
  let m := set_seen_atoms ({[ end_atom ]} ∪ seen_atoms m) m in
  let m := if decide (Some end_atom = exit_atom m)
           then set_exit_bond (Some bond) m else m in
  ea ← get_atom m end_atom;
  m ← foldM (visit_neighbor rec start_atom end_atom bond) (neighbors ea) m;
  Ok (Some bond, m).

(** [Molecule.parseTree], on atom references; [start_atom] is [None] at
    the root.  The answer is the reference of the bond, or [None].  Each
    nested call consumes one unit of [fuel]. *)
Fixpoint parseTree (fuel : nat) (start_atom : option Z) (end_atom : Z)
    (m : Molecule) : result (option ref * Molecule) :=
  match fuel with
  | O => Raise OutOfFuel
  | S fuel' =>
      let end_idx := end_atom in
      match start_atom with
      | None =>
          let m := set_heap (<[ Root := mkNode (ODummy end_atom) None [] ]> (heap m)) m in
          recurse_neighbors (parseTree fuel') start_atom end_atom Root m
      | Some start_idx =>
          if decide ((start_idx, end_idx) ∈ seen_bonds m
                     \/ (end_idx, start_idx) ∈ seen_bonds m)
          then Ok (None, m)
          else
            let bond := Key start_idx end_idx in
            _ ← get_node m bond;
            let m := set_seen_bonds ({[ (start_idx, end_idx) ]} ∪ seen_bonds m) m in
            if decide (end_idx ∈ seen_atoms m) then
              let m := update_node bond (map_bond (with_to_phantom true)) m in
              Ok (Some bond, m)
            else recurse_neighbors (parseTree fuel') start_atom end_atom bond m
      end
  end.

(** [Molecule.treebonds] (molecule.py, lines 195-211). *)
Fixpoint recurse (fuel : nat) (m : Molecule) (rt : ref) (allbonds : list ref)
    : result (list ref) :=
  match fuel with
  | O => Raise OutOfFuel
  | S fuel' =>
      n ← get_node m rt;
      foldM (recurse fuel' m) (descendants n) (allbonds ++ [rt])
  end.

Definition treebonds (m : Molecule) (with_root : bool) : result (list ref) :=
  rt ← match root m with Some r => Ok r | None => Raise AttributeError end;
  allbonds ← recurse (S (size (heap m))) m rt [];
  Ok (if with_root then allbonds else tail allbonds).

(** The [while] loop of [default_exit_bond]: the steps from a bond up
    the parent chain to the bond that ends at the entry atom. *)
Fixpoint exit_distance (fuel : nat) (m : Molecule) (the_bond : option ref)
    (distance : nat) : result nat :=
  match fuel with
  | O => Raise OutOfFuel
  | S fuel' =>
      match the_bond with
      | None => Ok distance
      | Some r =>
          n ← get_node m r;
          match node_end_atom n with
          | None => Raise AttributeError
          | Some e =>
              if decide (Some e = entry_atom m) then Ok distance
              else exit_distance fuel' m (parent n) (S distance)
          end
      end
  end.

(** The [for] loop of [default_exit_bond]: the list [scored] of the
    triples (distance, number of descendants, bond). *)
Definition scored_bonds (m : Molecule) : result (list (nat * nat * ref)) :=
  bonds ← treebonds m false;
  foldM (fun bond scored =>
           n ← get_node m bond;
           if node_to_phantom n then Ok scored
           else
             distance ← exit_distance (S (size (heap m))) m (Some bond) 0;
             Ok (scored ++ [(distance, length (descendants n), bond)]))
    bonds [].

(** [Molecule.default_exit_bond] (molecule.py, lines 276-299). *)
Definition default_exit_bond (m : Molecule) : result ref :=
  scored ← scored_bonds m;
  let scored := sort_by (fun el : nat * nat * ref => el.1.1) scored in
  el ← last_item scored;
  Ok el.2.

(** ** Cross bonds (molecule.py, lines 214-273) *)

(** A new bond object in the store. *)
Definition alloc (n : node) (m : Molecule) : ref * Molecule :=
  let r := Fresh (next_fresh m) in
  (r, set_next_fresh (S (next_fresh m)) (set_heap (<[ r := n ]> (heap m)) m)).

Definition get_bond (m : Molecule) (r : ref) : result Bond :=
  n ← get_node m r;
  match node_bond n with
  | Some b => Ok b
  | None => Raise AttributeError
  end.

(** [bond.set_cross(last)] on the object behind [r]. *)
Definition node_set_cross (r : ref) (last : bool) (m : Molecule) : result Molecule :=
  b ← get_bond m r;
  sa ← get_atom m (start_atom b);
  ea ← get_atom m (end_atom b);
  b' ← set_cross b sa ea last;
  Ok (update_node r (map_bond (fun _ => b')) m).

(** The body of the loop of [process_cross_bonds], for one declared
    pair. *)
Definition cross_bond_step (pair : Z * Z) (m : Molecule) : result Molecule :=
  let '(start1, end1) := pair in
  let start := (start1 - 1)%Z in
  let end_ := (end1 - 1)%Z in
  bond ←
    (if decide ((start, end_) ∈ seen_bonds m) then Ok (Key start end_)
     else if decide ((end_, start) ∈ seen_bonds m) then Ok (Key end_ start)
     else Raise (MCFError ("bond " +:+ pretty start1 +:+ "-" +:+ pretty end1
                           +:+ " doesn't exist")));
  bn ← get_node m bond;
  exit_ref ← match exit_bond m with
             | Some r => Ok r
             | None => Raise AttributeError
             end;
  en ← get_node m exit_ref;
  if bool_decide (descendants en <> [] /\ last (descendants en) = Some bond)
  then node_set_cross bond true m
  else
    (* bond_copy = bond.clone() *)
    let '(bond_copy, m) := alloc bn m in
    (* bond.set_link() *)
    let m := update_node bond (map_bond set_link) m in
    m ← node_set_cross bond_copy false m;
    let m := update_node bond_copy (map_bond (with_to_phantom true)) m in
    let m := update_node bond_copy (with_descendants []) m in
    cb ← get_bond m bond_copy;
    if decide (Some (start_atom cb) <> exit_atom m) then
      exit_a ← match exit_atom m with
               | Some a => get_atom m a
               | None => Raise AttributeError
               end;
      copy_start ← get_atom m (start_atom cb);
      let pseudo := Bond_init (options m) exit_a copy_start None st_none in
      let pseudo := set_link pseudo in
      let pseudo := with_to_phantom true pseudo in
      let '(pseudo_bond, m) := alloc (fresh_node pseudo) m in
      let m := update_node bond_copy (with_parent (Some pseudo_bond)) m in
      let m := update_node pseudo_bond
                 (fun n => with_descendants (descendants n ++ [bond_copy]) n) m in
      let m := update_node pseudo_bond (with_parent (Some exit_ref)) m in
      let m := update_node exit_ref
                 (fun n => with_descendants (descendants n ++ [pseudo_bond]) n) m in
      Ok m
    else
      let m := update_node exit_ref
                 (fun n => with_descendants (descendants n ++ [bond_copy]) n) m in
      Ok m.

(** [Molecule.process_cross_bonds]. *)
Definition process_cross_bonds (m : Molecule) : result Molecule :=
  match cross_bond (options m) with
  | Some cross_bonds => foldM cross_bond_step cross_bonds m
  | None => Raise TypeError
  end.

(** ** Rings (molecule.py, lines 448-573) *)

(** The function [num_round] of the module [chemfig_mappings], which is
    not among the sources. *)
Variable num_round : R -> Z -> R.

(** [Molecule._getBond]. *)
Definition _getBond (m : Molecule) (tkbond : TkBond) : result ref :=
  let start_idx := source tkbond in
  let end_idx := destination tkbond in
  if decide ((start_idx, end_idx) ∈ seen_bonds m) then
    _ ← get_node m (Key start_idx end_idx); Ok (Key start_idx end_idx)
  else
    _ ← get_node m (Key end_idx start_idx); Ok (Key end_idx start_idx).

(** [Molecule.aromatizeRing] (molecule.py, lines 463-490), with
    [AromaticRingBond.__init__] (bond.py, lines 532-540).
    [aromatize_bond] is the body of its loop, which also keeps the last
    bond it has met. *)
Definition aromatize_bond (tkbond : TkBond) (acc : Molecule * option ref)
    : result (Molecule * option ref) :=
  bond ← _getBond acc.1 tkbond;
  Ok (update_node bond (map_bond (with_bond_type aromatic)) acc.1, Some bond).

Definition aromatizeRing (ring : list TkBond) (center_x center_y : R)
    (m : Molecule) : result Molecule :=
  let ringbonds := ring in
  '(m, bond) ← foldM aromatize_bond ringbonds (m, None);
  bond ← match bond with Some r => Ok r | None => Raise AttributeError end;
  b ← get_bond m bond;
  atom ← get_atom m (end_atom b);
  let '(outer_r, ang) :=
    compare_positions (atom_x atom) (atom_y atom) center_x center_y in
  let ang := ang + rotate (options m) in
  let outer_r := outer_r * bond_scale m in
  let alpha := PI / 2 - PI / INR (length ringbonds) in
  let inner_r := sin alpha * outer_r in
  let arb := ORing (fmod (num_round ang 1) 360) (Some (angle b))
               (num_round outer_r 2) (num_round (15 / 10 * inner_r) 2) in
  let '(arb_ref, m) := alloc (mkNode arb None []) m in
  Ok (update_node bond
        (fun n => with_descendants (descendants n ++ [arb_ref]) n) m).

(** [max] and [min] of a list of floats; [ValueError] on the empty
    list. *)
Definition list_max (l : list R) : result R :=
  match l with
  | [] => Raise ValueError
  | a :: l' => Ok (foldl Rmax a l')
  end.

Definition list_min (l : list R) : result R :=
  match l with
  | [] => Raise ValueError
  | a :: l' => Ok (foldl Rmin a l')
  end.

(** Float division. *)
Definition fdiv (a b : R) : result R :=
  if Req_dec_T b 0 then Raise ZeroDivisionError else Ok (a / b).

Definition fsum (l : list R) : R := foldl Rplus 0 l.

(** The comparison [a <= b] on floats. *)
Definition Rleb (a b : R) : bool := if Rle_dec a b then true else false.

(** The first loop of [annotateRing] (molecule.py, lines 501-511): the
    atoms of the ring, and the lengths and the tree bonds of its bonds.
    [survey_bond] is the body of the loop. *)
Definition survey_bond (m : Molecule) (tkbond : TkBond)
    (acc : gset Z * list R * list ref) : result (gset Z * list R * list ref) :=
  let '(atoms_, bond_lengths, bonds) := acc in
  bond ← _getBond m tkbond;
  b ← get_bond m bond;
  _ ← get_atom m (start_atom b);
  _ ← get_atom m (end_atom b);
  Ok ({[ end_atom b ]} ∪ ({[ start_atom b ]} ∪ atoms_),
      bond_lengths ++ [blength b], bonds ++ [bond]).

Definition ring_survey (ring : list TkBond) (m : Molecule)
    : result (gset Z * list R * list ref) :=
  foldM (survey_bond m) ring (∅, [], []).

(** What [annotateRing] measures of a ring (molecule.py, lines 516-534):
    the spread of the bond lengths, the center, the angle under which each
    atom sees the center, and the spread of the distances from the
    center. *)
Record ring_geometry := mkRingGeometry {
  bl_spread : R;
  ring_center_x : R;
  ring_center_y : R;
  atom_angles : list (Z * R);
  cd_spread : R
}.

Definition measure_ring (m : Molecule) (atoms_ : gset Z) (bond_lengths : list R)
    : result ring_geometry :=
  bl_max ← list_max bond_lengths;
  bl_min ← list_min bond_lengths;
  bl_spread ← fdiv (bl_max - bl_min) bl_max;
  ring_atoms ← foldM (fun i l => a ← get_atom m i; Ok (l ++ [(i, a)]))
                 (elements atoms_) [];
  center_x ← fdiv (fsum ((fun ia => atom_x ia.2) <$> ring_atoms))
               (INR (length ring_atoms));
  center_y ← fdiv (fsum ((fun ia => atom_y ia.2) <$> ring_atoms))
               (INR (length ring_atoms));
  let measured :=
    (fun ia : Z * Atom =>
       (ia.1, compare_positions (atom_x ia.2) (atom_y ia.2) center_x center_y))
      <$> ring_atoms in
  let center_distances := (fun al : Z * (R * R) => al.2.1) <$> measured in
  let atom_angles := (fun al : Z * (R * R) => (al.1, al.2.2)) <$> measured in
  cd_max ← list_max center_distances;
  cd_min ← list_min center_distances;
  cd_spread ← fdiv (cd_max - cd_min) cd_max;
  Ok (mkRingGeometry bl_spread center_x center_y atom_angles cd_spread).

(** The bodies of the two closing loops of [annotateRing]: an angle
    flagged as occupied at an atom, and a bond told its orientation. *)
Definition flag_angle (m : Molecule) (aa : Z * R) : Molecule :=
  set_atoms (alter (fun a => with_bond_angles (bond_angles a ++ [aa.2]) a)
               aa.1 (atoms m)) m.

Definition tag_bond (center_x center_y : R) (bond : ref) (m : Molecule)
    : result Molecule :=
  b ← get_bond m bond;
  ea ← get_atom m (end_atom b);
  Ok (update_node bond
        (map_bond (fun b => is_clockwise (options m) b ea center_x center_y)) m).

(** [Molecule.annotateRing] (molecule.py, lines 493-551). *)
Definition annotateRing (ring : list TkBond) (is_aromatic : bool)
    (m : Molecule) : result Molecule :=
  '(atoms_, bond_lengths, bonds) ← ring_survey ring m;
  if decide (8 < length bonds)%nat then Ok m
  else
    g ← measure_ring m atoms_ bond_lengths;
    let tolerance := 5 / 100 in
    let is_symmetric :=
      Rleb (cd_spread g) tolerance && Rleb (bl_spread g) tolerance in
    if is_aromatic && is_symmetric && aromatic_circles (options m) then
      m ← aromatizeRing ring (ring_center_x g) (ring_center_y g) m;
      Ok (fold_left flag_angle (atom_angles g) m)
    else
      foldM (tag_bond (ring_center_x g) (ring_center_y g)) bonds m.

(** [Molecule.annotateRings] (molecule.py, lines 554-573); the toolkit's
    [aromatize] has already been applied to the rings of [tkmol].
    [all_rings] is the list it builds: every ring with the flag saying that
    all its bonds have the bond order 4. *)
Definition all_rings (tkmol : TkMol) : list (bool * list TkBond) :=
  (fun ring => (forallb (fun bond => bool_decide (bondOrder bond = 4%Z)) ring,
                ring)) <$> tk_rings tkmol.

(** The rings in the order in which they are annotated:
    [reversed(all_rings)] after [all_rings.sort(key=lambda t:t[0])]. *)
Definition ring_order (tkmol : TkMol) : list (bool * list TkBond) :=
  reverse
    (sort_by (fun t : bool * list TkBond => if t.1 then 1%nat else 0%nat)
       (all_rings tkmol)).

Definition annotateRings (tkmol : TkMol) (m : Molecule) : result Molecule :=
  foldM (fun '(is_aromatic, ring) m => annotateRing ring is_aromatic m)
    (ring_order tkmol) m.

(** ** Scaling and construction (molecule.py, lines 20-88 and 576-593) *)

(** [Counter(lengths).most_common()] of the module [common], the method
    [Atom.score_angles], and the rendering pass ([Molecule.render] with the
    renderers of [Atom] and [chemfig_mappings]): parts that are not among
    the sources. *)
Variable most_common : list R -> R.
Variable score_angles : Atom -> Atom.
Variable render : Molecule -> result (list string).

(** The built-in [round(l, ndigits)]. *)
Definition round_digits (l : R) (ndigits : Z) : R :=
  IZR (py_round (l * powerRZ 10 ndigits)) / powerRZ 10 ndigits.

Definition tree_lengths (m : Molecule) (bonds : list ref) : result (list R) :=
  foldM (fun r l => b ← get_bond m r; Ok (l ++ [blength b])) bonds [].

(** [Molecule.scaleBonds] (molecule.py, lines 576-593).  [set_scale] is
    its choice of [self.bond_scale], [scale_bond] the body of its loop. *)
Definition set_scale (m : Molecule) : result Molecule :=
  match bond_scale_opt (options m) with
  | keep => Ok m
  | normalize =>
      bonds ← treebonds m false;
      lengths ← tree_lengths m bonds;
      let lengths := (fun l => round_digits l (bond_round (options m)))
                       <$> lengths in
      sc ← fdiv (bond_stretch (options m)) (most_common lengths);
      Ok (set_bond_scale sc m)
  | scale => Ok (set_bond_scale (bond_stretch (options m)) m)
  end.

Definition scale_bond (r : ref) (m : Molecule) : result Molecule :=
  b ← get_bond m r;
  Ok (update_node r (map_bond (with_blength (bond_scale m * blength b))) m).

Definition scaleBonds (m : Molecule) : result Molecule :=
  m ← set_scale m;
  bonds ← treebonds m false;
  foldM scale_bond bonds m.

(** The loop of [__init__] that flags the trunk, from the exit bond up
    the parent chain to the bond that ends at the entry atom. *)
Fixpoint flag_trunk (fuel : nat) (flagged_bond : option ref) (m : Molecule)
    : result Molecule :=
  match fuel with
  | O => Raise OutOfFuel
  | S fuel' =>
      match flagged_bond with
      | None => Raise AttributeError
      | Some r =>
          n ← get_node m r;
          match node_end_atom n with
          | None => Raise AttributeError
          | Some e =>
              if decide (Some e = entry_atom m) then Ok m
              else
                let m := update_node r (map_bond (with_is_trunk true)) m in
                flag_trunk fuel' (parent n) m
          end
      end
  end.

(** The loop of [__init__] that hands every bond angle to its start
    atom; [collect_angle] is its body. *)
Definition collect_angle (connection : Z * Z) (m : Molecule) : result Molecule :=
  let '(first_idx, last_idx) := connection in
  bond ← get_bond m (Key first_idx last_idx);
  _ ← get_atom m first_idx;
  Ok (set_atoms
        (alter (fun a => with_bond_angles (bond_angles a ++ [angle bond]) a)
           first_idx (atoms m)) m).

Definition collect_bond_angles (m : Molecule) : result Molecule :=
  foldM collect_angle (bond_keys m) m.

(** [Molecule.__init__], lines 20-52: atoms, bonds, bond angles and
    fragment links, up to the empty sets of seen atoms and bonds. *)
Definition Molecule_prepare (options : Options) (tkmol : TkMol)
    : result Molecule :=
  '(atoms_, keys) ← parseAtoms options tkmol;
  let atoms_ :=
    (fun atom =>
       with_xy (if flip_horizontal options then - atom_x atom else atom_x atom)
               (if flip_vertical options then - atom_y atom else atom_y atom)
               atom) <$> atoms_ in
  let m := mkMolecule options atoms_ keys ∅ [] [] ∅ ∅ None None None None 0 1 in
  m ← parseBonds tkmol m;
  m ← collect_bond_angles m;
  m ← connect_fragments m;
  Ok (set_seen_bonds ∅ (set_seen_atoms ∅ m)).

(** [Molecule.__init__], lines 20-55: as far as the tree, with the entry
    and exit atoms chosen and the root bond set. *)
Definition Molecule_tree (options : Options) (tkmol : TkMol) : result Molecule :=
  m ← Molecule_prepare options tkmol;
  '(entry, exit_) ← pickFirstLastAtoms m;
  let m := set_entry_exit (Some entry) exit_ m in
  '(rt, m) ← parseTree (S (size (atoms m))) None entry m;
  Ok (set_root rt m).

(** [Molecule.__init__]: the constructed molecule with its rendering. *)
Definition Molecule_init (options : Options) (tkmol : TkMol)
    : result (Molecule * list string) :=
  m ← Molecule_prepare options tkmol;
  '(entry, exit_) ← pickFirstLastAtoms m;
  let m := set_entry_exit (Some entry) exit_ m in
  '(rt, m) ← parseTree (S (size (atoms m))) None entry m;
  let m := set_root rt m in
  m ← (if decide (1 < size (atoms m))%nat then
         m ← match exit_atom m with
             | None =>
                 eb ← default_exit_bond m;
                 n ← get_node m eb;
                 Ok (set_entry_exit (entry_atom m) (node_end_atom n)
                       (set_exit_bond (Some eb) m))
             | Some _ => Ok m
             end;
         m ← (if decide (entry_atom m <> exit_atom m)
              then flag_trunk (S (size (heap m))) (exit_bond m) m
              else Ok m);
         m ← match cross_bond options with
             | Some _ => process_cross_bonds m
             | None => Ok m
             end;
         m ← scaleBonds m;
         annotateRings tkmol m
       else Ok m);
  let m := set_atoms (score_angles <$> atoms m) m in
  rendered ← render m;
  Ok (m, rendered).

End MoleculeOps.

(** ** Vocabulary of the statements *)



(** The angles, rounded to whole degrees in [0, 360), of the bonds that an
    atom carries, and the angle under which bond [b] itself is looked up
    there ([inversion_angle] is 0 at the start atom, 180 at the end
    atom). *)
Definition rounded_angles (atom : Atom) : list Z :=
  map (fun a => (py_round a mod 360)%Z) (bond_angles atom).

Definition reference_angle (b : Bond) (inversion_angle : R) : Z :=
  (py_round (angle b - inversion_angle) mod 360)%Z.

(** The atom carries bond [b] and nothing else. *)
Definition no_other_bond (b : Bond) (atom : Atom) (inversion_angle : R) : Prop :=
  rounded_angles atom = [reference_angle b inversion_angle].

(** The atom carries bond [b] and at least one more bond. *)
Definition has_other_bond (b : Bond) (atom : Atom) (inversion_angle : R) : Prop :=
  exists a l,
    list_remove (reference_angle b inversion_angle) (rounded_angles atom)
    = Ok (a :: l).

(** The atoms named by a list of bonded pairs, the undirected adjacency of
    such a list, and what it means for the list to be one connected
    fragment. *)
Definition atoms_of (ps : list (Z * Z)) : gset Z := ⋃ (pair_atoms <$> ps).

Definition edge (ps : list (Z * Z)) (a b : Z) : Prop :=
  (a, b) ∈ ps \/ (b, a) ∈ ps.

Definition connected_fragment (ps : list (Z * Z)) : Prop :=
  ps <> [] /\
  forall a b, a ∈ atoms_of ps -> b ∈ atoms_of ps -> rtc (edge ps) a b.

Fixpoint disjoint_fragments (fs : list (list (Z * Z))) : Prop :=
  match fs with
  | [] => True
  | f :: fs' =>
      (forall g, g ∈ fs' -> atoms_of f ## atoms_of g) /\ disjoint_fragments fs'
  end.

(** What [molecule_fragments] promises about its answer for the list
    [pairs]: the fragments split [pairs], each is connected, and no two of
    them share an atom. *)
Definition fragments_of (pairs : list (Z * Z)) (fs : list (list (Z * Z))) : Prop :=
  concat fs ≡ₚ pairs /\ Forall connected_fragment fs /\ disjoint_fragments fs.

(** The loop invariant of [split_pairs]: [ca] is the set of atoms of the
    pairs collected so far, and each of them is joined to [x0] by collected
    pairs. *)
Definition split_inv (x0 : Z) (ca : gset Z) (cp : list (Z * Z)) : Prop :=
  ca = atoms_of cp /\ forall a, a ∈ ca -> rtc (edge cp) x0 a.


(** The traversal relation of [parseTree]: [b] is listed among the
    neighbors of atom [a]. *)
Definition nb (m : Molecule) (a b : Z) : Prop :=
  match atoms m !! a with
  | Some A => b ∈ neighbors A
  | None => False
  end.

Definition connected (m : Molecule) : Prop :=
  forall a b, a ∈ dom (atoms m) -> b ∈ dom (atoms m) -> rtc (nb m) a b.









(** A user-specified atom number outside 1..N. *)
Definition invalid_atom_number (o : option Z) (N : Z) : Prop :=
  exists k, o = Some k /\ ~ (1 <= k <= N)%Z.


(** ** Example inputs *)

Section Examples.
Local Open Scope R_scope.

(** Options with nothing chosen by the user. *)
Definition plain_options : Options :=
  mkOptions false false 0 None None None true None keep 1 2 false.

Definition with_entry_exit (en ex : option Z) (o : Options) : Options :=
  mkOptions (flip_horizontal o) (flip_vertical o) (rotate o) en ex
    (cross_bond o) (aromatic_circles o) (markers o) (bond_scale_opt o)
    (bond_stretch o) (bond_round o) (strict o).

Definition with_cross_bond (c : option (list (Z * Z))) (o : Options) : Options :=
  mkOptions (flip_horizontal o) (flip_vertical o) (rotate o)
    (opt_entry_atom o) (opt_exit_atom o) c (aromatic_circles o) (markers o)
    (bond_scale_opt o) (bond_stretch o) (bond_round o) (strict o).

(** Stand-ins for the collaborators that are not among the sources. *)
Definition num_round_id (x : R) (digits : Z) : R := x.
Definition most_common_one (l : list R) : R := 1.
Definition score_angles_id (a : Atom) : Atom := a.
Definition render_nothing (m : Molecule) : result (list string) := Ok [].

(** The molecule without atoms. *)
Definition empty_mol : TkMol := mkTkMol [] [] [].


(** Three atoms in a chain with the indices 0, 1 and 5, as a toolkit
    leaves them that has removed atoms. *)
Definition gapped : TkMol :=
  mkTkMol [mkTkAtom 0 0 0 [1%Z] false (Some 0%Z);
           mkTkAtom 1 1 0 [0%Z; 5%Z] false (Some 0%Z);
           mkTkAtom 5 2 0 [1%Z] false (Some 0%Z)]
          [mkTkBond 0 1 1 st_none; mkTkBond 1 5 1 st_none] [].

(** Two bonded atoms, for the second of which the toolkit does not count
    the hydrogens; and the options that do not forgive it. *)
Definition uncounted : TkMol :=
  mkTkMol [mkTkAtom 0 0 0 [1%Z] false (Some 0%Z);
           mkTkAtom 1 1 0 [0%Z] false None]
          [mkTkBond 0 1 1 st_none] [].

Definition strict_options : Options :=
  mkOptions false false 0 None None None true None keep 1 2 true.

End Examples.

(** ** The tree held in the store *)

(** A tree of references, as a value: the shape that the [descendants]
    lists of a store spell out below some bond. *)
Inductive tree := Node (r : ref) (ts : list tree).

Definition root_ref (t : tree) : ref := match t with Node r _ => r end.
Definition children (t : tree) : list tree := match t with Node _ ts => ts end.

Fixpoint flatten (t : tree) : list ref :=
  match t with
  | Node r ts => r :: concat (map flatten ts)
  end.

Fixpoint depth (t : tree) : nat :=
  match t with
  | Node r ts => S (foldr Nat.max 0%nat (map depth ts))
  end.

(** The store [h] holds the tree [t]: every node of [t] is in the store
    and its [descendants] are its children in [t], in order. *)
Inductive repr (h : gmap ref node) : tree -> Prop :=
| repr_node r ts n :
    h !! r = Some n ->
    descendants n = map root_ref ts ->
    Forall (repr h) ts ->
    repr h (Node r ts).

(** What a bond of the tree says about its end atom. *)
Definition tree_end (m : Molecule) (r : ref) : option Z :=
  n ← heap m !! r; node_end_atom n.

Definition tree_phantom (m : Molecule) (r : ref) : bool :=
  match heap m !! r with
  | Some n => node_to_phantom n
  | None => false
  end.

Definition tree_leaf (m : Molecule) (r : ref) : Prop :=
  exists n, heap m !! r = Some n /\ descendants n = [].

(** The end atom of a stored object, and whether it is of class [Bond]
    proper. *)
Definition shape (n : node) : option Z * bool :=
  (node_end_atom n, match obj_of n with OBond _ => true | _ => false end).

(** The atom graph as [parseTree] needs it: every listed neighbor is an
    atom of the molecule, and the bond towards it is stored under its
    key. *)
Definition wf_graph (m : Molecule) : Prop :=
  forall a A ni, atoms m !! a = Some A -> ni ∈ neighbors A ->
    ni ∈ dom (atoms m) /\
    shape <$> heap m !! Key a ni = Some (Some ni, true).

(** The molecule before [parseTree]: nothing seen, no root, and every
    stored bond without descendants and not phantom. *)
Definition untraversed (m : Molecule) : Prop :=
  seen_atoms m = ∅ /\ seen_bonds m = ∅ /\
  forall r n, heap m !! r = Some n ->
    descendants n = [] /\ node_to_phantom n = false.

(** ** Invariants of the traversal *)

(** What the tree reads of a stored object: the object and its
    descendants (not its parent). *)
Definition hv (h : gmap ref node) (r : ref) : option (obj * list ref) :=
  (fun n => (obj_of n, descendants n)) <$> h !! r.

(** The bond object under [r] was taken into the tree between [m] and
    [m']. *)
Definition new_key (m m' : Molecule) (r : ref) : Prop :=
  exists s e, r = Key s e /\ (s, e) ∈ seen_bonds m' /\ (s, e) ∉ seen_bonds m.

(** What a stretch of the traversal may change: it only adds to the seen
    sets, touches no object other than the bonds it takes into the tree
    (and the bond [x] the subtrees are hung under, if any), keeps every
    object's end atom, and leaves no newly seen atom with an unseen
    neighbor. *)
Record stepx (x : option ref) (m m' : Molecule) : Prop := mkStepx {
  step_atoms : atoms m' = atoms m;
  step_exit : exit_atom m' = exit_atom m;
  step_A : seen_atoms m ⊆ seen_atoms m';
  step_B : seen_bonds m ⊆ seen_bonds m';
  step_frame : forall r, Some r <> x -> ~ new_key m m' r ->
                 hv (heap m') r = hv (heap m) r;
  step_shape : forall r, shape <$> heap m' !! r = shape <$> heap m !! r;
  step_closed : forall a ni, a ∈ seen_atoms m' -> a ∉ seen_atoms m ->
                  nb m a ni -> ni ∈ seen_atoms m'
}.

(** What holds between the calls of [parseTree]. *)
Record inv (m : Molecule) : Prop := mkInv {
  inv_B : forall s e, (s, e) ∈ seen_bonds m ->
            s ∈ seen_atoms m /\ e ∈ seen_atoms m;
  inv_pristine : forall s e n, (s, e) ∉ seen_bonds m ->
                   heap m !! Key s e = Some n ->
                   descendants n = [] /\ node_to_phantom n = false;
  inv_A : seen_atoms m ⊆ dom (atoms m);
  inv_shape : forall s e, (s, e) ∈ seen_bonds m ->
                shape <$> heap m !! Key s e = Some (Some e, true)
}.

(** The end atoms of the non-phantom bonds among [L]. *)
Definition ends (m : Molecule) (L : list ref) : list Z :=
  omap (fun r => if tree_phantom m r then None else tree_end m r) L.

(** The bonds [L] were taken into the tree between [m] and [m']: they
    are distinct, their non-phantom ones end at the atoms first seen in
    between, once each, and their phantom ones are leaves. *)
Definition built_refs (m m' : Molecule) (L : list ref) : Prop :=
  (forall r, r ∈ L -> new_key m m' r) /\
  NoDup L /\
  NoDup (ends m' L) /\
  (forall a, a ∈ ends m' L <-> a ∈ seen_atoms m' /\ a ∉ seen_atoms m) /\
  (forall r, r ∈ L -> tree_phantom m' r = true -> tree_leaf m' r).

(** The bond under [r] is already part of the tree (or is the root), so
    that no later call takes it. *)
Definition settled (m : Molecule) (r : ref) : Prop :=
  r = Root \/ exists s e, r = Key s e /\ (s, e) ∈ seen_bonds m.

(** What is proved of a call [rec (Some s) e m] of [parseTree] from an
    atom [s] already seen to its neighbor [e], with fuel [f] for the atoms
    not yet seen: it returns; either it returns [None] and changes
    nothing, or it returns the bond [Key s e], under which the store then
    holds a tree of bonds newly taken into the tree. *)
Definition call_spec
    (rec : option Z -> Z -> Molecule -> result (option ref * Molecule))
    (f : nat) : Prop :=
  forall s e m,
    wf_graph m -> inv m -> s ∈ seen_atoms m -> nb m s e ->
    (size (dom (atoms m) ∖ seen_atoms m) < f)%nat ->
    exists res m',
      rec (Some s) e m = Ok (res, m') /\ stepx None m m' /\ inv m' /\
      e ∈ seen_atoms m' /\
      match res with
      | None => m' = m
      | Some r =>
          r = Key s e /\
          exists t, root_ref t = r /\ repr (heap m') t /\
                    built_refs m m' (flatten t)
      end.

(** A bond of the tree [l] closes a ring: its end atom is the end atom of
    another, non-phantom bond of the tree. *)
Definition ring_closure (m : Molecule) (l : list ref) (r : ref) : Prop :=
  exists r', r' ∈ l /\ r' <> r /\ tree_phantom m r' = false /\
             tree_end m r' = tree_end m r.

(** ** Vocabulary of the tree post-processing *)



Section Examples2.
Local Open Scope R_scope.

(** A three-membered ring 1-2-3 with the pendant atoms 0 (on atom 1) and
    4 (on atom 2). *)
Definition ring_with_pendants : TkMol :=
  mkTkMol [mkTkAtom 0 0 0 [1%Z] false (Some 0%Z);
           mkTkAtom 1 1 0 [0%Z; 2%Z; 3%Z] false (Some 0%Z);
           mkTkAtom 2 2 1 [1%Z; 3%Z; 4%Z] false (Some 0%Z);
           mkTkAtom 3 2 (-1) [1%Z; 2%Z] false (Some 0%Z);
           mkTkAtom 4 3 1 [2%Z] false (Some 0%Z)]
          [mkTkBond 0 1 1 st_none; mkTkBond 1 2 1 st_none;
           mkTkBond 2 3 1 st_none; mkTkBond 3 1 1 st_none;
           mkTkBond 2 4 1 st_none] [].

(** A three-membered ring. *)
Definition triangle : TkMol :=
  mkTkMol [mkTkAtom 0 0 0 [1%Z; 2%Z] false (Some 0%Z);
           mkTkAtom 1 2 0 [0%Z; 2%Z] false (Some 0%Z);
           mkTkAtom 2 1 1 [1%Z; 0%Z] false (Some 0%Z)]
          [mkTkBond 0 1 1 st_none; mkTkBond 1 2 1 st_none;
           mkTkBond 2 0 1 st_none] [].

(** The state that [Molecule_prepare] returns (the empty state if it
    raises). *)
Definition prepared (o : Options) (tk : TkMol) : Molecule :=
  match Molecule_prepare o tk with
  | Ok m => m
  | Raise _ => mkMolecule o ∅ [] ∅ [] [] ∅ ∅ None None None None 0 1
  end.

(** A bond object from [s] to [e] drawn at [ang] degrees. *)
Definition plain_bond (s e : Z) (ang : R) : Bond :=
  mkBond s e single 1 ang 0 false false false ∅ ∅ "".

(** The state of a zig-zag chain 0-1-2-3 after the tree is built from
    entry atom 0, with atom 1 as the exit atom: the bond 0-1 is the exit
    bond and the bond 1-2 its only descendant. *)
Definition zigzag_chain : Molecule :=
  mkMolecule
    (with_cross_bond (Some [(2, 3)%Z])
       (with_entry_exit (Some 1%Z) (Some 2%Z) plain_options))
    (<[ 0%Z := mkAtom 0 0 0 [1%Z] [30] false ]>
     (<[ 1%Z := mkAtom 1 2 1 [0%Z; 2%Z] [210; 330] false ]>
     (<[ 2%Z := mkAtom 2 4 0 [1%Z; 3%Z] [150; 30] false ]>
     (<[ 3%Z := mkAtom 3 6 1 [2%Z] [210] false ]> ∅))))
    [0; 1; 2; 3]%Z
    (<[ Root := mkNode (ODummy 0) None [Key 0 1] ]>
     (<[ Key 0 1 := mkNode (OBond (plain_bond 0 1 30)) (Some Root) [Key 1 2] ]>
     (<[ Key 1 0 := fresh_node (plain_bond 1 0 210) ]>
     (<[ Key 1 2 := mkNode (OBond (plain_bond 1 2 330)) (Some (Key 0 1)) [Key 2 3] ]>
     (<[ Key 2 1 := fresh_node (plain_bond 2 1 150) ]>
     (<[ Key 2 3 := mkNode (OBond (plain_bond 2 3 30)) (Some (Key 1 2)) [] ]>
     (<[ Key 3 2 := fresh_node (plain_bond 3 2 210) ]> ∅)))))))
    [(0, 1); (1, 0); (1, 2); (2, 1); (2, 3); (3, 2)]%Z
    [(0, 1); (1, 2); (2, 3)]%Z
    {[ 0; 1; 2; 3 ]}%Z
    {[ (0, 1); (1, 2); (2, 3) ]}%Z
    (Some 0%Z) (Some 1%Z) (Some (Key 0 1)) (Some Root) 0 1.

(** Two bonded fragments 0-1 and 2-3 and the orphan atom 4, as they are
    when [connect_fragments] is called. *)
Definition two_fragments : Molecule :=
  mkMolecule plain_options
    (<[ 0%Z := mkAtom 0 0 0 [1%Z] [0] false ]>
     (<[ 1%Z := mkAtom 1 1 0 [0%Z] [180] false ]>
     (<[ 2%Z := mkAtom 2 3 0 [3%Z] [0] false ]>
     (<[ 3%Z := mkAtom 3 4 0 [2%Z] [180] false ]>
     (<[ 4%Z := mkAtom 4 6 0 [] [] false ]> ∅)))))
    [0; 1; 2; 3; 4]%Z
    (<[ Key 0 1 := fresh_node (plain_bond 0 1 0) ]>
     (<[ Key 1 0 := fresh_node (plain_bond 1 0 180) ]>
     (<[ Key 2 3 := fresh_node (plain_bond 2 3 0) ]>
     (<[ Key 3 2 := fresh_node (plain_bond 3 2 180) ]> ∅))))
    [(0, 1); (1, 0); (2, 3); (3, 2)]%Z
    [(0, 1); (2, 3)]%Z
    ∅ ∅ None None None None 0 1.

End Examples2.

(** ** Vocabulary of the ring annotation *)

(** Between [m] and [m'] one of the bonds [bonds] got a new descendant
    that is an aromatic ring object: the circle. *)
Definition ring_circle (m m' : Molecule) (bonds : list ref) : Prop :=
  exists bond arb n a p l rd,
    bond ∈ bonds /\ heap m' !! bond = Some n /\ arb ∈ descendants n /\
    heap m !! arb = None /\
    heap m' !! arb = Some (mkNode (ORing a p l rd) None []).

(** The bond behind [r] carries an orientation in [m']: the tag 1 or -1
    it got between [m] and [m'], or the tag it already had in [m]. *)
Definition ring_tagged (m m' : Molecule) (r : ref) : Prop :=
  exists b b', get_bond m r = Ok b /\ get_bond m' r = Ok b' /\
    clockwise b' <> 0%Z /\
    (clockwise b <> 0%Z -> clockwise b' = clockwise b) /\
    (clockwise b = 0%Z -> clockwise b' = 1%Z \/ clockwise b' = (-1)%Z).

(** The bond behind [r] can be read off the store together with its two
    atoms. *)
Definition bond_ok (m : Molecule) (r : ref) : Prop :=
  exists b, get_bond m r = Ok b /\
    is_Some (atoms m !! start_atom b) /\ is_Some (atoms m !! end_atom b).

(** What the orientation pass may change between [m] and [m']: nothing
    but orientations, and an orientation only where there was none. *)
Definition tag_rel (m m' : Molecule) : Prop :=
  atoms m' = atoms m /\ options m' = options m /\
  dom (heap m') = dom (heap m) /\
  forall r b, get_bond m r = Ok b ->
    exists b', get_bond m' r = Ok b' /\
      start_atom b' = start_atom b /\ end_atom b' = end_atom b /\
      (clockwise b <> 0%Z -> clockwise b' = clockwise b) /\
      (clockwise b = 0%Z ->
         clockwise b' = 0%Z \/ clockwise b' = 1%Z \/ clockwise b' = (-1)%Z).

(** What the loop of [aromatizeRing] may change between [m] and [m']:
    bond types only. *)
Definition arom_rel (m m' : Molecule) : Prop :=
  atoms m' = atoms m /\ options m' = options m /\
  seen_bonds m' = seen_bonds m /\ next_fresh m' = next_fresh m /\
  bond_scale m' = bond_scale m /\
  dom (heap m') = dom (heap m) /\
  forall r b, get_bond m r = Ok b ->
    exists b', get_bond m' r = Ok b' /\ end_atom b' = end_atom b.

(** Where an atom is drawn. *)
Definition atom_position (m : Molecule) (i : Z) : option (R * R) :=
  (fun a => (atom_x a, atom_y a)) <$> atoms m !! i.

Section Examples3.
Local Open Scope R_scope.

(** The state that [Molecule_tree] returns (the empty state if it
    raises). *)
Definition tree_state (o : Options) (tk : TkMol) : Molecule :=
  match Molecule_tree o tk with
  | Ok m => m
  | Raise _ => mkMolecule o ∅ [] ∅ [] [] ∅ ∅ None None None None 0 1
  end.

(** A ring of nine atoms joined by single bonds. *)
Definition nonagon_bonds : list TkBond :=
  [mkTkBond 0 1 1 st_none; mkTkBond 1 2 1 st_none; mkTkBond 2 3 1 st_none;
   mkTkBond 3 4 1 st_none; mkTkBond 4 5 1 st_none; mkTkBond 5 6 1 st_none;
   mkTkBond 6 7 1 st_none; mkTkBond 7 8 1 st_none; mkTkBond 8 0 1 st_none].

Definition nonagon : TkMol :=
  mkTkMol [mkTkAtom 0 1 0 [1%Z; 8%Z] false (Some 0%Z); mkTkAtom 1 2 0 [0%Z; 2%Z] false (Some 0%Z);
           mkTkAtom 2 3 1 [1%Z; 3%Z] false (Some 0%Z); mkTkAtom 3 3 2 [2%Z; 4%Z] false (Some 0%Z);
           mkTkAtom 4 3 3 [3%Z; 5%Z] false (Some 0%Z); mkTkAtom 5 2 4 [4%Z; 6%Z] false (Some 0%Z);
           mkTkAtom 6 1 4 [5%Z; 7%Z] false (Some 0%Z); mkTkAtom 7 0 3 [6%Z; 8%Z] false (Some 0%Z);
           mkTkAtom 8 0 1 [7%Z; 0%Z] false (Some 0%Z)]
          nonagon_bonds [nonagon_bonds].

End Examples3.

(** ** Vocabulary of further properties *)

(** [list(self.atoms.values())], each atom with its key: the atoms in
    insertion order. *)
Definition atom_items (m : Molecule) : list (Z * Atom) :=
  omap (fun i => (fun a => (i, a)) <$> atoms m !! i) (atom_keys m).

(** The same molecule state under other options. *)
Definition with_options (o : Options) (m : Molecule) : Molecule :=
  mkMolecule o (atoms m) (atom_keys m) (heap m) (bond_keys m) (atom_pairs m)
    (seen_atoms m) (seen_bonds m) (entry_atom m) (exit_atom m) (exit_bond m)
    (root m) (next_fresh m) (bond_scale m).

(** The tree of the zig-zag chain. *)
Definition zigzag_tree : tree :=
  Node Root [Node (Key 0 1) [Node (Key 1 2) [Node (Key 2 3) []]]].

(** ** Vocabulary of the trunk and of scaling *)

(** The chain of parents from the bond behind [r] up to the bond that
    ends at the entry atom: [path] lists the bonds below that bond, [r]
    first. *)
Inductive parent_chain (m : Molecule) : ref -> list ref -> Prop :=
| chain_stop r n e :
    heap m !! r = Some n ->
    node_end_atom n = Some e ->
    Some e = entry_atom m ->
    parent_chain m r []
| chain_step r n e p path :
    heap m !! r = Some n ->
    node_end_atom n = Some e ->
    Some e <> entry_atom m ->
    parent n = Some p ->
    parent_chain m p path ->
    parent_chain m r (r :: path).

Section Examples4.
Local Open Scope R_scope.

(** Options asking for all bonds to be stretched by 2. *)
Definition stretch_options : Options :=
  mkOptions false false 0 None None None true None scale 2 2 false.

End Examples4.

(** ** Vocabulary of the construction as a whole *)





Section Examples5.
Local Open Scope R_scope.


End Examples5.

Section Examples6.
Local Open Scope R_scope.


End Examples6.

(** ** Vocabulary of the ring measurement *)



(** The Bond object behind a reference. *)
Definition bond_at (m : Molecule) (r : ref) : option Bond :=
  heap m !! r ≫= node_bond.



Definition ring_atoms (m : Molecule) (bonds : list ref) : gset Z :=
  list_to_set
    (bonds ≫= fun r => match bond_at m r with
                        | Some b => [start_atom b; end_atom b]
                        | None => []
                        end).

(** The places of the atoms [A], their mean (the center of the ring), and
    the distances of the atoms from it. *)
Definition ring_positions (m : Molecule) (A : gset Z) : list (R * R) :=
  omap (atom_position m) (elements A).

Definition mean (l : list R) : R := (fsum l / INR (length l))%R.

Definition ring_center (m : Molecule) (A : gset Z) : R * R :=
  (mean ((fun p : R * R => p.1) <$> ring_positions m A),
   mean ((fun p : R * R => p.2) <$> ring_positions m A)).

Definition distance (p q : R * R) : R :=
  sqrt ((q.1 - p.1) ^ 2 + (q.2 - p.2) ^ 2).

Definition center_distances (m : Molecule) (A : gset Z) : list R :=
  (fun p => distance p (ring_center m A)) <$> ring_positions m A.

Section Examples7.
Local Open Scope R_scope.




End Examples7.

(** ** Vocabulary of the choice of the exit bond *)

(** An entry of the list [scored] for the bond behind [r]: the bond
    itself, with the number of bonds on its way up to the entry bond. *)
Definition scores (m : Molecule) (el : nat * nat * ref) (r : ref) : Prop :=
  el.2 = r /\ exists path, parent_chain m r path /\ el.1.1 = length path.
(** * Properties *)

Section GeometryFacts.
Local Open Scope R_scope.




(** ** [invert] *)

Lemma Int_part_shift (r : R) (k : Z) :
  Int_part (r + IZR k) = (Int_part r + k)%Z.
Proof.
  symmetry. apply Int_part_spec.
  destruct (base_Int_part r) as [H1 H2].
  rewrite plus_IZR. lra.
Qed.

Lemma fmod_range (a : R) : 0 <= fmod a 360 < 360.
Proof.
  unfold fmod. destruct (base_Int_part (a / 360)) as [H1 H2].
  replace a with (a / 360 * 360) at 1 3 by field. lra.
Qed.

Lemma fmod_shift (a : R) (k : Z) : fmod (a + IZR k * 360) 360 = fmod a 360.
Proof.
  unfold fmod.
  replace ((a + IZR k * 360) / 360) with (a / 360 + IZR k) by field.
  rewrite Int_part_shift, plus_IZR. lra.
Qed.

Lemma fmod_small (a : R) : 0 <= a < 360 -> fmod a 360 = a.
Proof.
  intros Ha. unfold fmod.
  assert (H : 0%Z = Int_part (a / 360)).
  { apply Int_part_spec. lra. }
  rewrite <- H. lra.
Qed.




End GeometryFacts.

(** ** [invert] twice, with the rounding *)

Section RoundedFacts.
Local Open Scope R_scope.

Lemma Rabs_le_both (a b : R) : Rabs a <= b -> - b <= a <= b.
Proof. unfold Rabs. destruct (Rcase_abs a); lra. Qed.

Lemma trunc_remainder (x : R) :
  let m := x - IZR (trunc (x / 360)) * 360 in
  (0 <= x -> 0 <= m < 360) /\ (x < 0 -> -360 < m <= 0).
Proof.
  cbv zeta. unfold trunc. split; intros Hx.
  - destruct (Rle_dec 0 (x / 360)) as [_|Hq].
    + destruct (base_Int_part (x / 360)) as [H1 H2].
      replace x with (x / 360 * 360) at 1 3 by field. lra.
    + exfalso. apply Hq. apply Rmult_le_reg_r with 360; [lra|].
      replace (x / 360 * 360) with x by field. lra.
  - destruct (Rle_dec 0 (x / 360)) as [Hq|_].
    + exfalso. apply (Rmult_le_compat_r 360) in Hq; [|lra].
      replace (x / 360 * 360) with x in Hq by field. lra.
    + destruct (base_Int_part (- (x / 360))) as [H1 H2].
      rewrite opp_IZR.
      replace x with (x / 360 * 360) at 1 3 by field. lra.
Qed.

Lemma float_rem_spec (rnd : R -> R) (eps x : R) :
  0 <= eps <= 1 -> rounds_within eps rnd ->
  exists (k : Z) (d : R),
    float_rem rnd x 360 = x + 360 * IZR k + d /\
    Rabs d <= 360 * eps /\
    0 <= float_rem rnd x 360 <= 360 * (1 + eps).
Proof.
  intros Heps Hrnd. unfold float_rem.
  set (t := trunc (x / 360)). set (m := x - IZR t * 360).
  pose proof (trunc_remainder x) as [Hpos Hneg]. fold t m in Hpos, Hneg.
  assert (Hm : -360 < m < 360).
  { destruct (Rle_dec 0 x) as [H|H]; [specialize (Hpos H) | specialize (Hneg ltac:(lra))]; lra. }
  destruct (Req_dec_T m 0) as [E|E].
  - exists (- t)%Z, 0. rewrite opp_IZR, Rabs_R0. unfold m in E.
    split; [lra|]. split; nra.
  - destruct (Rlt_dec 360 0) as [?|_]; [lra|].
    destruct (Rlt_dec m 0) as [Hlt|Hge]; cbn [Bool.eqb negb].
    + pose proof (Hrnd (m + 360)) as Hr.
      rewrite (Rabs_right (m + 360)) in Hr by lra.
      exists (1 - t)%Z, (rnd (m + 360) - (m + 360)).
      rewrite minus_IZR. split; [unfold m; lra|].
      pose proof (Rabs_le_both _ _ Hr) as Hr'.
      split; [etrans; [exact Hr|]; nra|]. split; nra.
    + exists (- t)%Z, 0. rewrite opp_IZR, Rabs_R0.
      split; [unfold m; lra|]. split; nra.
Qed.

Lemma invert_rounded_atoms (rnd : R -> R) (b : Bond) :
  start_atom (invert_rounded rnd b) = end_atom b /\
  end_atom (invert_rounded rnd b) = start_atom b.
Proof. unfold invert_rounded. repeat case_decide; auto. Qed.

Lemma invert_rounded_angle (rnd : R -> R) (b : Bond) :
  angle (invert_rounded rnd b) = float_rem rnd (rnd (angle b + 180)) 360.
Proof. unfold invert_rounded. repeat case_decide; reflexivity. Qed.

(** With an exact addition, [float_rem] is the remainder in [0, 360) and
    [invert_rounded] is [invert]. *)
Lemma float_rem_exact (x : R) : float_rem (fun r => r) x 360 = fmod x 360.
Proof.
  unfold float_rem.
  set (t := trunc (x / 360)). set (m := x - IZR t * 360).
  pose proof (trunc_remainder x) as [Hpos Hneg]. fold t m in Hpos, Hneg.
  assert (Hm : -360 < m < 360).
  { destruct (Rle_dec 0 x) as [H|H]; [specialize (Hpos H) | specialize (Hneg ltac:(lra))]; lra. }
  assert (Hx : fmod x 360 = fmod (m + IZR t * 360) 360)
    by (f_equal; unfold m; lra).
  assert (Hx' : fmod x 360 = fmod (m + 360 + IZR (t - 1) * 360) 360)
    by (f_equal; rewrite minus_IZR; unfold m; lra).
  destruct (Req_dec_T m 0) as [E|E].
  - rewrite Hx, fmod_shift, fmod_small; lra.
  - destruct (Rlt_dec 360 0) as [?|_]; [lra|].
    destruct (Rlt_dec m 0) as [Hlt|Hge]; cbn [Bool.eqb negb].
    + rewrite Hx', fmod_shift, fmod_small; lra.
    + rewrite Hx, fmod_shift, fmod_small; lra.
Qed.

Lemma invert_rounded_exact (b : Bond) : invert_rounded (fun r => r) b = invert b.
Proof.
  unfold invert_rounded, invert. cbv zeta.
  rewrite float_rem_exact. reflexivity.
Qed.

(** C6, as the code has it: inverting twice gives back the start atom and
    the end atom exactly.  The angle comes back modulo 360 only up to the
    rounding of the float additions: for every rounding with a relative
    error of at most [eps] (2^-53 for the floats of the program, short of
    overflow), it differs from the original angle by a whole number of
    turns and an error of at most [eps * (|angle| + 1800)], and it lies in
    [0, 360 * (1 + eps)]. *)
Theorem invert_invert_rounded (rnd : R -> R) (eps : R) (b : Bond) :
  0 <= eps <= 1 -> rounds_within eps rnd ->
  let b2 := invert_rounded rnd (invert_rounded rnd b) in
  start_atom b2 = start_atom b /\
  end_atom b2 = end_atom b /\
  (exists k : Z,
     Rabs (angle b2 - (angle b + 360 * IZR k))
     <= eps * (Rabs (angle b) + 1800)) /\
  0 <= angle b2 <= 360 * (1 + eps).
Proof.
  intros Heps Hrnd b2.
  destruct (invert_rounded_atoms rnd (invert_rounded rnd b)) as [Hs He].
  destruct (invert_rounded_atoms rnd b) as [Hs' He'].
  split; [unfold b2; congruence|]. split; [unfold b2; congruence|].
  unfold b2. rewrite (invert_rounded_angle rnd (invert_rounded rnd b)).
  rewrite (invert_rounded_angle rnd b).
  set (a := angle b).
  set (a1 := rnd (a + 180)).
  destruct (float_rem_spec rnd eps a1 Heps Hrnd) as (k1 & d1 & E1 & Hd1 & Hr1).
  set (r1 := float_rem rnd a1 360) in *.
  set (a2 := rnd (r1 + 180)).
  destruct (float_rem_spec rnd eps a2 Heps Hrnd) as (k2 & d2 & E2 & Hd2 & Hr2).
  split; [|exact Hr2].
  exists (1 + k1 + k2)%Z. rewrite E2. rewrite !plus_IZR.
  pose proof (Hrnd (a + 180)) as H1. fold a1 in H1.
  pose proof (Hrnd (r1 + 180)) as H2. fold a2 in H2.
  assert (Ha : Rabs (a + 180) <= Rabs a + 180).
  { etrans; [apply Rabs_triang|]. rewrite (Rabs_right 180); lra. }
  rewrite (Rabs_right (r1 + 180)) in H2 by lra.
  replace (a2 + 360 * IZR k2 + d2 - (a + 360 * (1 + IZR k1 + IZR k2)))
    with ((a2 - (r1 + 180)) + (a1 - (a + 180)) + d1 + d2) by lra.
  pose proof (Rabs_pos a) as Hpa.
  etrans; [apply Rabs_triang|]. etrans; [apply Rplus_le_compat_r, Rabs_triang|].
  etrans; [apply Rplus_le_compat_r, Rplus_le_compat_r, Rabs_triang|].
  nra.
Qed.

(** A bond at the angle 0.1 and a rounding with the relative error
    2^-53. *)
Lemma invert_invert_rounded_witness :
  let rnd := fun x : R => x * (1 + 1 / 9007199254740992) in
  let b := mkBond 0 1 single 1 (1 / 10) 0 false false false ∅ ∅ "" in
  let b2 := invert_rounded rnd (invert_rounded rnd b) in
  start_atom b2 = start_atom b /\
  end_atom b2 = end_atom b /\
  (exists k : Z,
     Rabs (angle b2 - (angle b + 360 * IZR k))
     <= 1 / 9007199254740992 * (Rabs (angle b) + 1800)) /\
  0 <= angle b2 <= 360 * (1 + 1 / 9007199254740992).
Proof.
  intros rnd b.
  apply (invert_invert_rounded rnd (1 / 9007199254740992) b).
  - lra.
  - intros x. unfold rnd.
    replace (x * (1 + 1 / 9007199254740992) - x)
      with (1 / 9007199254740992 * x) by lra.
    rewrite Rabs_mult, (Rabs_right (1 / 9007199254740992)) by lra. lra.
Defined.

End RoundedFacts.

(** C6, counterexample: on the floats of the program, the angle 0.1 (the
    float nearest to it), already in [0, 360), comes back from two
    inversions as 0.10000000000002274. *)
Lemma invert_twice_not_exact :
  Binary64.rem Binary64.tenth Binary64.full_turn = Binary64.tenth /\
  Binary64.invert_angle (Binary64.invert_angle Binary64.tenth)
  = Binary64.tenth_and_a_bit /\
  Binary64.tenth_and_a_bit <> Binary64.tenth.
Proof.
  split; [vm_compute; reflexivity|]. split; [vm_compute; reflexivity|].
  intros H.
  apply (f_equal (fun x => PrimFloat.eqb x Binary64.tenth)) in H.
  vm_compute in H. discriminate.
Qed.

(** ** [set_cross] and its neighbourhood queries *)

Section CrossFacts.
Local Open Scope R_scope.

Lemma py_round_IZR (z : Z) : py_round (IZR z) = z.
Proof.
  unfold py_round.
  assert (H : z = Int_part (IZR z)) by (apply Int_part_spec; lra).
  rewrite <- H. destruct (Rlt_dec (IZR z - IZR z) (1 / 2)); [reflexivity | lra].
Qed.


Lemma merge_sort_cons_head_last (a : Z) (l : list Z) :
  exists f g, head (merge_sort Z.le (a :: l)) = Some f /\
              last (merge_sort Z.le (a :: l)) = Some g.
Proof.
  pose proof (merge_sort_Permutation Z.le (a :: l)) as HP.
  apply Permutation_length in HP.
  destruct (merge_sort Z.le (a :: l)) as [|f s] eqn:E; [discriminate|].
  exists f. destruct (last (f :: s)) as [g|] eqn:El.
  - exists g. auto.
  - apply last_None in El. discriminate.
Qed.

Lemma adjoining_unfold (b : Bond) (atom : Atom) (inv : R) :
  _adjoining_angles b atom inv =
  match list_remove (reference_angle b inv) (rounded_angles atom) with
  | Raise e => Raise e
  | Ok [] => Ok (None, None)
  | Ok (a :: l) =>
      let angles := merge_sort Z.le
        (map (fun a => ((a - reference_angle b inv) mod 360)%Z) (a :: l)) in
      Ok (head angles, last angles)
  end.
Proof.
  unfold _adjoining_angles, rounded_angles, reference_angle.
  destruct (list_remove _ _) as [[|a l]|e]; reflexivity.
Qed.



Lemma no_other_not_has_other (b : Bond) (atom : Atom) (inv : R) :
  no_other_bond b atom inv -> ~ has_other_bond b atom inv.
Proof.
  intros H (a & l & Hl). rewrite H in Hl. cbn in Hl.
  case_decide; [discriminate | congruence].
Qed.






End CrossFacts.

Section CrossClaim.
Local Open Scope R_scope.





End CrossClaim.

(** ** Fragments and their links *)

Section FragmentFacts.

Lemma atoms_of_nil : atoms_of [] = ∅.
Proof. reflexivity. Qed.

Lemma atoms_of_cons p ps : atoms_of (p :: ps) = pair_atoms p ∪ atoms_of ps.
Proof. reflexivity. Qed.

Lemma atoms_of_app ps qs : atoms_of (ps ++ qs) = atoms_of ps ∪ atoms_of qs.
Proof.
  induction ps as [|p ps IH]; [rewrite atoms_of_nil; set_solver|].
  cbn [app]. rewrite !atoms_of_cons, IH. set_solver.
Qed.

Lemma elem_of_atoms_of a ps :
  a ∈ atoms_of ps <-> exists p, p ∈ ps /\ (a = p.1 \/ a = p.2).
Proof.
  induction ps as [|q ps IH].
  - rewrite atoms_of_nil. split; [set_solver|]. intros (p & Hp & _).
    inversion Hp.
  - rewrite atoms_of_cons, elem_of_union, IH. unfold pair_atoms. split.
    + intros [H|(p & Hp & H)].
      * exists q. split; [left|]. set_solver.
      * exists p. split; [now right | assumption].
    + intros (p & Hp & H). apply elem_of_cons in Hp as [->|Hp].
      * left. set_solver.
      * right. eauto.
Qed.

Lemma atoms_of_perm ps qs : ps ≡ₚ qs -> atoms_of ps = atoms_of qs.
Proof.
  intros HP. apply set_eq. intros a. rewrite !elem_of_atoms_of.
  split; intros (p & Hp & H); exists p; split; auto.
  - now rewrite <- HP.
  - now rewrite HP.
Qed.

Lemma edge_sym ps a b : edge ps a b -> edge ps b a.
Proof. unfold edge. tauto. Qed.

Lemma edge_mono ps qs a b : ps ⊆ qs -> edge ps a b -> edge qs a b.
Proof. unfold edge. intros Hs [H|H]; [left|right]; auto. Qed.

Lemma rtc_edge_sym ps a b : rtc (edge ps) a b -> rtc (edge ps) b a.
Proof.
  induction 1 as [|a c b Hac _ IH]; [constructor|].
  eapply rtc_r; [exact IH | now apply edge_sym].
Qed.

Lemma rtc_edge_mono ps qs a b :
  ps ⊆ qs -> rtc (edge ps) a b -> rtc (edge qs) a b.
Proof.
  intros Hs. apply rtc_subrel. intros x y. now apply edge_mono.
Qed.

Lemma split_inv_step x0 ca cp r :
  split_inv x0 ca cp -> ca ∩ pair_atoms r ≠ ∅ ->
  split_inv x0 (ca ∪ pair_atoms r) (cp ++ [r]).
Proof.
  intros [Hca Hconn] Hne. split.
  - rewrite atoms_of_app, atoms_of_cons, atoms_of_nil, Hca. set_solver.
  - assert (Hsub : cp ⊆ cp ++ [r]) by set_solver.
    assert (Hc : exists c, c ∈ ca /\ (c = r.1 \/ c = r.2)).
    { apply set_choose_L in Hne as [c Hc]. exists c.
      unfold pair_atoms in Hc. set_solver. }
    destruct Hc as (c & Hcin & Hc).
    assert (Hr : edge (cp ++ [r]) r.1 r.2).
    { left. destruct r. cbn. set_solver. }
    intros a [Ha|Ha]%elem_of_union.
    + eapply rtc_edge_mono; eauto.
    + assert (Hx : rtc (edge (cp ++ [r])) x0 c)
        by (eapply rtc_edge_mono; eauto).
      assert (Ha' : a = r.1 \/ a = r.2) by (unfold pair_atoms in Ha; set_solver).
      destruct Hc as [->| ->], Ha' as [->| ->]; auto.
      * eapply rtc_r; eauto.
      * eapply rtc_r; [exact Hx | now apply edge_sym].
Qed.

Lemma split_pass_inv x0 rest : forall ca cp un ca' cp' un',
  split_pass rest ca cp un = (ca', cp', un') ->
  split_inv x0 ca cp -> split_inv x0 ca' cp'.
Proof.
  induction rest as [|r rest IH]; cbn; intros ca cp un ca' cp' un' H Hinv.
  - congruence.
  - case_decide as Hd.
    + eapply IH; [exact H|]. now apply split_inv_step.
    + eapply IH; eauto.
Qed.

Lemma split_pass_perm rest : forall ca cp un ca' cp' un',
  split_pass rest ca cp un = (ca', cp', un') ->
  cp' ++ un' ≡ₚ cp ++ un ++ rest /\
  (exists t, cp' = cp ++ t) /\
  (length un' <= length un + length rest)%nat.
Proof.
  induction rest as [|r rest IH]; cbn; intros ca cp un ca' cp' un' H.
  - injection H as <- <- <-. rewrite app_nil_r. split; [done|].
    split; [exists []; now rewrite app_nil_r | lia].
  - case_decide as Hd; apply IH in H as (HP & (t & Ht) & Hl).
    + split; [|split].
      * rewrite HP. rewrite <- !app_assoc. cbn.
        apply Permutation_app_head. apply Permutation_middle.
      * exists (r :: t). now rewrite Ht, <- app_assoc.
      * lia.
    + split; [|split].
      * rewrite HP. now rewrite <- !app_assoc.
      * eauto.
      * rewrite length_app in Hl. cbn in Hl. lia.
Qed.

Lemma split_pass_stable rest : forall ca cp un ca' cp' un',
  split_pass rest ca cp un = (ca', cp', un') ->
  length un' = (length un + length rest)%nat ->
  ca' = ca /\ cp' = cp /\ un' = un ++ rest /\
  forall r, r ∈ rest -> ca ∩ pair_atoms r = ∅.
Proof.
  induction rest as [|r rest IH]; cbn; intros ca cp un ca' cp' un' H Hl.
  - injection H as <- <- <-. rewrite app_nil_r.
    repeat split; auto. intros r Hr. inversion Hr.
  - case_decide as Hd.
    + apply split_pass_perm in H as (_ & _ & Hle). lia.
    + apply IH in H as (-> & -> & -> & Hall).
      * split; [done|]. split; [done|]. split; [now rewrite <- app_assoc|].
        intros q [->|Hq]%elem_of_cons; auto.
      * rewrite length_app. cbn. lia.
Qed.

Lemma split_loop_spec x0 : forall fuel rest ca cp,
  (length rest < fuel)%nat -> split_inv x0 ca cp ->
  exists conn unconn,
    split_loop fuel rest ca cp = Ok (conn, unconn) /\
    conn ++ unconn ≡ₚ cp ++ rest /\
    (exists t, conn = cp ++ t) /\
    split_inv x0 (atoms_of conn) conn /\
    atoms_of conn ## atoms_of unconn.
Proof.
  induction fuel as [|fuel IH]; intros rest ca cp Hf Hinv; [lia|].
  cbn [split_loop].
  destruct (split_pass rest ca cp []) as [[ca' cp'] un'] eqn:E.
  pose proof (split_pass_inv x0 _ _ _ _ _ _ _ E Hinv) as Hinv'.
  pose proof (split_pass_perm _ _ _ _ _ _ _ E) as (HP & (t & Ht) & Hl).
  cbn in HP, Hl.
  case_decide as Hd.
  - destruct (split_pass_stable _ _ _ _ _ _ _ E) as (-> & -> & -> & Hall);
      [cbn; lia|]. cbn.
    exists cp, rest. split; [done|]. split; [done|].
    split; [exists []; now rewrite app_nil_r|].
    destruct Hinv as [Hca Hconn].
    split; [split; [done | rewrite <- Hca; exact Hconn]|].
    rewrite <- Hca. intros a Ha (p & Hp & Hap)%elem_of_atoms_of.
    specialize (Hall p Hp). unfold pair_atoms in Hall. set_solver.
  - destruct (IH un' ca' cp') as (conn & unconn & Hs & HP' & (t' & Ht') & Hi & Hdis);
      [lia | exact Hinv' |].
    exists conn, unconn. split; [exact Hs|]. split; [|split; [|done]].
    + now rewrite HP', HP.
    + exists (t ++ t'). now rewrite Ht', Ht, <- app_assoc.
Qed.

Lemma split_pairs_spec first rest :
  exists conn unconn,
    split_pairs (first :: rest) = Ok (conn, unconn) /\
    conn ++ unconn ≡ₚ first :: rest /\
    connected_fragment conn /\
    atoms_of conn ## atoms_of unconn.
Proof.
  assert (Hinv : split_inv first.1 (pair_atoms first) [first]).
  { split.
    - rewrite atoms_of_cons, atoms_of_nil. set_solver.
    - intros a Ha.
      assert (Ha' : a = first.1 \/ a = first.2)
        by (unfold pair_atoms in Ha; set_solver).
      destruct Ha' as [->| ->]; [constructor|].
      apply rtc_once. left. destruct first. cbn. set_solver. }
  destruct (split_loop_spec first.1 (S (length rest)) rest _ _
              (Nat.lt_succ_diag_r _) Hinv)
    as (conn & unconn & Hs & HP & (t & Ht) & [_ Hconn] & Hdis).
  exists conn, unconn. split; [exact Hs|]. split; [exact HP|].
  split; [|exact Hdis]. split; [now rewrite Ht|].
  intros a b Ha Hb. etrans; [apply rtc_edge_sym|]; eauto.
Qed.

Lemma atoms_of_concat_elem g fs : g ∈ fs -> atoms_of g ⊆ atoms_of (concat fs).
Proof.
  intros Hg a (p & Hp & Ha)%elem_of_atoms_of. apply elem_of_atoms_of.
  exists p. split; [|exact Ha]. apply list_elem_of_In, in_concat.
  exists g. split; now apply list_elem_of_In.
Qed.

Lemma fragments_loop_spec : forall fuel pairs frags,
  pairs <> [] -> (length pairs <= fuel)%nat ->
  exists new,
    fragments_loop fuel pairs frags = Ok (frags ++ new) /\
    new <> [] /\ fragments_of pairs new.
Proof.
  induction fuel as [|fuel IH]; intros pairs frags Hne Hf.
  - destruct pairs; [done | cbn in Hf; lia].
  - destruct pairs as [|first rest]; [done|]. cbn [fragments_loop].
    destruct (split_pairs_spec first rest)
      as (conn & unconn & -> & HP & Hconn & Hdis).
    cbn.
    assert (Hlen : (length conn + length unconn = S (length rest))%nat).
    { apply Permutation_length in HP. rewrite length_app in HP. exact HP. }
    assert (Hc : (0 < length conn)%nat).
    { destruct Hconn as [Hc _]. destruct conn; [done | cbn; lia]. }
    destruct unconn as [|u unconn].
    + exists [conn]. split; [done|]. split; [done|].
      split; [|split].
      * cbn. now rewrite app_nil_r in *.
      * now constructor.
      * cbn. split; [|done]. intros g Hg. inversion Hg.
    + destruct (IH (u :: unconn) (frags ++ [conn])) as (new & -> & _ & HP' & Hall & Hd);
        [done | cbn in *; lia |].
      exists (conn :: new). split; [now rewrite <- app_assoc|].
      split; [done|]. split; [|split].
      * cbn. now rewrite HP'.
      * now constructor.
      * cbn. split; [|exact Hd]. intros g Hg.
        pose proof (atoms_of_concat_elem _ _ Hg) as Hsub.
        rewrite (atoms_of_perm _ _ HP') in Hsub. set_solver.
Qed.

Lemma molecule_fragments_spec (m : Molecule) :
  exists fs, molecule_fragments m = Ok fs /\ fragments_of (atom_pairs m) fs /\
    (fs = [] <-> atom_pairs m = []).
Proof.
  unfold molecule_fragments.
  destruct (atom_pairs m) as [|p [|q rest]] eqn:E.
  - exists []. split; [done|]. split; [|done].
    split; [done|]. split; [constructor | exact I].
  - exists [[p]]. split; [done|]. split; [|done]. split; [|split].
    + done.
    + constructor; [|constructor]. split; [done|].
      intros a b Ha Hb.
      rewrite atoms_of_cons, atoms_of_nil in Ha, Hb.
      assert (Ha' : a = p.1 \/ a = p.2) by (unfold pair_atoms in Ha; set_solver).
      assert (Hb' : b = p.1 \/ b = p.2) by (unfold pair_atoms in Hb; set_solver).
      assert (He : edge [p] p.1 p.2) by (left; destruct p; cbn; set_solver).
      destruct Ha' as [->| ->], Hb' as [->| ->]; try constructor.
      * now apply rtc_once.
      * apply rtc_once. now apply edge_sym.
    + cbn. split; [|done]. intros g Hg. inversion Hg.
  - destruct (fragments_loop_spec (length (p :: q :: rest)) (p :: q :: rest) [])
      as (new & Hs & Hne & Hof); [done | lia |].
    exists new. split; [exact Hs|]. split; [exact Hof|]. split; done.
Qed.

(** *** What one [link_atoms] does *)












(** *** The calls made by [connect_fragments] *)








Lemma pair_in_atoms_of p ps :
  p ∈ ps -> p.1 ∈ atoms_of ps /\ p.2 ∈ atoms_of ps.
Proof. intros H. split; apply elem_of_atoms_of; eauto. Qed.









End FragmentFacts.

(** ** Construction up to the choice of the entry and exit atoms *)

Section PrepareFacts.






(** Under [strict], the first atom whose hydrogen count the toolkit
    refuses ends [parseAtoms]. *)
Lemma parseAtoms_strict (opts : Options) (tkmol : TkMol) :
  strict opts = true ->
  Exists (fun ra => countImplicitHydrogens ra = None) (tk_atoms tkmol) ->
  parseAtoms opts tkmol = Raise IndigoException.
Proof.
  intros Hs. unfold parseAtoms. generalize (∅ : gmap Z Atom, [] : list Z).
  induction (tk_atoms tkmol) as [|ra l IH]; intros acc Hex; [inversion Hex|].
  cbn [foldM]. unfold wrap_atom, implicit_hydrogens.
  destruct (countImplicitHydrogens ra) as [h|] eqn:Eh.
  - cbn [mbind result_bind]. apply IH.
    inversion Hex as [? ? H|? ? H]; subst; [congruence | exact H].
  - now rewrite Hs.
Qed.













End PrepareFacts.

Section EntryExitFacts.

Variable num_round : R -> Z -> R.
Variable most_common : list R -> R.
Variable score_angles : Atom -> Atom.
Variable render : Molecule -> result (list string).





End EntryExitFacts.


(** C9, counterexamples.  On the molecule without atoms (N = 0), with no
    entry atom chosen and the exit atom number 1, the construction ends
    with an [IndexError] from the default choice of the entry atom, not
    with an [MCFError].  On the three atoms with the indices 0, 1 and 5
    (N = 3) the entry atom number 6, outside 1..3, is accepted: it names
    the atom of index 5, and the construction returns.  Under the option
    [strict], an atom whose hydrogens the toolkit does not count ends the
    construction with the toolkit's exception before the entry atom number
    3 of a molecule of two atoms is looked at. *)
Lemma invalid_number_not_always_fatal :
  (invalid_atom_number
     (opt_exit_atom (with_entry_exit None (Some 1%Z) plain_options)) 0 /\
   Molecule_init num_round_id most_common_one score_angles_id render_nothing
     (with_entry_exit None (Some 1%Z) plain_options) empty_mol
   = Raise IndexError) /\
  (invalid_atom_number
     (opt_entry_atom (with_entry_exit (Some 6%Z) None plain_options))
     (Z.of_nat (length (tk_atoms gapped))) /\
   is_ok (Molecule_init num_round_id most_common_one score_angles_id
            render_nothing (with_entry_exit (Some 6%Z) None plain_options)
            gapped)) /\
  (invalid_atom_number
     (opt_entry_atom (with_entry_exit (Some 3%Z) None strict_options))
     (Z.of_nat (length (tk_atoms uncounted))) /\
   Molecule_init num_round_id most_common_one score_angles_id render_nothing
     (with_entry_exit (Some 3%Z) None strict_options) uncounted
   = Raise IndigoException).
Proof.
  split; [|split].
  - split; [exists 1%Z; split; [reflexivity | lia] | vm_compute; reflexivity].
  - split; [exists 6%Z; split; [reflexivity | cbn; lia] | vm_compute; exact I].
  - split; [exists 3%Z; split; [reflexivity | cbn; lia] | vm_compute; reflexivity].
Qed.

(** ** The spanning tree *)

Section TreeFacts.

Lemma tree_ind' (P : tree -> Prop) :
  (forall r ts, Forall P ts -> P (Node r ts)) -> forall t, P t.
Proof.
  intros H. fix IH 1. intros [r ts]. apply H.
  induction ts as [|t ts IHts]; constructor; [apply IH | exact IHts].
Qed.

Lemma repr_inv h r ts :
  repr h (Node r ts) ->
  exists n, h !! r = Some n /\ descendants n = map root_ref ts /\
            Forall (repr h) ts.
Proof. inversion 1; subst; eauto. Qed.

Lemma depth_children_le r ts t :
  t ∈ ts -> (depth t < depth (Node r ts))%nat.
Proof.
  cbn [depth]. induction ts as [|t' ts IH]; intros Hin; [inversion Hin|].
  apply elem_of_cons in Hin as [->|Hin]; cbn; [lia|].
  specialize (IH Hin). lia.
Qed.

(** [recurse] lists a held tree in preorder, given fuel for its depth. *)
Lemma recurse_repr (m : Molecule) : forall fuel t acc,
  repr (heap m) t -> (depth t <= fuel)%nat ->
  recurse fuel m (root_ref t) acc = Ok (acc ++ flatten t).
Proof.
  induction fuel as [|fuel IH]; intros [r ts] acc Hr Hd.
  - cbn in Hd. lia.
  - apply repr_inv in Hr as (n & Hn & Hdesc & Hall).
    cbn [recurse root_ref]. unfold get_node. rewrite Hn.
    cbn [mbind result_bind]. rewrite Hdesc. cbn [flatten].
    assert (Hgen : forall ts' acc',
      Forall (repr (heap m)) ts' ->
      (forall t, t ∈ ts' -> (depth t <= fuel)%nat) ->
      foldM (recurse fuel m) (map root_ref ts') acc'
      = Ok (acc' ++ concat (map flatten ts'))).
    { induction ts' as [|t ts' IHts]; intros acc' Hall' Hdep; cbn.
      - now rewrite app_nil_r.
      - inversion Hall'; subst.
        rewrite IH; [|assumption|apply Hdep; left]. cbn.
        rewrite IHts; [|assumption|intros t' Ht'; apply Hdep; now right].
        now rewrite <- app_assoc. }
    rewrite Hgen; [|exact Hall|].
    + now rewrite <- app_assoc.
    + intros t Ht. pose proof (depth_children_le r ts t Ht). lia.
Qed.

Lemma depth_le_length t : (depth t <= length (flatten t))%nat.
Proof.
  induction t as [r ts IH] using tree_ind'. cbn [depth flatten length].
  apply le_n_S. induction ts as [|t ts IHts]; cbn; [lia|].
  inversion IH; subst. rewrite length_app. specialize (IHts H2). lia.
Qed.

(** *** What the tree reads of the store *)

Lemma hv_lookup h h' r n :
  hv h' r = hv h r -> h !! r = Some n ->
  exists n', h' !! r = Some n' /\ obj_of n' = obj_of n /\
             descendants n' = descendants n.
Proof.
  unfold hv. intros H Hn. rewrite Hn in H. cbn in H.
  destruct (h' !! r) as [n'|]; [|discriminate].
  cbn in H. injection H as H1 H2. eauto.
Qed.

Lemma hv_tree_end m m' r :
  hv (heap m') r = hv (heap m) r -> tree_end m' r = tree_end m r.
Proof.
  unfold hv, tree_end, node_end_atom. intros H.
  destruct (heap m' !! r) as [n'|], (heap m !! r) as [n|]; cbn in *;
    try discriminate; [|reflexivity].
  injection H as H1 _. now rewrite H1.
Qed.

Lemma hv_tree_phantom m m' r :
  hv (heap m') r = hv (heap m) r -> tree_phantom m' r = tree_phantom m r.
Proof.
  unfold hv, tree_phantom, node_to_phantom. intros H.
  destruct (heap m' !! r) as [n'|], (heap m !! r) as [n|]; cbn in *;
    try discriminate; [|reflexivity].
  injection H as H1 _. now rewrite H1.
Qed.

Lemma hv_tree_leaf m m' r :
  hv (heap m') r = hv (heap m) r -> tree_leaf m r -> tree_leaf m' r.
Proof.
  intros H (n & Hn & Hd).
  destruct (hv_lookup _ _ _ _ H Hn) as (n' & Hn' & _ & Hd').
  exists n'. split; [exact Hn' | congruence].
Qed.

Lemma hv_alter_ne (h : gmap ref node) f r r' :
  r <> r' -> hv (alter f r h) r' = hv h r'.
Proof. intros H. unfold hv. now rewrite lookup_alter_ne. Qed.

Lemma hv_alter_view (h : gmap ref node) f r r' :
  (forall n, obj_of (f n) = obj_of n /\ descendants (f n) = descendants n) ->
  hv (alter f r h) r' = hv h r'.
Proof.
  intros Hf. unfold hv. rewrite lookup_alter. case_decide; [subst r'|done].
  destruct (h !! r) as [n|]; cbn; [|done].
  destruct (Hf n) as [-> ->]. done.
Qed.

Lemma shape_alter (h : gmap ref node) f r r' :
  (forall n, shape (f n) = shape n) ->
  shape <$> alter f r h !! r' = shape <$> h !! r'.
Proof.
  intros Hf. rewrite lookup_alter. case_decide; [subst r'|done].
  destruct (h !! r) as [n|]; cbn; [|done]. now rewrite Hf.
Qed.

Lemma shape_map_bond f n :
  (forall b, end_atom (f b) = end_atom b) -> shape (map_bond f n) = shape n.
Proof.
  intros Hf. unfold shape, map_bond, node_end_atom.
  destruct n as [[b| |] p d]; cbn; [|done|done]. now rewrite Hf.
Qed.

Lemma repr_frame h h' t :
  repr h t -> (forall r, r ∈ flatten t -> hv h' r = hv h r) -> repr h' t.
Proof.
  induction t as [r ts IH] using tree_ind'. intros Hr Hf.
  apply repr_inv in Hr as (n & Hn & Hd & Hall).
  destruct (hv_lookup h h' r n) as (n' & Hn' & _ & Hd');
    [apply Hf; cbn; left | exact Hn |].
  apply (repr_node h' r ts n'); [exact Hn' | congruence |].
  rewrite Forall_forall in *. intros t Ht. apply IH; [exact Ht | auto |].
  intros r' Hr'. apply Hf. cbn. right.
  apply list_elem_of_In, in_concat. exists (flatten t).
  split; [apply in_map; now apply list_elem_of_In | now apply list_elem_of_In].
Qed.

Lemma ends_frame m m' L :
  (forall r, r ∈ L -> hv (heap m') r = hv (heap m) r) -> ends m' L = ends m L.
Proof.
  unfold ends. induction L as [|r L IH]; intros H; [reflexivity|]. cbn.
  rewrite (hv_tree_phantom m m' r), (hv_tree_end m m' r) by (apply H; left).
  rewrite IH; [reflexivity|]. intros r' Hr'. apply H. now right.
Qed.

Lemma ends_app m L1 L2 : ends m (L1 ++ L2) = ends m L1 ++ ends m L2.
Proof. unfold ends. apply omap_app. Qed.

(** *** Stretches of the traversal *)

Lemma nb_atoms m m' a b : atoms m' = atoms m -> nb m' a b <-> nb m a b.
Proof. unfold nb. now intros ->. Qed.

Lemma stepx_refl x m : stepx x m m.
Proof. split; auto. intros a ni H1 H2. contradiction. Qed.

Lemma new_key_trans_l m m' m'' r :
  seen_bonds m' ⊆ seen_bonds m'' -> new_key m m' r -> new_key m m'' r.
Proof. intros Hs (s & e & -> & H1 & H2). exists s, e. set_solver. Qed.

Lemma new_key_trans_r m m' m'' r :
  seen_bonds m ⊆ seen_bonds m' -> new_key m' m'' r -> new_key m m'' r.
Proof. intros Hs (s & e & -> & H1 & H2). exists s, e. set_solver. Qed.

Lemma stepx_trans x m m' m'' : stepx x m m' -> stepx x m' m'' -> stepx x m m''.
Proof.
  intros [Ha He HA HB Hf Hs Hc] [Ha' He' HA' HB' Hf' Hs' Hc'].
  split.
  - congruence.
  - congruence.
  - etrans; eassumption.
  - etrans; eassumption.
  - intros r Hx Hn. rewrite Hf', Hf; auto.
    + intros H. apply Hn. eapply new_key_trans_l; eauto.
    + intros H. apply Hn. eapply new_key_trans_r; eauto.
  - intros r. now rewrite Hs', Hs.
  - intros a ni H1 H2 Hnb.
    destruct (decide (a ∈ seen_atoms m')) as [Hin|Hout].
    + apply HA'. eapply Hc; eauto.
    + eapply Hc'; eauto. now apply (nb_atoms m m').
Qed.

Lemma stepx_weaken x m m' : stepx None m m' -> stepx x m m'.
Proof. intros [Ha He HA HB Hf Hs Hc]. split; auto. Qed.

Lemma wf_graph_step x m m' : wf_graph m -> stepx x m m' -> wf_graph m'.
Proof.
  intros HW [Ha He HA HB Hf Hs Hc] a A ni HA' Hni.
  rewrite Ha in *. rewrite Hs. eapply HW; eauto.
Qed.

Lemma settled_not_new m m' r : settled m r -> ~ new_key m m' r.
Proof.
  intros [->|(s & e & -> & Hin)] (s' & e' & Heq & _ & Hout);
    [discriminate|]. injection Heq as <- <-. contradiction.
Qed.

Lemma settled_mono m m' r :
  seen_bonds m ⊆ seen_bonds m' -> settled m r -> settled m' r.
Proof. intros Hs [->|(s & e & -> & Hin)]; [now left|right]. eauto. Qed.

Lemma new_key_settled m m' r : new_key m m' r -> settled m' r.
Proof. intros (s & e & -> & Hin & _). right. eauto. Qed.

Lemma built_refs_nil m : built_refs m m [].
Proof.
  unfold built_refs, ends. cbn. split; [intros r Hr; inversion Hr|].
  split; [constructor|]. split; [constructor|].
  split; [|intros r Hr; inversion Hr].
  intros a. split; [intros Ha; inversion Ha | tauto].
Qed.

Lemma built_refs_app x m m1 m2 L1 L2 :
  built_refs m m1 L1 -> built_refs m1 m2 L2 ->
  stepx x m m1 -> stepx x m1 m2 ->
  (forall r, r ∈ L1 -> Some r <> x) ->
  built_refs m m2 (L1 ++ L2).
Proof.
  intros (Hk1 & Hnd1 & Hne1 & He1 & Hp1) (Hk2 & Hnd2 & Hne2 & He2 & Hp2)
    S1 S2 Hx.
  assert (Hfr : forall r, r ∈ L1 -> hv (heap m2) r = hv (heap m1) r).
  { intros r Hr. apply (step_frame _ _ _ S2); [now apply Hx|].
    apply settled_not_new. eapply new_key_settled. now apply Hk1. }
  pose proof (step_A _ _ _ S1) as HA1. pose proof (step_A _ _ _ S2) as HA2.
  pose proof (step_B _ _ _ S1) as HB1. pose proof (step_B _ _ _ S2) as HB2.
  assert (Hends : ends m2 (L1 ++ L2) = ends m1 L1 ++ ends m2 L2)
    by (rewrite ends_app, (ends_frame m1 m2 L1 Hfr); reflexivity).
  split; [|split; [|split; [|split]]].
  - intros r [Hr|Hr]%elem_of_app.
    + eapply new_key_trans_l; eauto.
    + eapply new_key_trans_r; eauto.
  - apply NoDup_app. split; [exact Hnd1|]. split; [|exact Hnd2].
    intros r Hr1 Hr2. apply (settled_not_new m1 m2 r); [|now apply Hk2].
    eapply new_key_settled. now apply Hk1.
  - rewrite Hends. apply NoDup_app. split; [exact Hne1|]. split; [|exact Hne2].
    intros a Ha1 Ha2. apply He1 in Ha1. apply He2 in Ha2. tauto.
  - intros a. rewrite Hends, elem_of_app, He1, He2. split.
    + intros [[H1 H2]|[H1 H2]]; set_solver.
    + intros [H1 H2]. destruct (decide (a ∈ seen_atoms m1)); auto.
  - intros r [Hr|Hr]%elem_of_app Hph.
    + rewrite (hv_tree_phantom m1 m2 r (Hfr r Hr)) in Hph.
      apply (hv_tree_leaf m1 m2 r (Hfr r Hr)). now apply Hp1.
    + now apply Hp2.
Qed.

(** *** Hanging a subtree under its bond *)

Lemma attach_spec (bond r : ref) (m : Molecule) (n : node) :
  inv m -> settled m bond -> settled m r -> bond <> r ->
  heap m !! bond = Some n ->
  stepx (Some bond) m (attach bond r m) /\ inv (attach bond r m) /\
  exists n', heap (attach bond r m) !! bond = Some n' /\
             obj_of n' = obj_of n /\ descendants n' = descendants n ++ [r].
Proof.
  intros [IB IP IA IS] Hsb Hsr Hne Hn. unfold attach, update_node. cbn.
  split; [|split].
  - split; cbn; auto.
    + intros r' Hr' _. rewrite hv_alter_ne by congruence.
      now apply hv_alter_view.
    + intros r'. rewrite !shape_alter; [reflexivity|intros []; reflexivity..].
    + intros a ni H1 H2. contradiction.
  - split; cbn; auto;
      [|intros s e Hin; rewrite !shape_alter;
        [now apply IS | intros []; reflexivity..]].
    intros s e n0 Hout Hk.
    assert (Hb : bond <> Key s e).
    { intros ->. apply (settled_not_new m m (Key s e) Hsb).
      exists s, e. split; [done|]. split; [|done].
      destruct Hsb as [?|(s' & e' & [= <- <-] & ?)]; [discriminate | done]. }
    assert (Hr : r <> Key s e).
    { intros ->. destruct Hsr as [?|(s' & e' & [= <- <-] & ?)];
        [discriminate | contradiction]. }
    rewrite !lookup_alter_ne in Hk by done. eapply IP; eauto.
  - rewrite lookup_alter_eq, lookup_alter_ne, Hn by congruence. cbn.
    eexists. split; [reflexivity|]. cbn. auto.
Qed.

Lemma built_refs_same_seen m m1 m2 L :
  built_refs m m1 L -> seen_atoms m2 = seen_atoms m1 ->
  seen_bonds m2 = seen_bonds m1 ->
  (forall r, r ∈ L -> hv (heap m2) r = hv (heap m1) r) ->
  built_refs m m2 L.
Proof.
  intros (Hk & Hnd & Hne & He & Hp) HA HB Hfr.
  unfold built_refs. rewrite (ends_frame m1 m2 L Hfr), HA.
  split; [|split; [done|split; [done|split; [done|]]]].
  - intros r Hr. destruct (Hk r Hr) as (s & e & -> & H1 & H2).
    exists s, e. now rewrite HB.
  - intros r Hr Hph. rewrite (hv_tree_phantom m1 m2 r (Hfr r Hr)) in Hph.
    apply (hv_tree_leaf m1 m2 r (Hfr r Hr)). now apply Hp.
Qed.

Lemma unseen_size_mono m m' :
  atoms m' = atoms m -> seen_atoms m ⊆ seen_atoms m' ->
  (size (dom (atoms m') ∖ seen_atoms m') <= size (dom (atoms m) ∖ seen_atoms m))%nat.
Proof. intros -> Hs. apply subseteq_size. set_solver. Qed.

Lemma flatten_root t : root_ref t ∈ flatten t.
Proof. destruct t. cbn. left. Qed.

Lemma loop_spec rec f (Hrec : call_spec rec f) (start : option Z) (e : Z)
    (bond : ref) : forall nis m n,
  wf_graph m -> inv m -> e ∈ seen_atoms m ->
  (forall ni, ni ∈ nis -> nb m e ni) ->
  (size (dom (atoms m) ∖ seen_atoms m) < f)%nat ->
  settled m bond ->
  (forall s, start = Some s -> s ∈ seen_atoms m) ->
  heap m !! bond = Some n ->
  exists m' ts n',
    foldM (visit_neighbor rec start e bond) nis m = Ok m' /\
    stepx (Some bond) m m' /\ inv m' /\
    (forall ni, ni ∈ nis -> ni ∈ seen_atoms m') /\
    Forall (repr (heap m')) ts /\
    built_refs m m' (concat (map flatten ts)) /\
    heap m' !! bond = Some n' /\ obj_of n' = obj_of n /\
    descendants n' = descendants n ++ map root_ref ts.
Proof.
  induction nis as [|ni nis IH]; intros m n HW HI He Hnb Hsz Hset Hst Hn.
  - exists m, [], n. cbn. split; [done|]. split; [apply stepx_refl|].
    split; [done|]. split; [intros ni Hni; inversion Hni|].
    split; [constructor|]. split; [apply built_refs_nil|].
    now rewrite app_nil_r.
  - assert (Hnb' : forall ni', ni' ∈ nis -> nb m e ni')
      by (intros ni' H; apply Hnb; now right).
    cbn [foldM]. set (rest := foldM (visit_neighbor rec start e bond) nis).
    unfold visit_neighbor.
    destruct (decide (start = Some ni)) as [Hskip|Hskip].
    { (* the atom we came from *)
      cbn [mbind result_bind].
      destruct (IH m n HW HI He Hnb' Hsz Hset Hst Hn)
        as (m' & ts & n' & Hrun & HS & HI' & Hseen & Hrep & Hb & Hn' & Ho & Hd).
      exists m', ts, n'. split; [exact Hrun|]. split; [exact HS|].
      split; [exact HI'|]. split; [|auto].
      intros ni' [->|H]%elem_of_cons; [|auto].
      apply (step_A _ _ _ HS). now apply Hst. }
    assert (Hnbi : nb m e ni) by (apply Hnb; left).
    assert (Hdom : ni ∈ dom (atoms m)).
    { unfold nb in Hnbi. destruct (atoms m !! e) as [A|] eqn:EA; [|done].
      now apply (HW e A ni EA). }
    unfold get_atom. apply elem_of_dom in Hdom as [Ani HAni]. rewrite HAni.
    cbn [mbind result_bind].
    destruct (Hrec e ni m HW HI He Hnbi Hsz)
      as (res & m1 & -> & HS1 & HI1 & Hni1 & Hres).
    cbn [mbind result_bind].
    destruct res as [r|].
    + (* a bond was returned: hang it under [bond] *)
      destruct Hres as (-> & t & Hroot & Hrep & Hb).
      set (r := Key e ni) in *.
      assert (Hnew : new_key m m1 r).
      { destruct Hb as (Hk & _). apply Hk. rewrite <- Hroot. apply flatten_root. }
      assert (Hset1 : settled m1 bond)
        by (eapply settled_mono; [apply (step_B _ _ _ HS1) | exact Hset]).
      assert (Hne : bond <> r).
      { intros ->. now apply (settled_not_new m m1 r Hset). }
      destruct (hv_lookup (heap m) (heap m1) bond n) as (n1 & Hn1 & Ho1 & Hd1);
        [|exact Hn|].
      { apply (step_frame _ _ _ HS1); [discriminate|].
        now apply settled_not_new. }
      destruct (attach_spec bond r m1 n1 HI1 Hset1
                  (new_key_settled _ _ _ Hnew) Hne Hn1)
        as (HS2 & HI2 & n2 & Hn2 & Ho2 & Hd2).
      set (m2 := attach bond r m1) in *.
      assert (HS12 : stepx (Some bond) m m2)
        by (eapply stepx_trans; [apply stepx_weaken; exact HS1 | exact HS2]).
      assert (Hfr2 : forall r', r' ∈ flatten t -> hv (heap m2) r' = hv (heap m1) r').
      { intros r' Hr'. destruct Hb as (Hk & _).
        apply (step_frame _ _ _ HS2).
        - intros [= ->]. apply (settled_not_new m m1 bond Hset). now apply Hk.
        - apply settled_not_new. eapply new_key_settled. now apply Hk. }
      assert (Hb2 : built_refs m m2 (flatten t))
        by (apply (built_refs_same_seen m m1 m2); auto).
      assert (Hrep2 : repr (heap m2) t) by (eapply repr_frame; eauto).
      destruct (IH m2 n2) as (m' & ts & n' & Hrun & HS' & HI' & Hseen & Hreps & Hbs & Hn' & Ho' & Hd').
      * eapply wf_graph_step; eauto.
      * exact HI2.
      * apply (step_A _ _ _ HS12). exact He.
      * intros ni' H. apply (nb_atoms m m2); [apply (step_atoms _ _ _ HS12) | auto].
      * eapply Nat.le_lt_trans; [|exact Hsz].
        apply unseen_size_mono;
          [apply (step_atoms _ _ _ HS12) | apply (step_A _ _ _ HS12)].
      * eapply settled_mono; [apply (step_B _ _ _ HS12) | exact Hset].
      * intros s Hs. apply (step_A _ _ _ HS12). now apply Hst.
      * exact Hn2.
      * exists m', (t :: ts), n'. split; [exact Hrun|].
        split; [eapply stepx_trans; eauto|]. split; [exact HI'|].
        assert (Hfr' : forall r', r' ∈ flatten t -> hv (heap m') r' = hv (heap m2) r').
        { intros r' Hr'. destruct Hb2 as (Hk & _).
          apply (step_frame _ _ _ HS').
          - intros [= ->]. apply (settled_not_new m m2 bond Hset). now apply Hk.
          - apply settled_not_new. eapply new_key_settled. now apply Hk. }
        split; [|split; [|split; [|split; [exact Hn'|split]]]].
        -- intros ni' [->|H]%elem_of_cons; [|auto].
           apply (step_A _ _ _ HS'), (step_A _ _ _ HS2). exact Hni1.
        -- constructor; [|exact Hreps]. eapply repr_frame; eauto.
        -- cbn [map concat].
           apply (built_refs_app (Some bond) m m2 m'); auto.
           intros r' Hr' [= ->]. destruct Hb2 as (Hk & _).
           apply (settled_not_new m m2 bond Hset). now apply Hk.
        -- congruence.
        -- rewrite Hd', Hd2, Hd1. cbn [map]. rewrite Hroot.
           now rewrite <- app_assoc.
    + (* nothing returned, nothing changed *)
      subst m1.
      destruct (IH m n HW HI He Hnb' Hsz Hset Hst Hn)
        as (m' & ts & n' & Hrun & HS & HI' & Hseen & Hrep & Hb & Hn' & Ho & Hd).
      exists m', ts, n'. split; [exact Hrun|]. split; [exact HS|].
      split; [exact HI'|]. split; [|auto].
      intros ni' [->|H]%elem_of_cons; [|auto].
      apply (step_A _ _ _ HS). exact Hni1.
Qed.

Lemma recurse_neighbors_spec rec f (Hrec : call_spec rec f)
    (start : option Z) (e : Z) (bond : ref) (m0 : Molecule) (n : node) :
  let m1 := set_seen_atoms ({[ e ]} ∪ seen_atoms m0) m0 in
  wf_graph m1 -> inv m1 -> e ∈ dom (atoms m0) -> e ∉ seen_atoms m0 ->
  (size (dom (atoms m0) ∖ seen_atoms m0) < S f)%nat ->
  settled m0 bond ->
  (forall s, start = Some s -> s ∈ seen_atoms m0) ->
  heap m0 !! bond = Some n ->
  exists m' ts n',
    recurse_neighbors rec start e bond m0 = Ok (Some bond, m') /\
    stepx (Some bond) m1 m' /\ inv m' /\
    (forall ni, nb m0 e ni -> ni ∈ seen_atoms m') /\
    Forall (repr (heap m')) ts /\
    built_refs m1 m' (concat (map flatten ts)) /\
    heap m' !! bond = Some n' /\ obj_of n' = obj_of n /\
    descendants n' = descendants n ++ map root_ref ts.
Proof.
  intros m1 HW HI Hdom Hout Hsz Hset Hst Hn.
  unfold recurse_neighbors. fold m1.
  set (m1' := if decide (Some e = exit_atom m1)
              then set_exit_bond (Some bond) m1 else m1).
  assert (Heq : atoms m1' = atoms m1 /\ heap m1' = heap m1 /\
                seen_atoms m1' = seen_atoms m1 /\
                seen_bonds m1' = seen_bonds m1 /\
                exit_atom m1' = exit_atom m1)
    by (unfold m1'; case_decide; cbn; auto).
  destruct Heq as (Ea & Eh & EA & EB & Ee).
  assert (HW' : wf_graph m1').
  { intros a A ni. rewrite Ea, Eh. apply HW. }
  assert (HI' : inv m1').
  { destruct HI as [IB IP IA IS]. split.
    - intros s e'. rewrite EB, EA. apply IB.
    - intros s e' n0. rewrite EB, Eh. apply IP.
    - now rewrite EA, Ea.
    - intros s e'. rewrite EB, Eh. apply IS. }
  assert (HS0 : stepx (Some bond) m1 m1').
  { split.
    - exact Ea.
    - exact Ee.
    - now rewrite EA.
    - now rewrite EB.
    - intros r _ _. now rewrite Eh.
    - intros r. now rewrite Eh.
    - intros a ni H1 H2. rewrite EA in H1. contradiction. }
  destruct (elem_of_dom (atoms m0) e) as [[ea Hea] _]; [exact Hdom|].
  assert (Hea' : atoms m1' !! e = Some ea) by (rewrite Ea; exact Hea).
  unfold get_atom. rewrite Hea'. cbn [mbind result_bind].
  destruct (loop_spec rec f Hrec start e bond (neighbors ea) m1' n)
    as (m' & ts & n' & Hrun & HS & HI'' & Hseen & Hrep & Hb & Hn' & Ho & Hd).
  - exact HW'.
  - exact HI'.
  - rewrite EA. cbn. set_solver.
  - intros ni Hni. unfold nb. now rewrite Hea'.
  - rewrite Ea, EA. cbn.
    assert (Hsplit : dom (atoms m0) ∖ seen_atoms m0
                     = {[e]} ∪ dom (atoms m0) ∖ ({[e]} ∪ seen_atoms m0)).
    { apply set_eq. intros a. destruct (decide (a = e)); set_solver. }
    rewrite Hsplit, size_union, size_singleton in Hsz by set_solver. lia.
  - destruct Hset as [->|(s & e' & -> & Hin)]; [now left|right].
    exists s, e'. split; [done|]. now rewrite EB.
  - intros s Hs. rewrite EA. cbn. apply Hst in Hs. set_solver.
  - now rewrite Eh.
  - rewrite Hrun. cbn [mbind result_bind].
    exists m', ts, n'. split; [done|].
    split; [eapply stepx_trans; eauto|]. split; [exact HI''|].
    split; [|split; [exact Hrep|split; [|auto]]].
    + intros ni Hni. apply Hseen. unfold nb in Hni. now rewrite Hea in Hni.
    + destruct Hb as (Hk & Hnd & Hne & He & Hp).
      split; [|split; [done|split; [done|split; [|done]]]].
      * intros r Hr. destruct (Hk r Hr) as (s & e' & -> & H1 & H2).
        exists s, e'. now rewrite <- EB.
      * intros a. rewrite He, EA. reflexivity.
Qed.

Lemma ends_phantom m r L :
  tree_phantom m r = true -> ends m (r :: L) = ends m L.
Proof. intros H. unfold ends. cbn. now rewrite H. Qed.

Lemma ends_nonphantom m r L a :
  tree_phantom m r = false -> tree_end m r = Some a ->
  ends m (r :: L) = a :: ends m L.
Proof. intros H1 H2. unfold ends. cbn. now rewrite H1, H2. Qed.

(** [parseTree] meets [call_spec] for every amount of fuel. *)
Lemma parseTree_call : forall f, call_spec (parseTree f) f.
Proof.
  induction f as [|f IH]; intros s e m HW HI Hs Hnb Hsz; [lia|].
  cbn [parseTree].
  assert (Hnode : e ∈ dom (atoms m) /\
                  shape <$> heap m !! Key s e = Some (Some e, true)).
  { unfold nb in Hnb. destruct (atoms m !! s) as [A|] eqn:EA; [|done].
    exact (HW s A e EA Hnb). }
  destruct Hnode as [Hdom Hshape].
  case_decide as Hguard.
  { (* the bond is in the tree already, in one direction or the other *)
    exists None, m. split; [done|]. split; [apply stepx_refl|].
    split; [done|]. split; [|done].
    destruct HI as [IB _ _ _]. destruct Hguard as [H|H]; apply IB in H; tauto. }
  assert (Hout : (s, e) ∉ seen_bonds m) by tauto.
  destruct (heap m !! Key s e) as [n|] eqn:En; [|discriminate].
  unfold get_node. rewrite En. cbn [mbind result_bind].
  cbn in Hshape. injection Hshape as Hend Hkind.
  destruct (inv_pristine m HI s e n Hout En) as [Hdesc Hnph].
  set (bond := Key s e).
  set (m0 := set_seen_bonds ({[(s, e)]} ∪ seen_bonds m) m).
  assert (Hnew : forall m', seen_bonds m0 ⊆ seen_bonds m' -> new_key m m' bond).
  { intros m' Hsub. exists s, e. split; [done|]. split; [|done].
    apply Hsub. cbn. set_solver. }
  case_decide as Hseen.
  - (* the end atom is known: a ring closure *)
    cbn in Hseen.
    set (m' := update_node bond (map_bond (with_to_phantom true)) m0).
    assert (Hn' : heap m' !! bond = Some (map_bond (with_to_phantom true) n))
      by (unfold m', bond; cbn; now rewrite lookup_alter_eq, En).
    assert (Hph : tree_phantom m' bond = true).
    { unfold tree_phantom. rewrite Hn'. unfold node_to_phantom, map_bond.
      destruct (obj_of n); try discriminate. reflexivity. }
    assert (Hleaf : tree_leaf m' bond).
    { exists (map_bond (with_to_phantom true) n). split; [exact Hn'|].
      unfold map_bond. destruct (obj_of n); cbn; assumption. }
    exists (Some bond), m'. split; [done|].
    split; [|split; [|split; [exact Hseen|split; [done|]]]].
    + split.
      * reflexivity.
      * reflexivity.
      * reflexivity.
      * cbn. apply union_subseteq_r.
      * intros r _ Hr. cbn. apply hv_alter_ne. intros <-. apply Hr.
        apply (Hnew m'). done.
      * intros r. cbn. apply shape_alter. intros n0. now apply shape_map_bond.
      * intros a ni H1 H2. contradiction.
    + destruct HI as [IB IP IA IS]. split.
      * cbn. intros s' e' [H|H]%elem_of_union; [|auto].
        apply elem_of_singleton in H as [= -> ->]. auto.
      * cbn. intros s' e' n0 Ho Hk.
        apply not_elem_of_union in Ho as [Ho1 Ho2].
        rewrite lookup_alter_ne in Hk
          by (intros [= <- <-]; apply Ho1; now apply elem_of_singleton).
        apply (IP s' e' n0); [exact Ho2 | exact Hk].
      * exact IA.
      * cbn. intros s' e' Hin.
        rewrite shape_alter by (intros n0; now apply shape_map_bond).
        apply elem_of_union in Hin as [H|H]; [|now apply IS].
        apply elem_of_singleton in H as [= -> ->]. rewrite En. cbn.
        unfold shape. now rewrite Hend, Hkind.
    + exists (Node bond []). split; [done|]. split.
      * apply (repr_node _ bond [] (map_bond (with_to_phantom true) n));
          [exact Hn' | | constructor].
        unfold map_bond. destruct (obj_of n); cbn; assumption.
      * cbn [flatten map concat]. unfold built_refs.
        rewrite (ends_phantom m' bond [] Hph). change (ends m' []) with (@nil Z).
        split; [intros r ->%list_elem_of_singleton; now apply Hnew|].
        split; [apply NoDup_singleton|]. split; [constructor|].
        split; [|intros r ->%list_elem_of_singleton; auto].
        intros a. split; [intros Ha; inversion Ha | tauto].
  - (* a new atom: recurse over its neighbors *)
    cbn in Hseen.
    set (m1 := set_seen_atoms ({[ e ]} ∪ seen_atoms m0) m0).
    assert (HI1 : inv m1).
    { destruct HI as [IB IP IA IS]. split; cbn.
      - intros s' e' [H|H]%elem_of_union.
        + apply elem_of_singleton in H as [= -> ->]. set_solver.
        + apply IB in H. set_solver.
      - intros s' e' n0 Ho Hk. apply (IP s' e' n0); [set_solver | exact Hk].
      - set_solver.
      - intros s' e' [H|H]%elem_of_union; [|now apply IS].
        apply elem_of_singleton in H as [= -> ->]. rewrite En. cbn.
        unfold shape. now rewrite Hend, Hkind. }
    destruct (recurse_neighbors_spec (parseTree f) f IH (Some s) e bond m0 n)
      as (m' & ts & n' & Hrun & HS & HI' & Hnbs & Hrep & Hb & Hn' & Ho & Hd).
    + exact HW.
    + exact HI1.
    + exact Hdom.
    + exact Hseen.
    + exact Hsz.
    + right. exists s, e. split; [done|]. cbn. set_solver.
    + intros s' [= <-]. exact Hs.
    + exact En.
    + fold m1 in HS, Hb. rewrite Hrun.
      assert (HB01 : seen_bonds m0 ⊆ seen_bonds m')
        by (apply (step_B _ _ _ HS)).
      assert (HeA : e ∈ seen_atoms m')
        by (apply (step_A _ _ _ HS); cbn; set_solver).
      exists (Some bond), m'. split; [done|].
      split; [|split; [exact HI'|split; [exact HeA|split; [done|]]]].
      * destruct HS as [Ha He HA HB Hf Hs' Hc]. split; cbn in *; auto.
        -- set_solver.
        -- set_solver.
        -- intros r _ Hr. apply Hf.
           ++ intros [= ->]. apply Hr. now apply Hnew.
           ++ intros (s' & e' & -> & H1 & H2). apply Hr.
              exists s', e'. split; [done|]. split; [done|]. set_solver.
        -- intros a ni H1 H2 Hnb'.
           destruct (decide (a = e)) as [->|Hae]; [now apply Hnbs|].
           apply (Hc a ni H1); [set_solver | exact Hnb'].
      * exists (Node bond ts). split; [done|].
        rewrite Hdesc in Hd. cbn in Hd.
        split; [now apply (repr_node _ bond ts n')|].
        cbn [flatten].
        assert (Hbnew : forall r, r ∈ concat (map flatten ts) -> r <> bond).
        { intros r Hr ->. destruct Hb as (Hk & _).
          destruct (Hk _ Hr) as (s' & e' & [= <- <-] & _ & H2).
          apply H2. cbn. set_solver. }
        assert (Hbe : tree_phantom m' bond = false /\ tree_end m' bond = Some e).
        { unfold tree_phantom, tree_end. rewrite Hn'. cbn.
          unfold node_to_phantom, node_end_atom in *. rewrite Ho.
          split; assumption. }
        destruct Hbe as [Hbph Hbend].
        destruct Hb as (Hk & Hnd & Hne & He & Hp).
        unfold built_refs. rewrite (ends_nonphantom m' bond _ e Hbph Hbend).
        split; [|split; [|split; [|split]]].
        -- intros r [->|Hr]%elem_of_cons; [now apply Hnew|].
           destruct (Hk r Hr) as (s' & e' & -> & H1 & H2).
           exists s', e'. split; [done|]. split; [done|]. cbn in H2. set_solver.
        -- constructor; [|exact Hnd]. intros Hin. now apply (Hbnew bond Hin).
        -- constructor; [|exact Hne]. intros Hin. apply He in Hin.
           cbn in Hin. set_solver.
        -- intros a. rewrite elem_of_cons, He. cbn. split.
           ++ intros [->|[H1 H2]]; [split; [exact HeA | exact Hseen]|].
              split; [exact H1 | set_solver].
           ++ intros [H1 H2]. destruct (decide (a = e)); [now left|right].
              split; [exact H1 | set_solver].
        -- intros r [->|Hr]%elem_of_cons Hph; [congruence | now apply Hp].
Qed.

Lemma omap_NoDup_inj {A B} (f : A -> option B) (L : list A) (x y : A) (b : B) :
  NoDup (omap f L) -> x ∈ L -> y ∈ L -> f x = Some b -> f y = Some b -> x = y.
Proof.
  induction L as [|z L IH]; intros Hnd Hx Hy Hfx Hfy; [inversion Hx|].
  assert (Hin : forall w, w ∈ L -> f w = Some b -> b ∈ omap f L).
  { intros w Hw Hfw. apply list_elem_of_omap. eauto. }
  cbn in Hnd. apply elem_of_cons in Hx as [->|Hx], Hy as [->|Hy]; auto.
  - rewrite Hfx in Hnd. apply NoDup_cons in Hnd as [Hno _].
    exfalso. apply Hno. eapply Hin; eauto.
  - rewrite Hfy in Hnd. apply NoDup_cons in Hnd as [Hno _].
    exfalso. apply Hno. eapply Hin; eauto.
  - apply IH; auto. destruct (f z); [now apply NoDup_cons in Hnd|done].
Qed.

Lemma repr_dom h t r : repr h t -> r ∈ flatten t -> is_Some (h !! r).
Proof.
  revert r. induction t as [r0 ts IH] using tree_ind'. intros r Hr Hin.
  apply repr_inv in Hr as (n & Hn & _ & Hall). cbn in Hin.
  apply elem_of_cons in Hin as [->|Hin]; [eauto|].
  apply list_elem_of_In, in_concat in Hin as (l & Hl & Hrl).
  apply in_map_iff in Hl as (t & <- & Ht).
  rewrite Forall_forall in IH, Hall.
  apply (IH t); [|apply Hall|]; now apply list_elem_of_In.
Qed.

Lemma NoDup_dom_length (h : gmap ref node) (l : list ref) :
  NoDup l -> (forall r, r ∈ l -> is_Some (h !! r)) -> (length l <= size h)%nat.
Proof.
  intros Hnd Hin. rewrite <- (size_dom (D := gset ref)).
  rewrite <- (size_list_to_set (C := gset ref) l Hnd).
  apply subseteq_size. intros r Hr. apply elem_of_list_to_set in Hr.
  now apply elem_of_dom, Hin.
Qed.

(** C2: on a connected molecule (every atom reachable from the entry
    atom through the neighbor lists), [parseTree] returns the root, and
    in the tree it has built, as [treebonds] lists it: every atom is the
    end atom of exactly one non-phantom bond; the bonds that close a ring
    are exactly the bonds flagged [to_phantom]; and every such bond is a
    leaf. *)
Theorem parseTree_spanning (m : Molecule) (entry : Z) :
  wf_graph m -> untraversed m ->
  entry ∈ dom (atoms m) ->
  (forall a, a ∈ dom (atoms m) -> rtc (nb m) entry a) ->
  exists m' l,
    parseTree (S (size (atoms m))) None entry m = Ok (Some Root, m') /\
    treebonds (set_root (Some Root) m') true = Ok l /\ NoDup l /\
    (forall a, a ∈ dom (atoms m) ->
       exists r, r ∈ l /\ tree_end m' r = Some a /\ tree_phantom m' r = false /\
         forall r', r' ∈ l -> tree_end m' r' = Some a ->
                    tree_phantom m' r' = false -> r' = r) /\
    (forall r, r ∈ l -> (ring_closure m' l r <-> tree_phantom m' r = true)) /\
    (forall r, r ∈ l -> tree_phantom m' r = true -> tree_leaf m' r).
Proof.
  intros HW (HA0 & HB0 & Hpr) Hentry Hconn.
  set (dummy := mkNode (ODummy entry) None []).
  set (m0 := set_heap (<[ Root := dummy ]> (heap m)) m).
  set (m1 := set_seen_atoms ({[ entry ]} ∪ seen_atoms m0) m0).
  assert (HW1 : wf_graph m1).
  { intros a A ni HaA Hni. cbn. rewrite lookup_insert_ne by done.
    now apply (HW a A ni). }
  assert (HI1 : inv m1).
  { split; cbn; rewrite ?HA0, ?HB0.
    - intros s e H. set_solver.
    - intros s e n _ Hk. rewrite lookup_insert_ne in Hk by done. eauto.
    - set_solver.
    - intros s e H. set_solver. }
  destruct (recurse_neighbors_spec (parseTree (size (atoms m))) (size (atoms m))
              (parseTree_call _) None entry Root m0 dummy)
    as (m' & ts & n' & Hrun & HS & HI' & Hnbs & Hrep & Hb & Hn' & Ho & Hd).
  { exact HW1. }
  { exact HI1. }
  { exact Hentry. }
  { cbn. rewrite HA0. set_solver. }
  { cbn. rewrite HA0, difference_empty_L, size_dom. lia. }
  { now left. }
  { intros s [=]. }
  { cbn. apply lookup_insert_eq. }
  fold m1 in HS, Hb.
  assert (Hpt : parseTree (S (size (atoms m))) None entry m = Ok (Some Root, m'))
    by exact Hrun.
  cbn in Hd, Ho.
  set (L := concat (map flatten ts)) in *.
  set (T := Node Root ts).
  assert (HrT : repr (heap m') T) by (now apply (repr_node _ Root ts n')).
  destruct Hb as (Hk & Hnd & Hne & He & Hp).
  assert (HRoot : Root ∉ L).
  { intros Hin. destruct (Hk _ Hin) as (s & e & [=] & _). }
  assert (HndT : NoDup (flatten T)) by (cbn; constructor; assumption).
  assert (Hlist : treebonds (set_root (Some Root) m') true = Ok (flatten T)).
  { unfold treebonds. cbn [root set_root mbind result_bind].
    rewrite (recurse_repr (set_root (Some Root) m') _ T []); [reflexivity|exact HrT|].
    cbn [heap set_root].
    pose proof (depth_le_length T).
    pose proof (NoDup_dom_length (heap m') (flatten T) HndT
                  (fun r Hr => repr_dom _ _ _ HrT Hr)). lia. }
  (* every atom has been seen *)
  assert (Hall : forall a, rtc (nb m) entry a -> a ∈ seen_atoms m').
  { intros a Hr. apply rtc_nsteps in Hr as [k Hr].
    revert a Hr. induction k as [|k IHk]; intros a Hr.
    - inversion Hr; subst. apply (step_A _ _ _ HS). cbn. set_solver.
    - apply nsteps_inv_r in Hr as (b & Hb1 & Hb2).
      specialize (IHk b Hb1).
      destruct (decide (b = entry)) as [->|Hne'].
      + now apply Hnbs.
      + apply (step_closed _ _ _ HS b a IHk); [cbn; rewrite HA0; set_solver|].
        exact Hb2. }
  assert (HendRoot : tree_end m' Root = Some entry /\ tree_phantom m' Root = false).
  { unfold tree_end, tree_phantom. rewrite Hn'. cbn.
    unfold node_end_atom, node_to_phantom. rewrite Ho. auto. }
  destruct HendRoot as [HeR HpR].
  assert (HeL : forall a r, r ∈ L -> tree_phantom m' r = false ->
                  tree_end m' r = Some a -> a ∈ ends m' L).
  { intros a r Hr Hph Hend. apply list_elem_of_omap. exists r.
    split; [exact Hr|]. now rewrite Hph. }
  assert (Huniq : forall a, a ∈ dom (atoms m) ->
    exists r, r ∈ flatten T /\ tree_end m' r = Some a /\
              tree_phantom m' r = false /\
      forall r', r' ∈ flatten T -> tree_end m' r' = Some a ->
                 tree_phantom m' r' = false -> r' = r).
  { intros a Ha. destruct (decide (a = entry)) as [->|Hae].
    - exists Root. split; [cbn; left|]. split; [exact HeR|]. split; [exact HpR|].
      intros r' Hr' Hend Hph. cbn in Hr'.
      apply elem_of_cons in Hr' as [->|Hr']; [done|].
      exfalso. apply (HeL entry r' Hr' Hph) in Hend. apply He in Hend.
      cbn in Hend. set_solver.
    - assert (Hin : a ∈ ends m' L).
      { apply He. split; [now apply Hall, Hconn|]. cbn. rewrite HA0. set_solver. }
      apply list_elem_of_omap in Hin as (r & Hr & Hfr).
      destruct (tree_phantom m' r) eqn:Hph; [discriminate|].
      exists r. split; [cbn; now right|]. split; [exact Hfr|]. split; [done|].
      intros r' Hr' Hend Hph'. cbn in Hr'.
      apply elem_of_cons in Hr' as [->|Hr']; [congruence|].
      apply (omap_NoDup_inj _ L r' r a Hne Hr' Hr); [now rewrite Hph'|].
      now rewrite Hph. }
  assert (Hends : forall r, r ∈ flatten T ->
            exists a, tree_end m' r = Some a /\ a ∈ dom (atoms m)).
  { intros r Hr. cbn in Hr. apply elem_of_cons in Hr as [->|Hr]; [eauto|].
    destruct (Hk _ Hr) as (s & e & -> & Hin & _).
    pose proof (inv_shape m' HI' s e Hin) as Hsh.
    pose proof (inv_B m' HI' s e Hin) as [_ HeA].
    apply (inv_A m' HI') in HeA. rewrite (step_atoms _ _ _ HS) in HeA.
    exists e. split; [|exact HeA].
    unfold tree_end. destruct (heap m' !! Key s e) as [n|]; [|discriminate].
    cbn in *. unfold shape in Hsh. congruence. }
  exists m', (flatten T). split; [exact Hpt|]. split; [exact Hlist|].
  split; [exact HndT|]. split; [exact Huniq|]. split.
  - intros r Hr. split.
    + intros (r' & Hr' & Hne' & Hph' & Heq).
      destruct (tree_phantom m' r) eqn:Hph; [done|]. exfalso.
      destruct (Hends r Hr) as (a & Ha & Hdom).
      destruct (Huniq a Hdom) as (r0 & _ & _ & _ & Hu).
      apply Hne'. rewrite (Hu r Hr Ha Hph). apply Hu; congruence.
    + intros Hph. destruct (Hends r Hr) as (a & Ha & Hdom).
      destruct (Huniq a Hdom) as (r0 & Hr0 & He0 & Hp0 & _).
      exists r0. split; [exact Hr0|]. split; [congruence|].
      split; [exact Hp0 | congruence].
  - intros r Hr Hph. cbn in Hr.
    apply elem_of_cons in Hr as [->|Hr]; [congruence | now apply Hp].
Qed.

End TreeFacts.

(** ** The default exit bond *)

Section ExitBondFacts.

(** C3, the code at a failing input: for the three-membered ring with two
    pendant atoms and no entry or exit atom chosen, the tree bonds 2-3 and
    2-4 are both at the greatest distance 3 from the entry atom 0; the bond
    2-3 has one descendant (the ring closure 3-1), the bond 2-4 has none.
    [default_exit_bond] sorts by distance alone and returns the bond 2-4,
    the smaller pair of the two. *)
Lemma default_exit_bond_ignores_descendants :
  (m ← Molecule_tree plain_options ring_with_pendants; scored_bonds m)
  = Ok [(1, 1, Key 0 1); (2, 2, Key 1 2); (3, 1, Key 2 3); (3, 0, Key 2 4)]%nat /\
  (m ← Molecule_tree plain_options ring_with_pendants; default_exit_bond m)
  = Ok (Key 2 4).
Proof. split; vm_compute; reflexivity. Qed.

End ExitBondFacts.

(** ** Cross bonds *)

Section CrossBondFacts.
Local Open Scope R_scope.






End CrossBondFacts.

Section CrossBondCounter.
Local Open Scope R_scope.



End CrossBondCounter.

(** ** The spanning tree at an example *)

Section TreeWitness.

Lemma wf_graph_Forall (m : Molecule) :
  map_Forall (fun a A =>
    Forall (fun ni => ni ∈ dom (atoms m) /\
                      shape <$> heap m !! Key a ni = Some (Some ni, true))
      (neighbors A)) (atoms m) ->
  wf_graph m.
Proof.
  intros H a A ni Ha Hni. specialize (H a A Ha). rewrite Forall_forall in H.
  exact (H ni Hni).
Qed.

Lemma untraversed_Forall (m : Molecule) :
  seen_atoms m = ∅ -> seen_bonds m = ∅ ->
  map_Forall (fun _ n => descendants n = [] /\ node_to_phantom n = false)
    (heap m) ->
  untraversed m.
Proof. intros H1 H2 H3. split; [exact H1|]. split; [exact H2|]. exact H3. Qed.

(** The three-membered ring, as [Molecule_prepare] leaves it, traversed
    from atom 0. *)
Lemma parseTree_spanning_witness :
  let m := prepared plain_options triangle in
  exists m' l,
    parseTree (S (size (atoms m))) None 0 m = Ok (Some Root, m') /\
    treebonds (set_root (Some Root) m') true = Ok l /\ NoDup l /\
    (forall a, a ∈ dom (atoms m) ->
       exists r, r ∈ l /\ tree_end m' r = Some a /\
         tree_phantom m' r = false /\
         forall r', r' ∈ l -> tree_end m' r' = Some a ->
           tree_phantom m' r' = false -> r' = r) /\
    (forall r, r ∈ l -> (ring_closure m' l r <-> tree_phantom m' r = true)) /\
    (forall r, r ∈ l -> tree_phantom m' r = true -> tree_leaf m' r).
Proof.
  intros m.
  assert (Hdom : dom (atoms m) = {[0%Z; 1%Z; 2%Z]}) by (vm_compute; reflexivity).
  apply (parseTree_spanning m 0).
  - apply wf_graph_Forall. refine (bool_decide_unpack _ _). vm_compute. exact I.
  - apply untraversed_Forall; [vm_compute; reflexivity..|].
    refine (bool_decide_unpack _ _). vm_compute. exact I.
  - rewrite Hdom. clear. set_solver.
  - intros a Ha. rewrite Hdom in Ha.
    assert (H01 : nb m 0 1) by (vm_compute; repeat constructor).
    assert (H02 : nb m 0 2) by (vm_compute; repeat constructor).
    assert (Hcase : a = 0%Z \/ a = 1%Z \/ a = 2%Z) by (clear - Ha; set_solver).
    destruct Hcase as [->|[->| ->]].
    + apply rtc_refl.
    + apply rtc_once, H01.
    + apply rtc_once, H02.
Defined.

End TreeWitness.

(** ** The fragment links at an example *)

Section FragmentWitness.


End FragmentWitness.

(** ** Rings *)

Section RingFacts.
Local Open Scope R_scope.

Variable num_round : R -> Z -> R.

Lemma get_bond_inv (m : Molecule) (r : ref) (b : Bond) :
  get_bond m r = Ok b <->
  exists n, heap m !! r = Some n /\ obj_of n = OBond b.
Proof.
  unfold get_bond, get_node, node_bond. split.
  - destruct (heap m !! r) as [n|]; [|discriminate]. cbn.
    destruct (obj_of n) eqn:E; try discriminate. intros [= ->]. eauto.
  - intros (n & -> & Hn). cbn. now rewrite Hn.
Qed.

Lemma getBond_frame (m m' : Molecule) (tk : TkBond) :
  seen_bonds m' = seen_bonds m -> dom (heap m') = dom (heap m) ->
  _getBond m' tk = _getBond m tk.
Proof.
  intros Hs Hd. unfold _getBond, get_node. rewrite Hs.
  assert (Hl : forall r, is_Some (heap m' !! r) <-> is_Some (heap m !! r)).
  { intros r. rewrite <- !elem_of_dom. now rewrite Hd. }
  case_decide.
  - pose proof (Hl (Key (source tk) (destination tk))) as H1.
    destruct (heap m' !! _) as [n'|], (heap m !! _) as [n|]; cbn; auto.
    + destruct H1 as [[? H1] _]; [eauto | discriminate].
    + destruct H1 as [_ [? H1]]; [eauto | discriminate].
  - pose proof (Hl (Key (destination tk) (source tk))) as H1.
    destruct (heap m' !! _) as [n'|], (heap m !! _) as [n|]; cbn; auto.
    + destruct H1 as [[? H1] _]; [eauto | discriminate].
    + destruct H1 as [_ [? H1]]; [eauto | discriminate].
Qed.

Lemma survey_bond_inv (m : Molecule) (tk : TkBond) A L B A' L' B' :
  survey_bond m tk (A, L, B) = Ok (A', L', B') ->
  exists r b, _getBond m tk = Ok r /\ get_bond m r = Ok b /\
    is_Some (atoms m !! start_atom b) /\ is_Some (atoms m !! end_atom b) /\
    A' = {[ end_atom b ]} ∪ ({[ start_atom b ]} ∪ A) /\
    L' = L ++ [blength b] /\ B' = B ++ [r].
Proof.
  unfold survey_bond. intros H.
  destruct (_getBond m tk) as [r|] eqn:Er; [|discriminate]. cbn in H.
  destruct (get_bond m r) as [b|] eqn:Eb; [|discriminate]. cbn in H.
  unfold get_atom in H.
  destruct (atoms m !! start_atom b) as [sa|] eqn:Es; [|discriminate]. cbn in H.
  destruct (atoms m !! end_atom b) as [ea|] eqn:Ee; [|discriminate]. cbn in H.
  injection H as <- <- <-. exists r, b. split; [reflexivity|].
  split; [exact Eb|]. rewrite Es, Ee. eauto 6.
Qed.

Lemma survey_fold (m : Molecule) (ring : list TkBond) : forall A L B A' L' B',
  foldM (survey_bond m) ring (A, L, B) = Ok (A', L', B') ->
  exists Ls Bs, L' = L ++ Ls /\ B' = B ++ Bs /\
    length Ls = length ring /\ length Bs = length ring /\
    Forall2 (fun tk r => _getBond m tk = Ok r) ring Bs /\
    Forall (bond_ok m) Bs /\
    Forall2 (fun r l => exists b, get_bond m r = Ok b /\ blength b = l) Bs Ls.
Proof.
  induction ring as [|tk ring IH]; intros A L B A' L' B' H; cbn [foldM] in H.
  - injection H as <- <- <-. exists [], []. rewrite !app_nil_r.
    repeat split; constructor.
  - destruct (survey_bond m tk (A, L, B)) as [[[A1 L1] B1]|] eqn:E;
      [|discriminate].
    cbn [mbind result_bind] in H.
    apply survey_bond_inv in E as (r & b & Hr & Hb & Hs & He & -> & -> & ->).
    assert (Hok : bond_ok m r) by (exists b; auto).
    apply IH in H as (Ls & Bs & -> & -> & HL & HB & H2 & Hall & Hlen).
    exists (blength b :: Ls), (r :: Bs). rewrite <- !app_assoc. cbn.
    split; [reflexivity|]. split; [reflexivity|].
    split; [now rewrite HL|]. split; [now rewrite HB|].
    split; [now constructor|]. split; [now constructor|].
    constructor; [eauto | exact Hlen].
Qed.

Lemma ring_survey_spec (m : Molecule) (ring : list TkBond) A L B :
  ring_survey ring m = Ok (A, L, B) ->
  length L = length ring /\ length B = length ring /\
  Forall2 (fun tk r => _getBond m tk = Ok r) ring B /\
  Forall (bond_ok m) B /\
  Forall2 (fun r l => exists b, get_bond m r = Ok b /\ blength b = l) B L.
Proof.
  unfold ring_survey. intros H.
  apply survey_fold in H as (Ls & Bs & -> & -> & H). exact H.
Qed.

(** *** The orientation pass *)

Lemma is_clockwise_spec (o : Options) (b : Bond) (ea : Atom) (cx cy : R) :
  let b' := is_clockwise o b ea cx cy in
  start_atom b' = start_atom b /\ end_atom b' = end_atom b /\
  clockwise b' <> 0%Z /\
  (clockwise b <> 0%Z -> b' = b) /\
  (clockwise b = 0%Z -> clockwise b' = 1%Z \/ clockwise b' = (-1)%Z).
Proof.
  unfold is_clockwise. case_decide as Hc.
  - destruct (compare_positions _ _ _ _) as [d a].
    destruct (Rgt_dec _ _); cbn; repeat split; auto; try lia; congruence.
  - cbn. repeat split; auto. congruence.
Qed.

Lemma tag_rel_refl (m : Molecule) : tag_rel m m.
Proof.
  repeat split. intros r b Hb. exists b. split; [exact Hb|]. auto 6.
Qed.

Lemma tag_rel_trans (m1 m2 m3 : Molecule) :
  tag_rel m1 m2 -> tag_rel m2 m3 -> tag_rel m1 m3.
Proof.
  intros (Ha & Ho & Hd & H) (Ha' & Ho' & Hd' & H').
  split; [congruence|]. split; [congruence|]. split; [congruence|].
  intros r b Hb. destruct (H r b Hb) as (b2 & Hb2 & Hs2 & He2 & Hk2 & Hz2).
  destruct (H' r b2 Hb2) as (b3 & Hb3 & Hs3 & He3 & Hk3 & Hz3).
  exists b3. split; [exact Hb3|]. split; [congruence|]. split; [congruence|].
  split.
  - intros Hne. rewrite Hk3; [auto|]. rewrite Hk2; auto.
  - intros Hz. destruct (decide (clockwise b2 = 0%Z)) as [E|E].
    + auto.
    + rewrite (Hk3 E). auto.
Qed.

Lemma tag_rel_bond_ok (m m' : Molecule) (r : ref) :
  tag_rel m m' -> bond_ok m r -> bond_ok m' r.
Proof.
  intros (Ha & _ & _ & H) (b & Hb & Hs & He).
  destruct (H r b Hb) as (b' & Hb' & Hs' & He' & _).
  exists b'. rewrite Ha, Hs', He'. auto.
Qed.

Lemma tag_bond_spec (cx cy : R) (r : ref) (m : Molecule) :
  bond_ok m r ->
  exists m', tag_bond cx cy r m = Ok m' /\ tag_rel m m' /\
    exists b', get_bond m' r = Ok b' /\ clockwise b' <> 0%Z.
Proof.
  intros (b & Hb & _ & [ea Hea]). unfold tag_bond, get_atom.
  rewrite Hb. cbn [mbind result_bind]. rewrite Hea. cbn [mbind result_bind].
  eexists. split; [reflexivity|].
  apply get_bond_inv in Hb as (n & Hn & Hobj).
  pose proof (is_clockwise_spec (options m) b ea cx cy) as (Hs & He & Hnz & Hk & Hz).
  assert (Hnew : get_bond
            (update_node r
               (map_bond (fun b0 => is_clockwise (options m) b0 ea cx cy)) m) r
          = Ok (is_clockwise (options m) b ea cx cy)).
  { apply get_bond_inv. unfold update_node. cbn.
    rewrite lookup_alter_eq, Hn. cbn. eexists. split; [reflexivity|].
    unfold map_bond. now rewrite Hobj. }
  split.
  - split; [reflexivity|]. split; [reflexivity|].
    split; [apply dom_alter_L|].
    intros r0 b0 Hb0. destruct (decide (r0 = r)) as [->|Hne].
    + apply get_bond_inv in Hb0 as (n0 & Hn0 & Hobj0).
      assert (b0 = b) by congruence. subst b0.
      eexists. split; [exact Hnew|]. split; [exact Hs|]. split; [exact He|].
      split; [intros Hc; now rewrite (Hk Hc) | auto].
    + exists b0. split; [|auto 6].
      apply get_bond_inv in Hb0 as (n0 & Hn0 & Hobj0).
      apply get_bond_inv. exists n0. split; [|exact Hobj0].
      unfold update_node. cbn. now rewrite lookup_alter_ne.
  - eauto.
Qed.

Lemma tag_fold_spec (cx cy : R) (bonds : list ref) : forall m,
  Forall (bond_ok m) bonds ->
  exists m', foldM (tag_bond cx cy) bonds m = Ok m' /\ tag_rel m m' /\
    forall r, r ∈ bonds -> exists b', get_bond m' r = Ok b' /\ clockwise b' <> 0%Z.
Proof.
  induction bonds as [|r bonds IH]; intros m Hall.
  - exists m. split; [reflexivity|]. split; [apply tag_rel_refl|].
    intros r Hr. inversion Hr.
  - inversion Hall as [|? ? Hr Hrest]; subst. cbn [foldM].
    destruct (tag_bond_spec cx cy r m Hr) as (m1 & -> & Hrel1 & b1 & Hb1 & Hnz1).
    cbn [mbind result_bind].
    destruct (IH m1) as (m' & Hrun & Hrel & Htag).
    { eapply Forall_impl; [exact Hrest|]. intros x. now apply tag_rel_bond_ok. }
    exists m'. split; [exact Hrun|].
    split; [eapply tag_rel_trans; eassumption|].
    intros x [->|Hx]%elem_of_cons; [|now apply Htag].
    destruct Hrel as (_ & _ & _ & H).
    destruct (H r b1 Hb1) as (b' & Hb' & _ & _ & Hk & _).
    exists b'. split; [exact Hb'|]. now rewrite (Hk Hnz1).
Qed.


Lemma tag_rel_no_circle (m m' : Molecule) (bonds : list ref) :
  dom (heap m') = dom (heap m) -> ~ ring_circle m m' bonds.
Proof.
  intros Hd (bond & arb & n & a & p & l & rd & _ & _ & _ & Hnone & Hsome).
  apply not_elem_of_dom in Hnone. apply Hnone. rewrite <- Hd.
  apply elem_of_dom. eauto.
Qed.

(** *** The circle *)

Lemma arom_rel_refl (m : Molecule) : arom_rel m m.
Proof. repeat split. intros r b Hb. eauto. Qed.

Lemma aromatize_bond_spec (m0 m : Molecule) (o : option ref) (tk : TkBond)
    (r : ref) :
  arom_rel m0 m -> _getBond m0 tk = Ok r ->
  exists m', aromatize_bond tk (m, o) = Ok (m', Some r) /\ arom_rel m0 m'.
Proof.
  intros (Ha & Ho & Hs & Hf & Hsc & Hd & H) Hr.
  unfold aromatize_bond. cbn [fst].
  rewrite (getBond_frame m0 m tk Hs Hd), Hr. cbn [mbind result_bind].
  eexists. split; [reflexivity|].
  unfold update_node. cbn.
  do 5 (split; [assumption|]).
  split; [cbn; rewrite dom_alter_L; exact Hd|].
  intros r0 b Hb. destruct (H r0 b Hb) as (b1 & Hb1 & He1).
  apply get_bond_inv in Hb1 as (n1 & Hn1 & Hobj1).
  destruct (decide (r0 = r)) as [->|Hne].
  - exists (with_bond_type aromatic b1). split; [|exact He1].
    apply get_bond_inv. cbn. rewrite lookup_alter_eq, Hn1. cbn.
    eexists. split; [reflexivity|]. unfold map_bond. now rewrite Hobj1.
  - exists b1. split; [|exact He1].
    apply get_bond_inv. cbn. rewrite lookup_alter_ne by congruence. eauto.
Qed.

Lemma aromatize_fold (m0 : Molecule) (ring : list TkBond) : forall Bs m o,
  arom_rel m0 m ->
  Forall2 (fun tk r => _getBond m0 tk = Ok r) ring Bs ->
  exists m', foldM aromatize_bond ring (m, o)
             = Ok (m', match last Bs with Some r => Some r | None => o end) /\
    arom_rel m0 m'.
Proof.
  induction ring as [|tk ring IH]; intros Bs m o Hrel H2.
  - inversion H2; subst. exists m. split; [reflexivity | exact Hrel].
  - inversion H2 as [|? r ? Bs' Hr H2']; subst. cbn [foldM].
    destruct (aromatize_bond_spec m0 m o tk r Hrel Hr) as (m1 & -> & Hrel1).
    cbn [mbind result_bind].
    destruct (IH Bs' m1 (Some r) Hrel1 H2') as (m' & Hrun & Hrel').
    exists m'. split; [|exact Hrel']. rewrite Hrun, last_cons.
    destruct (last Bs'); reflexivity.
Qed.



Lemma aromatizeRing_spec (ring : list TkBond) (Bs : list ref) (cx cy : R)
    (m0 : Molecule) :
  ring <> [] ->
  Forall2 (fun tk r => _getBond m0 tk = Ok r) ring Bs ->
  Forall (bond_ok m0) Bs ->
  heap m0 !! Fresh (next_fresh m0) = None ->
  exists m', aromatizeRing num_round ring cx cy m0 = Ok m' /\
    ring_circle m0 m' Bs.
Proof.
  intros Hne H2 Hall Hfresh. unfold aromatizeRing.
  destruct (aromatize_fold m0 ring Bs m0 None (arom_rel_refl m0) H2)
    as (m1 & -> & Hrel).
  cbn [mbind result_bind].
  destruct (last Bs) as [bond|] eqn:Elast.
  2:{ apply last_None in Elast. subst Bs. inversion H2; subst. contradiction. }
  cbn [mbind result_bind].
  assert (Hin : bond ∈ Bs) by (apply last_Some_elem_of; exact Elast).
  rewrite Forall_forall in Hall.
  destruct (Hall bond Hin) as (b & Hb & _ & [ea Hea]).
  destruct Hrel as (Ha & Ho & Hs & Hf & Hsc & Hd & H).
  destruct (H bond b Hb) as (b1 & Hb1 & He1).
  rewrite Hb1. cbn [mbind result_bind].
  unfold get_atom. rewrite Ha, He1, Hea. cbn [mbind result_bind].
  destruct (compare_positions _ _ _ _) as [outer_r ang].
  unfold alloc. cbn.
  eexists. split; [reflexivity|].
  apply get_bond_inv in Hb1 as (n1 & Hn1 & Hobj1).
  assert (Hfresh1 : heap m1 !! Fresh (next_fresh m1) = None).
  { rewrite Hf. apply not_elem_of_dom. rewrite Hd. now apply not_elem_of_dom. }
  assert (Hdiff : bond <> Fresh (next_fresh m1)) by congruence.
  unfold ring_circle, update_node. cbn.
  exists bond, (Fresh (next_fresh m1)).
  eexists. do 4 eexists.
  split; [exact Hin|]. split.
  { rewrite lookup_alter_eq, lookup_insert_ne by congruence.
    rewrite Hn1. reflexivity. }
  split; [cbn; set_solver|].
  split; [now rewrite Hf|].
  rewrite lookup_alter_ne, lookup_insert_eq by congruence. reflexivity.
Qed.


Lemma measure_ring_nonempty (m : Molecule) (A : gset Z) (L : list R)
    (g : ring_geometry) :
  measure_ring m A L = Ok g -> L <> [].
Proof. intros H ->. discriminate. Qed.


(** *** When the measurement succeeds *)

Lemma foldl_Rmax_le (l : list R) : forall a x,
  x = a \/ x ∈ l -> x <= foldl Rmax a l.
Proof.
  induction l as [|b l IH]; intros a x Hx; cbn [foldl].
  - destruct Hx as [->|Hx]; [lra | inversion Hx].
  - destruct Hx as [->|[->|Hx]%elem_of_cons].
    + etrans; [apply (Rmax_l a b)|]. apply IH. now left.
    + etrans; [apply (Rmax_r a b)|]. apply IH. now left.
    + apply IH. now right.
Qed.

Lemma list_max_pos (L : list R) (x : R) :
  x ∈ L -> 0 < x -> exists mx, list_max L = Ok mx /\ mx <> 0.
Proof.
  intros Hx Hpos. destruct L as [|a l]; [inversion Hx|].
  cbn. eexists. split; [reflexivity|].
  apply elem_of_cons in Hx.
  pose proof (foldl_Rmax_le l a x Hx). lra.
Qed.

Lemma list_min_cons (a : R) (l : list R) :
  list_min (a :: l) = Ok (foldl Rmin a l).
Proof. reflexivity. Qed.

Lemma fdiv_ok (a b : R) : b <> 0 -> fdiv a b = Ok (a / b).
Proof. intros H. unfold fdiv. destruct (Req_dec_T b 0); [contradiction | reflexivity]. Qed.

Lemma ring_atoms_fold (m : Molecule) (is_ : list Z) : forall acc,
  Forall (fun i => is_Some (atoms m !! i)) is_ ->
  exists ras,
    foldM (fun i l => a ← get_atom m i; Ok (l ++ [(i, a)])) is_ acc
    = Ok (acc ++ ras) /\
    length ras = length is_ /\
    forall k, k ∈ is_ -> exists a, (k, a) ∈ ras /\ atoms m !! k = Some a.
Proof.
  unfold get_atom.
  induction is_ as [|i is_ IH]; intros acc Hall; cbn [foldM].
  - exists []. rewrite app_nil_r. split; [reflexivity|]. split; [reflexivity|].
    intros k Hk. inversion Hk.
  - inversion Hall as [|? ? [a Ha] Hrest]; subst.
    rewrite Ha. cbn [mbind result_bind].
    destruct (IH (acc ++ [(i, a)]) Hrest) as (ras & -> & Hlen & Hin).
    exists ((i, a) :: ras). rewrite <- app_assoc. split; [reflexivity|].
    split; [cbn; now rewrite Hlen|].
    intros k [->|Hk]%elem_of_cons.
    + exists a. split; [left | exact Ha].
    + destruct (Hin k Hk) as (a' & H1 & H2). exists a'. split; [now right | exact H2].
Qed.

Lemma compare_positions_distance (x1 y1 x2 y2 : R) :
  (compare_positions x1 y1 x2 y2).1 = sqrt ((x2 - x1) ^ 2 + (y2 - y1) ^ 2).
Proof. reflexivity. Qed.

Lemma compare_positions_apart (x1 y1 x2 y2 : R) :
  (x1, y1) <> (x2, y2) -> 0 < (compare_positions x1 y1 x2 y2).1.
Proof.
  intros Hne. rewrite compare_positions_distance. apply sqrt_lt_R0.
  pose proof (pow2_ge_0 (x2 - x1)) as Hx. pose proof (pow2_ge_0 (y2 - y1)) as Hy.
  destruct (Req_dec_T x1 x2) as [Ex|Ex].
  - destruct (Req_dec_T y1 y2) as [Ey|Ey]; [congruence|].
    assert (0 < (y2 - y1) ^ 2).
    { replace ((y2 - y1) ^ 2) with (Rsqr (y2 - y1)) by (unfold Rsqr; ring).
      apply Rsqr_pos_lt. lra. }
    lra.
  - assert (0 < (x2 - x1) ^ 2).
    { replace ((x2 - x1) ^ 2) with (Rsqr (x2 - x1)) by (unfold Rsqr; ring).
      apply Rsqr_pos_lt. lra. }
    lra.
Qed.

(** The measurement of a ring succeeds when some bond has a positive
    length, the atoms exist, and two of them are at different places. *)
Lemma measure_ring_ok (m : Molecule) (A : gset Z) (L : list R)
    (l : R) (i j : Z) (p q : R * R) :
  l ∈ L -> 0 < l ->
  A ⊆ dom (atoms m) ->
  i ∈ A -> j ∈ A ->
  atom_position m i = Some p -> atom_position m j = Some q -> p <> q ->
  exists g, measure_ring m A L = Ok g.
Proof.
  intros Hl Hpos Hsub Hi Hj Hp Hq Hpq. unfold measure_ring.
  destruct (list_max_pos L l Hl Hpos) as (bl_max & -> & Hbl).
  cbn [mbind result_bind].
  destruct L as [|a0 L0]; [inversion Hl|]. rewrite list_min_cons.
  cbn [mbind result_bind]. rewrite (fdiv_ok _ _ Hbl). cbn [mbind result_bind].
  destruct (ring_atoms_fold m (elements A) []) as (ras & -> & Hlen & Hin).
  { apply Forall_forall. intros k Hk. apply elem_of_elements in Hk.
    apply elem_of_dom. auto. }
  cbn [mbind result_bind app].
  destruct (Hin i) as (ai & Hai & Hi'); [now apply elem_of_elements|].
  destruct (Hin j) as (aj & Haj & Hj'); [now apply elem_of_elements|].
  assert (Hn : INR (length ras) <> 0).
  { apply not_0_INR. destruct ras; [inversion Hai | discriminate]. }
  rewrite !(fdiv_ok _ _ Hn). cbn [mbind result_bind].
  set (cx := fsum _ / _). set (cy := fsum _ / _).
  unfold atom_position in Hp, Hq. rewrite Hi' in Hp. rewrite Hj' in Hq.
  cbn in Hp, Hq. injection Hp as <-. injection Hq as <-.
  assert (Hfar : exists ia, ia ∈ ras /\ (atom_x ia.2, atom_y ia.2) <> (cx, cy)).
  { destruct (Req_dec_T (atom_x ai) cx) as [Ex|Ex];
      [destruct (Req_dec_T (atom_y ai) cy) as [Ey|Ey]|].
    - exists (j, aj). split; [exact Haj|]. cbn. congruence.
    - exists (i, ai). split; [exact Hai|]. cbn. congruence.
    - exists (i, ai). split; [exact Hai|]. cbn. congruence. }
  destruct Hfar as (ia & Hia & Hfar).
  apply compare_positions_apart in Hfar.
  set (dists := (fun al : Z * (R * R) => al.2.1) <$> _).
  assert (Hd : (compare_positions (atom_x ia.2) (atom_y ia.2) cx cy).1 ∈ dists).
  { unfold dists. rewrite <- list_fmap_compose.
    apply (list_elem_of_fmap_2 (fun x : Z * Atom =>
             (compare_positions (atom_x x.2) (atom_y x.2) cx cy).1) _ _ Hia). }
  destruct (list_max_pos dists _ Hd Hfar) as (cd_max & -> & Hcd).
  cbn [mbind result_bind].
  destruct dists as [|d0 ds]; [inversion Hd|]. rewrite list_min_cons.
  cbn [mbind result_bind]. rewrite (fdiv_ok _ _ Hcd). cbn [mbind result_bind].
  eauto.
Qed.

Lemma survey_atoms (m : Molecule) (ring : list TkBond) : forall A L B A' L' B',
  foldM (survey_bond m) ring (A, L, B) = Ok (A', L', B') ->
  A ⊆ dom (atoms m) -> A' ⊆ dom (atoms m).
Proof.
  induction ring as [|tk ring IH]; intros A L B A' L' B' H HA; cbn [foldM] in H.
  - injection H as <- <- <-. exact HA.
  - destruct (survey_bond m tk (A, L, B)) as [[[A1 L1] B1]|] eqn:E;
      [|discriminate].
    cbn [mbind result_bind] in H.
    apply survey_bond_inv in E as (r & b & _ & _ & Hs & He & -> & _ & _).
    eapply IH; [exact H|].
    apply elem_of_dom in Hs, He. set_solver.
Qed.

Lemma annotateRing_returns_aux (ring : list TkBond) (is_aromatic : bool)
    (m : Molecule) A L B :
  ring_survey ring m = Ok (A, L, B) ->
  heap m !! Fresh (next_fresh m) = None ->
  ((length ring <= 8)%nat -> exists g, measure_ring m A L = Ok g) ->
  exists m', annotateRing num_round ring is_aromatic m = Ok m'.
Proof.
  intros Hs Hfresh Hmeasure. unfold annotateRing. rewrite Hs.
  cbn [mbind result_bind].
  destruct (ring_survey_spec m ring A L B Hs) as (HL & HB & H2 & Hall & _).
  case_decide as Hbig; [eauto|].
  destruct Hmeasure as [g Hg]; [lia|]. rewrite Hg. cbn [mbind result_bind].
  assert (Hne : ring <> []).
  { apply measure_ring_nonempty in Hg. intros ->. destruct L; [auto | discriminate]. }
  destruct (is_aromatic && _ && _).
  - destruct (aromatizeRing_spec ring B (ring_center_x g) (ring_center_y g) m
                Hne H2 Hall Hfresh) as (m1 & -> & _).
    cbn [mbind result_bind]. eauto.
  - destruct (tag_fold_spec (ring_center_x g) (ring_center_y g) B m Hall)
      as (m2 & -> & _). eauto.
Qed.

End RingFacts.

Section RingExamples.
Local Open Scope R_scope.

(** A ring of nine single bonds: [annotateRing] returns the molecule as
    it was, with no circle and with every bond of the ring without
    orientation. *)
Lemma annotateRing_large_ring_untagged :
  let m := tree_state plain_options nonagon in
  forallb (fun bond => bool_decide (bondOrder bond = 4%Z)) nonagon_bonds = false /\
  exists atoms_ lens,
    ring_survey nonagon_bonds m
    = Ok (atoms_, lens, [Key 0 1; Key 1 2; Key 2 3; Key 3 4; Key 4 5; Key 5 6;
                         Key 6 7; Key 7 8; Key 8 0]) /\
    annotateRing num_round_id nonagon_bonds false m = Ok m /\
    ~ ring_circle m m [Key 0 1; Key 1 2; Key 2 3; Key 3 4; Key 4 5; Key 5 6;
                       Key 6 7; Key 7 8; Key 8 0] /\
    Forall (fun r => ~ ring_tagged m m r)
      [Key 0 1; Key 1 2; Key 2 3; Key 3 4; Key 4 5; Key 5 6;
       Key 6 7; Key 7 8; Key 8 0].
Proof.
  intros m. split; [reflexivity|].
  eexists _, _. split; [vm_compute; reflexivity|].
  split; [vm_compute; reflexivity|].
  split; [apply tag_rel_no_circle; reflexivity|].
  repeat (apply List.Forall_cons;
          [intros (b & b' & _ & Hb' & Hnz & _); vm_compute in Hb';
           injection Hb' as <-; apply Hnz; reflexivity|]).
  apply List.Forall_nil.
Qed.

End RingExamples.

Section RingMeasure.
Local Open Scope R_scope.

Variable num_round : R -> Z -> R.













End RingMeasure.

Section RingCounter.
Local Open Scope R_scope.



End RingCounter.

Section RingWitness.
Local Open Scope R_scope.




End RingWitness.

(** * Further properties of the code *)

(** ** Fragments *)

Section FragmentExtras.

(** X1: [molecule_fragments] always returns (its loops need no more
    turns than there are pairs), and its answer splits the bonded pairs
    into connected fragments no two of which share an atom; it is empty
    only for a molecule without bonds. *)
Theorem molecule_fragments_components (m : Molecule) :
  exists fs, molecule_fragments m = Ok fs /\
    concat fs ≡ₚ atom_pairs m /\
    Forall connected_fragment fs /\
    disjoint_fragments fs /\
    (fs = [] <-> atom_pairs m = []).
Proof.
  destruct (molecule_fragments_spec m) as (fs & H1 & (H2 & H3 & H4) & H5).
  exists fs. auto.
Qed.

(** X2: [split_pairs] on a non-empty list always returns; the pairs it
    calls connected form one connected fragment that starts with the
    first pair, the rest shares no atom with them, and no pair is lost or
    made up.  On the empty list it raises [IndexError]. *)
Theorem split_pairs_component (first : Z * Z) (rest : list (Z * Z)) :
  split_pairs [] = Raise IndexError /\
  exists conn unconn,
    split_pairs (first :: rest) = Ok (conn, unconn) /\
    conn ++ unconn ≡ₚ first :: rest /\
    connected_fragment conn /\
    atoms_of conn ## atoms_of unconn.
Proof. split; [reflexivity | apply split_pairs_spec]. Qed.



End FragmentExtras.

(** ** Construction *)

Section PrepareExtras.



End PrepareExtras.

(** ** The tree as a list *)

Section TreebondsExtras.

(** X5: when the store holds a tree below the root bond (no bond object
    occurs twice in it), [treebonds] returns (it does not run out of
    fuel) and lists the bonds in preorder: each bond before its
    descendants, the descendants in their order; without the root, the
    list starts with the first descendant of the root. *)
Theorem treebonds_preorder (m : Molecule) (t : tree) :
  root m = Some (root_ref t) -> repr (heap m) t -> NoDup (flatten t) ->
  treebonds m true = Ok (flatten t) /\
  treebonds m false = Ok (concat (map flatten (children t))).
Proof.
  intros Hroot Hrepr Hnd.
  assert (Hrec : recurse (S (size (heap m))) m (root_ref t) [] = Ok (flatten t)).
  { rewrite (recurse_repr m _ t [] Hrepr); [reflexivity|].
    pose proof (depth_le_length t).
    pose proof (NoDup_dom_length (heap m) (flatten t) Hnd
                  (fun r Hr => repr_dom _ _ _ Hrepr Hr)). lia. }
  unfold treebonds. rewrite Hroot. cbn [mbind result_bind]. rewrite Hrec.
  cbn [mbind result_bind]. split; [reflexivity|].
  destruct t as [r ts]. reflexivity.
Qed.

(** The zig-zag chain. *)
Lemma treebonds_preorder_witness :
  treebonds zigzag_chain true = Ok [Root; Key 0 1; Key 1 2; Key 2 3] /\
  treebonds zigzag_chain false = Ok [Key 0 1; Key 1 2; Key 2 3].
Proof.
  apply (treebonds_preorder zigzag_chain zigzag_tree).
  - reflexivity.
  - repeat (eapply repr_node;
            [vm_compute; reflexivity | reflexivity | repeat constructor]).
  - vm_compute. repeat constructor; set_solver.
Defined.

End TreebondsExtras.

(** ** The call of [parseTree] at the root *)

Section TreeRun.

(** The call of [parseTree] at the root, on a molecule that need not be
    connected. *)
Lemma parseTree_tree (m : Molecule) (entry : Z) :
  wf_graph m -> untraversed m -> entry ∈ dom (atoms m) ->
  exists m' l,
    parseTree (S (size (atoms m))) None entry m = Ok (Some Root, m') /\
    atoms m' = atoms m /\
    (forall a, rtc (nb m) entry a -> a ∈ seen_atoms m') /\
    seen_atoms m' ⊆ dom (atoms m) /\
    treebonds (set_root (Some Root) m') true = Ok (Root :: l) /\
    NoDup (Root :: l) /\
    tree_end m' Root = Some entry /\
    (forall a, rtc (nb m) entry a ->
       exists r, r ∈ Root :: l /\ tree_end m' r = Some a /\
         tree_phantom m' r = false /\
         forall r', r' ∈ Root :: l -> tree_end m' r' = Some a ->
                    tree_phantom m' r' = false -> r' = r) /\
    (forall r, r ∈ Root :: l -> tree_phantom m' r = true -> tree_leaf m' r).
Proof.
  intros HW (HA0 & HB0 & Hpr) Hentry.
  set (dummy := mkNode (ODummy entry) None []).
  set (m0 := set_heap (<[ Root := dummy ]> (heap m)) m).
  set (m1 := set_seen_atoms ({[ entry ]} ∪ seen_atoms m0) m0).
  assert (HW1 : wf_graph m1).
  { intros a A ni HaA Hni. cbn. rewrite lookup_insert_ne by done.
    now apply (HW a A ni). }
  assert (HI1 : inv m1).
  { split; cbn; rewrite ?HA0, ?HB0.
    - intros s e H. set_solver.
    - intros s e n _ Hk. rewrite lookup_insert_ne in Hk by done. eauto.
    - set_solver.
    - intros s e H. set_solver. }
  destruct (recurse_neighbors_spec (parseTree (size (atoms m))) (size (atoms m))
              (parseTree_call _) None entry Root m0 dummy)
    as (m' & ts & n' & Hrun & HS & HI' & Hnbs & Hrep & Hb & Hn' & Ho & Hd).
  { exact HW1. }
  { exact HI1. }
  { exact Hentry. }
  { cbn. rewrite HA0. set_solver. }
  { cbn. rewrite HA0, difference_empty_L, size_dom. lia. }
  { now left. }
  { intros s [=]. }
  { cbn. apply lookup_insert_eq. }
  fold m1 in HS, Hb.
  assert (Hpt : parseTree (S (size (atoms m))) None entry m = Ok (Some Root, m'))
    by exact Hrun.
  cbn in Hd, Ho.
  set (L := concat (map flatten ts)) in *.
  set (T := Node Root ts).
  assert (HrT : repr (heap m') T) by (now apply (repr_node _ Root ts n')).
  destruct Hb as (Hk & Hnd & Hne & He & Hp).
  assert (HRoot : Root ∉ L).
  { intros Hin. destruct (Hk _ Hin) as (s & e & [=] & _). }
  assert (HndT : NoDup (flatten T)) by (cbn; constructor; assumption).
  assert (Hlist : treebonds (set_root (Some Root) m') true = Ok (flatten T)).
  { unfold treebonds. cbn [root set_root mbind result_bind].
    rewrite (recurse_repr (set_root (Some Root) m') _ T []); [reflexivity|exact HrT|].
    cbn [heap set_root].
    pose proof (depth_le_length T).
    pose proof (NoDup_dom_length (heap m') (flatten T) HndT
                  (fun r Hr => repr_dom _ _ _ HrT Hr)). lia. }
  assert (Hall : forall a, rtc (nb m) entry a -> a ∈ seen_atoms m').
  { intros a Hr. apply rtc_nsteps in Hr as [k Hr].
    revert a Hr. induction k as [|k IHk]; intros a Hr.
    - inversion Hr; subst. apply (step_A _ _ _ HS). cbn. set_solver.
    - apply nsteps_inv_r in Hr as (b & Hb1 & Hb2).
      specialize (IHk b Hb1).
      destruct (decide (b = entry)) as [->|Hne'].
      + now apply Hnbs.
      + apply (step_closed _ _ _ HS b a IHk); [cbn; rewrite HA0; set_solver|].
        exact Hb2. }
  assert (HendRoot : tree_end m' Root = Some entry /\ tree_phantom m' Root = false).
  { unfold tree_end, tree_phantom. rewrite Hn'. cbn.
    unfold node_end_atom, node_to_phantom. rewrite Ho. auto. }
  destruct HendRoot as [HeR HpR].
  assert (HeL : forall a r, r ∈ L -> tree_phantom m' r = false ->
                  tree_end m' r = Some a -> a ∈ ends m' L).
  { intros a r Hr Hph Hend. apply list_elem_of_omap. exists r.
    split; [exact Hr|]. now rewrite Hph. }
  exists m', L. split; [exact Hpt|].
  split; [exact (step_atoms _ _ _ HS)|]. split; [exact Hall|].
  split.
  { pose proof (inv_A m' HI') as HA. rewrite (step_atoms _ _ _ HS) in HA.
    exact HA. }
  split; [exact Hlist|]. split; [exact HndT|]. split; [exact HeR|].
  split.
  - intros a Ha. destruct (decide (a = entry)) as [->|Hae].
    + exists Root. split; [left|]. split; [exact HeR|]. split; [exact HpR|].
      intros r' Hr' Hend Hph.
      apply elem_of_cons in Hr' as [->|Hr']; [done|].
      exfalso. apply (HeL entry r' Hr' Hph) in Hend. apply He in Hend.
      cbn in Hend. set_solver.
    + assert (Hin : a ∈ ends m' L).
      { apply He. split; [now apply Hall|]. cbn. rewrite HA0. set_solver. }
      apply list_elem_of_omap in Hin as (r & Hr & Hfr).
      destruct (tree_phantom m' r) eqn:Hph; [discriminate|].
      exists r. split; [now right|]. split; [exact Hfr|]. split; [done|].
      intros r' Hr' Hend Hph'.
      apply elem_of_cons in Hr' as [->|Hr']; [congruence|].
      apply (omap_NoDup_inj _ L r' r a Hne Hr' Hr); [now rewrite Hph'|].
      now rewrite Hph.
  - intros r Hr Hph.
    apply elem_of_cons in Hr as [->|Hr]; [congruence | now apply Hp].
Qed.

End TreeRun.

(** ** The traversal without the connectivity assumption *)

Section TraversalExtras.

(** X6: on any molecule whose neighbor lists name existing atoms with
    stored bonds, connected or not, [parseTree] started at an existing
    atom with fuel N + 1 returns the root (it never runs out of fuel and
    raises nothing); it keeps the atoms, has seen every atom that can be
    reached from the entry atom through the neighbor lists and only atoms
    of the molecule, and leaves a tree that [treebonds] lists without
    repetition, the root first. *)
Theorem parseTree_visits_reachable (m : Molecule) (entry : Z) :
  wf_graph m -> untraversed m -> entry ∈ dom (atoms m) ->
  exists m' l,
    parseTree (S (size (atoms m))) None entry m = Ok (Some Root, m') /\
    atoms m' = atoms m /\
    (forall a, rtc (nb m) entry a -> a ∈ seen_atoms m') /\
    seen_atoms m' ⊆ dom (atoms m) /\
    treebonds (set_root (Some Root) m') true = Ok (Root :: l) /\
    NoDup (Root :: l) /\
    tree_end m' Root = Some entry.
Proof.
  intros HW HU Hentry.
  destruct (parseTree_tree m entry HW HU Hentry)
    as (m' & l & H1 & H2 & H3 & H4 & H5 & H6 & H7 & _).
  exists m', l. auto 10.
Qed.

(** Two fragments and an orphan atom, traversed from atom 0: only the
    fragment of atom 0 is reached. *)
Lemma parseTree_visits_reachable_witness :
  let m := two_fragments in
  exists m' l,
    parseTree (S (size (atoms m))) None 0 m = Ok (Some Root, m') /\
    atoms m' = atoms m /\
    (forall a, rtc (nb m) 0%Z a -> a ∈ seen_atoms m') /\
    seen_atoms m' ⊆ dom (atoms m) /\
    treebonds (set_root (Some Root) m') true = Ok (Root :: l) /\
    NoDup (Root :: l) /\
    tree_end m' Root = Some 0%Z.
Proof.
  intros m. apply (parseTree_visits_reachable m 0).
  - apply wf_graph_Forall. refine (bool_decide_unpack _ _). vm_compute. exact I.
  - apply untraversed_Forall; [vm_compute; reflexivity..|].
    refine (bool_decide_unpack _ _). vm_compute. exact I.
  - refine (bool_decide_unpack _ _). vm_compute. exact I.
Defined.

End TraversalExtras.

(** ** Orientation and cross tags of a bond *)

Section BondTagExtras.
Local Open Scope R_scope.

(** X7: [is_clockwise] assigns an orientation only once.  Its result
    carries the orientation 1 or -1, or the one the bond already had;
    nothing else of the bond changes; and a second call, whatever the
    center, changes nothing. *)
Theorem is_clockwise_assign_once (o : Options) (b : Bond) (ea : Atom)
    (cx cy : R) :
  let b' := is_clockwise o b ea cx cy in
  b' = with_clockwise (clockwise b') b /\
  clockwise b' <> 0%Z /\
  (clockwise b = 0%Z -> clockwise b' = 1%Z \/ clockwise b' = (-1)%Z) /\
  (clockwise b <> 0%Z -> b' = b) /\
  forall o2 ea2 cx2 cy2, is_clockwise o2 b' ea2 cx2 cy2 = b'.
Proof.
  intros b'.
  assert (Hnz : clockwise b' <> 0%Z).
  { subst b'. unfold is_clockwise. case_decide as Hc; [|exact Hc].
    destruct (compare_positions _ _ _ _) as [d a].
    destruct (Rgt_dec _ _); cbn; lia. }
  split.
  { subst b'. unfold is_clockwise. case_decide as Hc.
    - destruct (compare_positions _ _ _ _) as [d a].
      destruct (Rgt_dec _ _); reflexivity.
    - now destruct b. }
  split; [exact Hnz|]. split.
  { intros Hc. subst b'. unfold is_clockwise. rewrite decide_True by exact Hc.
    destruct (compare_positions _ _ _ _) as [d a].
    destruct (Rgt_dec _ _); cbn; auto. }
  split.
  { intros Hc. subst b'. unfold is_clockwise. now rewrite decide_False. }
  intros o2 ea2 cx2 cy2. unfold is_clockwise at 1.
  now rewrite decide_False.
Qed.

Ltac eval_angles :=
  unfold set_cross, upstream_angles, downstream_angles, _adjoining_angles;
  cbn [bond_angles angle map plain_bond];
  rewrite <- ?minus_IZR, ?py_round_IZR.

(** X8: when [set_cross] returns, the bond carries the style [cross] and
    the gap widths [bgstart] and [bgend], neither of them below 10, and
    its [is_last] flag is the argument [last]. *)
Theorem set_cross_gaps (b b' : Bond) (sa ea : Atom) (last : bool) :
  set_cross b sa ea last = Ok b' ->
  exists s e : Z,
    tikz_values b' !! "bgstart"%string = Some s /\
    tikz_values b' !! "bgend"%string = Some e /\
    (10 <= s)%Z /\ (10 <= e)%Z /\
    "cross"%string ∈ tikz_styles b' /\ is_last b' = last.
Proof.
  unfold set_cross. intros H.
  destruct (upstream_angles b sa) as [s|]; [|discriminate].
  destruct (downstream_angles b ea) as [t|]; [|discriminate].
  cbn in H.
  destruct (min_values s) as [g|]; [|discriminate]. cbn in H.
  destruct (cotan100 g) as [c|]; [|discriminate]. cbn in H.
  destruct (min_values t) as [g'|]; [|discriminate]. cbn in H.
  destruct (cotan100 g') as [c'|]; [|discriminate]. cbn in H.
  injection H as <-. cbn.
  exists (Z.max 10 c), (Z.max 10 c').
  split; [now rewrite lookup_insert_ne, lookup_insert_eq|].
  split; [now rewrite lookup_insert_eq|].
  split; [lia|]. split; [lia|]. split; [set_solver | reflexivity].
Qed.

(** The bond 1-2 of the zig-zag chain. *)
Lemma set_cross_gaps_witness :
  exists b' (s e : Z),
    set_cross (plain_bond 1 2 330) (mkAtom 1 2 1 [0%Z; 2%Z] [210; 330] false)
      (mkAtom 2 4 0 [1%Z; 3%Z] [150; 30] false) true = Ok b' /\
    tikz_values b' !! "bgstart"%string = Some s /\
    tikz_values b' !! "bgend"%string = Some e /\
    (10 <= s)%Z /\ (10 <= e)%Z /\
    "cross"%string ∈ tikz_styles b' /\ is_last b' = true.
Proof.
  assert (H : exists b',
    set_cross (plain_bond 1 2 330) (mkAtom 1 2 1 [0%Z; 2%Z] [210; 330] false)
      (mkAtom 2 4 0 [1%Z; 3%Z] [150; 30] false) true = Ok b')
    by (eexists; eval_angles; reflexivity).
  destruct H as [b' H]. exists b'.
  destruct (set_cross_gaps _ _ _ _ _ H) as (s & e & H').
  exists s, e. split; [exact H | exact H'].
Defined.

End BondTagExtras.

(** ** Declared cross bonds that do not exist *)

Section CrossErrorExtras.

Lemma node_set_cross_seen (r : ref) (last : bool) (m m' : Molecule) :
  node_set_cross r last m = Ok m' -> seen_bonds m' = seen_bonds m.
Proof.
  unfold node_set_cross. intros H.
  destruct (get_bond m r) as [b|]; [|discriminate]. cbn [mbind result_bind] in H.
  destruct (get_atom m (start_atom b)) as [sa|]; [|discriminate].
  cbn [mbind result_bind] in H.
  destruct (get_atom m (end_atom b)) as [ea|]; [|discriminate].
  cbn [mbind result_bind] in H.
  destruct (set_cross b sa ea last) as [b'|]; [|discriminate].
  cbn [mbind result_bind] in H. injection H as <-. reflexivity.
Qed.

Lemma cross_bond_step_seen (p : Z * Z) (m m' : Molecule) :
  cross_bond_step p m = Ok m' -> seen_bonds m' = seen_bonds m.
Proof.
  destruct p as [s1 e1]. unfold cross_bond_step. intros H.
  match type of H with
  | mbind _ ?sel = _ => destruct sel as [bond|]; [|discriminate]
  end.
  cbn [mbind result_bind] in H.
  destruct (get_node m bond) as [bn|]; [|discriminate].
  cbn [mbind result_bind] in H.
  destruct (exit_bond m) as [er|]; [|discriminate].
  cbn [mbind result_bind] in H.
  destruct (get_node m er) as [en|]; [|discriminate].
  cbn [mbind result_bind] in H.
  destruct (bool_decide _).
  { now apply node_set_cross_seen in H. }
  unfold alloc in H.
  match type of H with
  | mbind _ (node_set_cross ?r ?l ?mm) = _ =>
      destruct (node_set_cross r l mm) as [m1|] eqn:E1; [|discriminate];
      apply node_set_cross_seen in E1
  end.
  cbn [mbind result_bind] in H.
  match type of H with
  | mbind _ (get_bond ?mm ?r) = _ =>
      destruct (get_bond mm r) as [cb|]; [|discriminate]
  end.
  cbn [mbind result_bind] in H.
  case_decide.
  - destruct (exit_atom _) as [xa|]; [|discriminate].
    match type of H with
    | mbind _ (get_atom ?mm ?a) = _ =>
        destruct (get_atom mm a) as [ea|]; [|discriminate]
    end.
    cbn [mbind result_bind] in H.
    match type of H with
    | mbind _ (get_atom ?mm ?a) = _ =>
        destruct (get_atom mm a) as [cs|]; [|discriminate]
    end.
    cbn [mbind result_bind] in H. injection H as <-. cbn. exact E1.
  - injection H as <-. cbn. exact E1.
Qed.

Lemma cross_bond_step_missing (m : Molecule) (s1 e1 : Z) :
  ((s1 - 1)%Z, (e1 - 1)%Z) ∉ seen_bonds m ->
  ((e1 - 1)%Z, (s1 - 1)%Z) ∉ seen_bonds m ->
  cross_bond_step (s1, e1) m
  = Raise (MCFError ("bond " +:+ pretty s1 +:+ "-" +:+ pretty e1
                     +:+ " doesn't exist")).
Proof.
  intros H1 H2. unfold cross_bond_step.
  rewrite decide_False by exact H1. rewrite decide_False by exact H2.
  reflexivity.
Qed.

Lemma cross_fold_missing (pairs : list (Z * Z)) (s1 e1 : Z) : forall m,
  (s1, e1) ∈ pairs ->
  ((s1 - 1)%Z, (e1 - 1)%Z) ∉ seen_bonds m ->
  ((e1 - 1)%Z, (s1 - 1)%Z) ∉ seen_bonds m ->
  exists e, foldM cross_bond_step pairs m = Raise e.
Proof.
  induction pairs as [|p pairs IH]; intros m Hin H1 H2; [inversion Hin|].
  cbn [foldM].
  destruct (cross_bond_step p m) as [m1|e] eqn:E; cbn [mbind result_bind];
    [|eauto].
  apply elem_of_cons in Hin as [<-|Hin].
  - rewrite (cross_bond_step_missing m s1 e1 H1 H2) in E. discriminate.
  - apply cross_bond_step_seen in E. apply IH; [exact Hin|now rewrite E..].
Qed.

(** X9: a declared cross bond between two atoms that no tree bond joins
    is fatal: [process_cross_bonds] does not return, whatever else is
    declared, and when that pair is the first one declared the error is
    the [MCFError] naming the pair. *)
Theorem cross_bond_missing_edge (m : Molecule) (pairs : list (Z * Z))
    (s1 e1 : Z) :
  cross_bond (options m) = Some pairs ->
  (s1, e1) ∈ pairs ->
  ((s1 - 1)%Z, (e1 - 1)%Z) ∉ seen_bonds m ->
  ((e1 - 1)%Z, (s1 - 1)%Z) ∉ seen_bonds m ->
  (exists e, process_cross_bonds m = Raise e) /\
  (forall rest, pairs = (s1, e1) :: rest ->
     process_cross_bonds m
     = Raise (MCFError ("bond " +:+ pretty s1 +:+ "-" +:+ pretty e1
                        +:+ " doesn't exist"))).
Proof.
  intros Ho Hin H1 H2. unfold process_cross_bonds. rewrite Ho. split.
  - exact (cross_fold_missing pairs s1 e1 m Hin H1 H2).
  - intros rest ->. cbn [foldM].
    now rewrite (cross_bond_step_missing m s1 e1 H1 H2).
Qed.

(** The zig-zag chain 0-1-2-3 with a cross bond declared between its
    atoms 1 and 3, which no bond joins. *)
Lemma cross_bond_missing_edge_witness :
  let m := with_options (with_cross_bond (Some [(1, 3)%Z]) plain_options)
             zigzag_chain in
  (exists e, process_cross_bonds m = Raise e) /\
  (forall rest, [(1, 3)%Z] = (1, 3)%Z :: rest ->
     process_cross_bonds m
     = Raise (MCFError ("bond " +:+ pretty 1%Z +:+ "-" +:+ pretty 3%Z
                        +:+ " doesn't exist"))).
Proof.
  intros m. apply (cross_bond_missing_edge m [(1, 3)%Z] 1 3).
  - reflexivity.
  - left.
  - refine (bool_decide_unpack _ _). vm_compute. exact I.
  - refine (bool_decide_unpack _ _). vm_compute. exact I.
Defined.

End CrossErrorExtras.

(** ** Completion of the ring annotation *)

Section RingExtras.
Local Open Scope R_scope.

Variable num_round : R -> Z -> R.

(** X10: [annotateRing] returns normally on every ring whose bonds and
    atoms are found in the molecule, provided one of its bonds has a
    positive length and two of its atoms are drawn at different places:
    neither maximum is zero, so that no division fails. *)
Theorem annotateRing_returns (ring : list TkBond) (is_aromatic : bool)
    (m : Molecule) (A : gset Z) (L : list R) (B : list ref)
    (l : R) (i j : Z) (p q : R * R) :
  ring_survey ring m = Ok (A, L, B) ->
  heap m !! Fresh (next_fresh m) = None ->
  l ∈ L -> 0 < l ->
  i ∈ A -> j ∈ A ->
  atom_position m i = Some p -> atom_position m j = Some q -> p <> q ->
  exists m', annotateRing num_round ring is_aromatic m = Ok m'.
Proof.
  intros Hs Hfresh Hl Hpos Hi Hj Hp Hq Hpq.
  apply (annotateRing_returns_aux num_round ring is_aromatic m A L B Hs Hfresh).
  intros _.
  apply (measure_ring_ok m A L l i j p q Hl Hpos); try assumption.
  unfold ring_survey in Hs.
  apply (survey_atoms m ring ∅ [] [] A L B Hs). set_solver.
Qed.

End RingExtras.

Section RingExtrasWitness.
Local Open Scope R_scope.

(** The three-membered ring, taken as aromatic. *)
Lemma annotateRing_returns_witness :
  exists m', annotateRing num_round_id (tk_bonds triangle) true
               (tree_state plain_options triangle) = Ok m'.
Proof.
  apply (annotateRing_returns num_round_id (tk_bonds triangle) true
           (tree_state plain_options triangle)
           {[ 0%Z; 1%Z; 2%Z ]}
           [(compare_positions 0 0 2 0).1; (compare_positions 2 0 1 1).1;
            (compare_positions 1 1 0 0).1]
           [Key 0 1; Key 1 2; Key 2 0]
           (compare_positions 0 0 2 0).1 0 1 (0, 0) (2, 0)).
  - vm_compute. reflexivity.
  - vm_compute. reflexivity.
  - left.
  - apply compare_positions_apart. intros [= H]. lra.
  - clear. set_solver.
  - clear. set_solver.
  - vm_compute. reflexivity.
  - vm_compute. reflexivity.
  - intros [= H]. lra.
Defined.

End RingExtrasWitness.

(** ** What the stable sorts select *)

Section SortFacts.
Context {A : Type} (key : A -> nat).

Lemma insert_by_elem (x y : A) (s : list A) :
  y ∈ insert_by key x s <-> y = x \/ y ∈ s.
Proof.
  induction s as [|z s IH]; cbn.
  - rewrite list_elem_of_singleton. set_solver.
  - destruct (key x <=? key z)%nat.
    + rewrite elem_of_cons. reflexivity.
    + rewrite !elem_of_cons, IH. tauto.
Qed.


Lemma insert_by_sorted (x : A) (s : list A) :
  StronglySorted (fun a b => (key a <= key b)%nat) s ->
  StronglySorted (fun a b => (key a <= key b)%nat) (insert_by key x s).
Proof.
  induction s as [|z s IH]; intros Hs; cbn.
  - repeat constructor.
  - inversion Hs as [|? ? Hs' Hz]; subst.
    destruct (key x <=? key z)%nat eqn:E.
    + apply Nat.leb_le in E. constructor; [exact Hs|].
      constructor; [exact E|].
      eapply Forall_impl; [exact Hz|]. intros y Hy. cbn in Hy. lia.
    + apply Nat.leb_gt in E. constructor; [now apply IH|].
      apply Forall_forall. intros y Hy. apply insert_by_elem in Hy as [->|Hy].
      * lia.
      * rewrite Forall_forall in Hz. now apply Hz.
Qed.

Lemma sort_by_sorted (l : list A) :
  StronglySorted (fun a b => (key a <= key b)%nat) (sort_by key l).
Proof.
  induction l as [|x l IH]; [constructor|].
  unfold sort_by in *. cbn [foldr]. now apply insert_by_sorted.
Qed.

Lemma last_insert_by (x z : A) (s : list A) :
  StronglySorted (fun a b => (key a <= key b)%nat) s ->
  last s = Some z ->
  last (insert_by key x s)
  = Some (if (key x <=? key z)%nat then z else x).
Proof.
  induction s as [|y s IH]; intros Hs Hz; [discriminate|].
  inversion Hs as [|? ? Hs' Hy]; subst. cbn [insert_by].
  destruct s as [|y' s].
  - cbn in Hz. injection Hz as <-. cbn.
    destruct (key x <=? key y)%nat; reflexivity.
  - rewrite last_cons in Hz.
    destruct (last (y' :: s)) as [z'|] eqn:El; [|apply last_None in El; discriminate].
    injection Hz as <-.
    destruct (key x <=? key y)%nat eqn:E.
    + apply Nat.leb_le in E.
      assert (Hyz : (key y <= key z')%nat).
      { rewrite Forall_forall in Hy. apply Hy.
        apply last_Some_elem_of. exact El. }
      rewrite 2!last_cons_cons, El.
      replace (key x <=? key z')%nat with true
        by (symmetry; apply Nat.leb_le; lia).
      reflexivity.
    + rewrite last_cons, (IH Hs' eq_refl). reflexivity.
Qed.

(** The last element of a stable sort: the last one among those with the
    greatest key. *)
Lemma last_sort_by (l : list A) :
  l <> [] ->
  exists x l1 l2,
    last (sort_by key l) = Some x /\ l = l1 ++ x :: l2 /\
    Forall (fun y => (key y <= key x)%nat) l1 /\
    Forall (fun y => (key y < key x)%nat) l2.
Proof.
  induction l as [|a l IH]; intros Hne; [contradiction|].
  destruct l as [|a' l].
  - exists a, [], []. repeat split; constructor.
  - destruct IH as (z & l1 & l2 & Hz & Hl & H1 & H2); [discriminate|].
    change (sort_by key (a :: a' :: l))
      with (insert_by key a (sort_by key (a' :: l))).
    rewrite (last_insert_by a z _ (sort_by_sorted _) Hz).
    destruct (key a <=? key z)%nat eqn:E.
    + apply Nat.leb_le in E. exists z, (a :: l1), l2.
      split; [reflexivity|]. split; [now rewrite Hl|].
      split; [now constructor | exact H2].
    + apply Nat.leb_gt in E. exists a, [], (a' :: l).
      split; [reflexivity|]. split; [reflexivity|]. split; [constructor|].
      rewrite Hl. apply Forall_app. split; [|constructor].
      * eapply Forall_impl; [exact H1|]. intros y Hy. cbn in Hy. lia.
      * exact E.
      * eapply Forall_impl; [exact H2|]. intros y Hy. cbn in Hy. lia.
Qed.

Lemma head_insert_by (x : A) (s : list A) :
  head (insert_by key x s)
  = Some (match head s with
          | None => x
          | Some h => if (key x <=? key h)%nat then x else h
          end).
Proof.
  destruct s as [|h s]; cbn; [reflexivity|].
  destruct (key x <=? key h)%nat; reflexivity.
Qed.

(** The first element of a stable sort: the first one among those with
    the smallest key. *)
Lemma head_sort_by (l : list A) :
  l <> [] ->
  exists x l1 l2,
    head (sort_by key l) = Some x /\ l = l1 ++ x :: l2 /\
    Forall (fun y => (key x < key y)%nat) l1 /\
    Forall (fun y => (key x <= key y)%nat) l2.
Proof.
  induction l as [|a l IH]; intros Hne; [contradiction|].
  destruct l as [|a' l].
  - exists a, [], []. repeat split; constructor.
  - destruct IH as (h & l1 & l2 & Hh & Hl & H1 & H2); [discriminate|].
    change (sort_by key (a :: a' :: l))
      with (insert_by key a (sort_by key (a' :: l))).
    rewrite head_insert_by, Hh.
    destruct (key a <=? key h)%nat eqn:E.
    + apply Nat.leb_le in E. exists a, [], (a' :: l).
      split; [reflexivity|]. split; [reflexivity|]. split; [constructor|].
      rewrite Hl. apply Forall_app. split; [|constructor].
      * eapply Forall_impl; [exact H1|]. intros y Hy. cbn in Hy. lia.
      * exact E.
      * eapply Forall_impl; [exact H2|]. intros y Hy. cbn in Hy. lia.
    + apply Nat.leb_gt in E. exists h, (a :: l1), l2.
      split; [reflexivity|]. split; [now rewrite Hl|].
      split; [now constructor | exact H2].
Qed.

Lemma insert_by_past (x : A) (s1 s2 : list A) :
  Forall (fun y => (key y < key x)%nat) s1 ->
  insert_by key x (s1 ++ s2) = s1 ++ insert_by key x s2.
Proof.
  induction s1 as [|y s1 IH]; intros H; [reflexivity|].
  inversion H as [|? ? Hy H']; subst. cbn.
  replace (key x <=? key y)%nat with false
    by (symmetry; apply Nat.leb_gt; exact Hy).
  now rewrite IH.
Qed.

Lemma insert_by_front (x : A) (s : list A) :
  Forall (fun y => (key x <= key y)%nat) s -> insert_by key x s = x :: s.
Proof.
  destruct s as [|y s]; intros H; [reflexivity|].
  inversion H as [|? ? Hy H']; subst. cbn.
  now replace (key x <=? key y)%nat with true
    by (symmetry; apply Nat.leb_le; exact Hy).
Qed.

End SortFacts.

(** ** The choice of the exit bond and of the entry atom *)

Section ChoiceExtras.

(** X12: with no entry and no exit atom chosen by the user,
    [pickFirstLastAtoms] on a molecule with atoms returns, without an exit
    atom, an atom with the fewest neighbors, and among those the first
    one in the order of the atoms. *)
Theorem default_entry_fewest_neighbors (m : Molecule) :
  opt_entry_atom (options m) = None ->
  opt_exit_atom (options m) = None ->
  atom_items m <> [] ->
  exists e a l1 l2,
    pickFirstLastAtoms m = Ok (e, None) /\
    atom_items m = l1 ++ (e, a) :: l2 /\
    Forall (fun ia : Z * Atom =>
              (length (neighbors a) < length (neighbors ia.2))%nat) l1 /\
    Forall (fun ia : Z * Atom =>
              (length (neighbors a) <= length (neighbors ia.2))%nat) l2.
Proof.
  intros Hen Hex Hne. unfold pickFirstLastAtoms. rewrite Hen, Hex.
  destruct (head_sort_by (fun ia : Z * Atom => length (neighbors ia.2))
              (atom_items m) Hne)
    as ([e a] & l1 & l2 & Hh & Hl & H1 & H2).
  exists e, a, l1, l2. unfold first_item. fold (atom_items m). rewrite Hh.
  cbn [mbind result_bind]. auto.
Qed.

(** The three-membered ring with two pendant atoms: atom 0 is chosen. *)
Lemma default_entry_fewest_neighbors_witness :
  let m := prepared plain_options ring_with_pendants in
  exists e a l1 l2,
    pickFirstLastAtoms m = Ok (e, None) /\
    atom_items m = l1 ++ (e, a) :: l2 /\
    Forall (fun ia : Z * Atom =>
              (length (neighbors a) < length (neighbors ia.2))%nat) l1 /\
    Forall (fun ia : Z * Atom =>
              (length (neighbors a) <= length (neighbors ia.2))%nat) l2.
Proof.
  intros m. apply (default_entry_fewest_neighbors m).
  - reflexivity.
  - reflexivity.
  - vm_compute. discriminate.
Defined.

(** X13: [annotateRings] annotates the aromatic rings first: the order
    in which it takes the rings is the aromatic ones, last found first,
    followed by the others, last found first. *)
Theorem ring_order_aromatic_first (tkmol : TkMol) :
  ring_order tkmol
  = reverse (filter (fun t : bool * list TkBond => t.1 = true) (all_rings tkmol))
    ++ reverse (filter (fun t : bool * list TkBond => t.1 = false)
                  (all_rings tkmol)).
Proof.
  unfold ring_order. rewrite <- reverse_app. f_equal.
  set (key := fun t : bool * list TkBond => if t.1 then 1%nat else 0%nat).
  induction (all_rings tkmol) as [|[[|] ring] l IH].
  - reflexivity.
  - change (sort_by key ((true, ring) :: l))
      with (insert_by key (true, ring) (sort_by key l)).
    rewrite IH, filter_cons_False by (cbn; discriminate).
    rewrite filter_cons_True by reflexivity.
    rewrite insert_by_past.
    + f_equal. apply insert_by_front.
      apply Forall_forall. intros [f r] Hy%list_elem_of_filter.
      destruct Hy as [Hy _]. cbn in Hy. subst f. cbn. lia.
    + apply Forall_forall. intros [f r] Hy%list_elem_of_filter.
      destruct Hy as [Hy _]. cbn in Hy. subst f. cbn. lia.
  - change (sort_by key ((false, ring) :: l))
      with (insert_by key (false, ring) (sort_by key l)).
    rewrite IH, filter_cons_True by reflexivity.
    rewrite filter_cons_False by (cbn; discriminate).
    apply insert_by_front.
    apply Forall_forall. intros [f r] _. cbn. lia.
Qed.

End ChoiceExtras.

(** ** A bond and the bond drawn backwards *)

Section ReverseExtras.
Local Open Scope R_scope.


End ReverseExtras.

(** ** The angles to the neighboring bonds *)

Section NeighborAngleExtras.

Lemma adjoining_range (b : Bond) (atom : Atom) (inv : R) (r : option Z * option Z) :
  _adjoining_angles b atom inv = Ok r ->
  match r with
  | (Some f, Some l) => (0 <= f <= l)%Z /\ (l < 360)%Z
  | (None, None) => True
  | _ => False
  end.
Proof.
  rewrite adjoining_unfold.
  destruct (list_remove _ _) as [[|a0 l0]|e]; [| |discriminate].
  { intros [= <-]. exact I. }
  set (L := map (fun a => ((a - reference_angle b inv) mod 360)%Z) (a0 :: l0)).
  cbv zeta. intros [= <-].
  assert (Hperm : merge_sort Z.le L ≡ₚ L) by apply merge_sort_Permutation.
  assert (Hsorted : StronglySorted Z.le (merge_sort Z.le L))
    by (apply StronglySorted_merge_sort; apply _).
  assert (Hrange : forall x, x ∈ merge_sort Z.le L -> (0 <= x < 360)%Z).
  { intros x Hx. rewrite Hperm in Hx. unfold L in Hx.
    apply list_elem_of_In, in_map_iff in Hx as (y & <- & _).
    apply Z.mod_pos_bound. lia. }
  destruct (merge_sort Z.le L) as [|f s] eqn:E.
  { apply Permutation_length in Hperm. discriminate. }
  cbn [head].
  destruct (last (f :: s)) as [l|] eqn:El; [|apply last_None in El; discriminate].
  pose proof (Hrange f ltac:(left)) as Hf.
  pose proof (Hrange l (last_Some_elem_of _ _ El)) as Hl.
  split; [|lia]. split; [lia|].
  inversion Hsorted as [|? ? _ Hall]; subst.
  destruct s as [|y s]; [cbn in El; injection El as <-; lia|].
  rewrite last_cons_cons in El. rewrite Forall_forall in Hall.
  apply Hall. apply last_Some_elem_of. exact El.
Qed.

(** X15: the angles that [upstream_angles] and [downstream_angles]
    report are either both [None] (no other bond) or both angles; the
    angle of the nearest bond on the counter-clockwise side lies in
    [0, 360), that on the clockwise side in (0, 360], and together they
    never exceed a full turn.  At the start atom the counter-clockwise
    side is [left], at the end atom it is [right]. *)
Theorem neighbor_angles_range (b : Bond) (sa ea : Atom) :
  (forall s, upstream_angles b sa = Ok s ->
     match a_left s, a_right s with
     | Some x, Some y =>
         (0 <= x < 360)%Z /\ (0 < y <= 360)%Z /\ (x + y <= 360)%Z
     | None, None => True
     | _, _ => False
     end) /\
  (forall s, downstream_angles b ea = Ok s ->
     match a_right s, a_left s with
     | Some x, Some y =>
         (0 <= x < 360)%Z /\ (0 < y <= 360)%Z /\ (x + y <= 360)%Z
     | None, None => True
     | _, _ => False
     end).
Proof.
  split; intros s Hs.
  - unfold upstream_angles in Hs.
    destruct (_adjoining_angles b sa 0) as [[f l]|] eqn:E; [|discriminate].
    apply adjoining_range in E. cbn in Hs. injection Hs as <-. cbn.
    destruct f, l; try exact E; try exact I. lia.
  - unfold downstream_angles in Hs.
    destruct (_adjoining_angles b ea 180) as [[f l]|] eqn:E; [|discriminate].
    apply adjoining_range in E. cbn in Hs. injection Hs as <-. cbn.
    destruct f, l; try exact E; try exact I. lia.
Qed.

End NeighborAngleExtras.

(** ** Scaling *)

Section ScaleExtras.
Local Open Scope R_scope.

Variable most_common : list R -> R.

Lemma set_scale_frame (m m1 : Molecule) :
  set_scale most_common m = Ok m1 ->
  heap m1 = heap m /\ root m1 = root m /\ atoms m1 = atoms m /\
  options m1 = options m.
Proof.
  unfold set_scale. intros H.
  destruct (bond_scale_opt (options m)).
  - injection H as <-. auto.
  - destruct (treebonds m false) as [bonds|]; [|discriminate].
    cbn [mbind result_bind] in H.
    destruct (tree_lengths m bonds) as [lengths|]; [|discriminate].
    cbn [mbind result_bind] in H.
    destruct (fdiv _ _) as [sc|]; [|discriminate].
    cbn [mbind result_bind] in H. injection H as <-. auto.
  - injection H as <-. auto.
Qed.

Lemma treebonds_frame (m m1 : Molecule) (with_root : bool) :
  heap m1 = heap m -> root m1 = root m ->
  treebonds m1 with_root = treebonds m with_root.
Proof.
  intros Hh Hr. unfold treebonds. rewrite Hr, Hh.
  destruct (root m) as [rt|]; [|reflexivity]. cbn [mbind result_bind].
  assert (Hrec : forall fuel r acc,
            recurse fuel m1 r acc = recurse fuel m r acc).
  { induction fuel as [|fuel IH]; intros r acc; [reflexivity|].
    cbn [recurse]. unfold get_node. rewrite Hh.
    destruct (heap m !! r) as [n|]; [|reflexivity]. cbn [mbind result_bind].
    generalize (acc ++ [r]). induction (descendants n) as [|d ds IHd];
      intros acc'; [reflexivity|].
    cbn [foldM]. rewrite IH.
    destruct (recurse fuel m d acc'); [|reflexivity]. cbn [mbind result_bind].
    apply IHd. }
  now rewrite Hrec.
Qed.

Lemma scale_fold (l : list ref) : forall m1,
  NoDup l ->
  Forall (fun r => exists b, get_bond m1 r = Ok b) l ->
  exists m',
    foldM scale_bond l m1 = Ok m' /\
    bond_scale m' = bond_scale m1 /\ atoms m' = atoms m1 /\
    options m' = options m1 /\ root m' = root m1 /\
    dom (heap m') = dom (heap m1) /\
    (forall r b, r ∈ l -> get_bond m1 r = Ok b ->
       get_bond m' r = Ok (with_blength (bond_scale m1 * blength b) b)) /\
    (forall r, r ∉ l -> heap m' !! r = heap m1 !! r) /\
    (forall r n, heap m1 !! r = Some n ->
       exists n', heap m' !! r = Some n' /\
         parent n' = parent n /\ descendants n' = descendants n).
Proof.
  induction l as [|r l IH]; intros m1 Hnd Hall.
  - exists m1. cbn. repeat split; auto.
    + intros r b Hr. inversion Hr.
    + intros r n Hn. eauto.
  - inversion Hnd as [|? ? Hr Hnd']; subst.
    inversion Hall as [|? ? [b Hb] Hall']; subst.
    set (m2 := update_node r (map_bond (with_blength (bond_scale m1 * blength b))) m1).
    assert (Hstep : scale_bond r m1 = Ok m2)
      by (unfold scale_bond; rewrite Hb; reflexivity).
    cbn [foldM]. rewrite Hstep. cbn [mbind result_bind].
    pose proof Hb as Hb0.
    apply get_bond_inv in Hb as (n & Hn & Hobj).
    assert (Hother : forall r', r' <> r -> heap m2 !! r' = heap m1 !! r').
    { intros r' Hne. unfold m2, update_node. cbn. now rewrite lookup_alter_ne. }
    assert (Hself : heap m2 !! r
                    = Some (mkNode (OBond (with_blength (bond_scale m1 * blength b) b))
                              (parent n) (descendants n))).
    { unfold m2, update_node. cbn. rewrite lookup_alter_eq, Hn. cbn.
      unfold map_bond. now rewrite Hobj. }
    destruct (IH m2 Hnd') as (m' & Hrun & Hsc & Hat & Hop & Hrt & Hdom & Hin & Hout & Hst).
    { apply Forall_forall. intros r' Hr'.
      rewrite Forall_forall in Hall'. destruct (Hall' r' Hr') as [b' Hb'].
      exists b'.
      apply get_bond_inv in Hb' as (n' & Hn' & Hobj').
      apply get_bond_inv. exists n'. split; [|exact Hobj'].
      rewrite Hother; [exact Hn'|]. intros ->. contradiction. }
    exists m'. split; [exact Hrun|].
    split; [exact Hsc|]. split; [exact Hat|]. split; [exact Hop|].
    split; [exact Hrt|].
    split; [rewrite Hdom; unfold m2, update_node; cbn; apply dom_alter_L|].
    split; [|split].
    + intros r' b' [->|Hr']%elem_of_cons Hb'.
      * assert (b' = b) by congruence. subst b'.
        apply get_bond_inv. eexists.
        split; [rewrite (Hout r Hr); exact Hself | reflexivity].
      * assert (Hne : r' <> r) by (intros ->; contradiction).
        change (bond_scale m1) with (bond_scale m2). apply (Hin r' b' Hr').
        apply get_bond_inv in Hb' as (n' & Hn' & Hobj').
        apply get_bond_inv. exists n'. split; [|exact Hobj'].
        now rewrite Hother.
    + intros r' Hr'. rewrite not_elem_of_cons in Hr'. destruct Hr' as [Hne Hr'].
      rewrite (Hout r' Hr'). now apply Hother.
    + intros r' n' Hn'. destruct (decide (r' = r)) as [->|Hne].
      * assert (n' = n) by congruence. subst n'.
        destruct (Hst r _ Hself) as (n'' & H1 & H2 & H3). exists n''. auto.
      * rewrite <- (Hother r' Hne) in Hn'. exact (Hst r' n' Hn').
Qed.

(** X16: once the scale is chosen and [treebonds] lists a tree of Bond
    objects without repetition, [scaleBonds] returns; it multiplies the
    length of every bond of the tree (the root aside) by the scale, once,
    and touches nothing else: the bond objects outside the tree (the
    unused directions among them) keep their length, and every object
    keeps its parent and its descendants.  With the option [keep] the
    scale is the one the molecule has, with [scale] it is
    [bond_stretch]. *)
Theorem scaleBonds_scales_tree (m m1 : Molecule) (l : list ref) :
  set_scale most_common m = Ok m1 ->
  treebonds m false = Ok l ->
  NoDup l ->
  Forall (fun r => exists b, get_bond m r = Ok b) l ->
  exists m',
    scaleBonds most_common m = Ok m' /\
    bond_scale m' = bond_scale m1 /\
    (bond_scale_opt (options m) = keep -> bond_scale m' = bond_scale m) /\
    (bond_scale_opt (options m) = scale ->
       bond_scale m' = bond_stretch (options m)) /\
    (forall r b, r ∈ l -> get_bond m r = Ok b ->
       get_bond m' r = Ok (with_blength (bond_scale m' * blength b) b)) /\
    (forall r, r ∉ l -> heap m' !! r = heap m !! r) /\
    (forall r n, heap m !! r = Some n ->
       exists n', heap m' !! r = Some n' /\
         parent n' = parent n /\ descendants n' = descendants n) /\
    atoms m' = atoms m.
Proof.
  intros Hset Htb Hnd Hall.
  destruct (set_scale_frame m m1 Hset) as (Hh & Hr & Ha & Ho).
  assert (Hgb : forall r, get_bond m1 r = get_bond m r).
  { intros r. unfold get_bond, get_node. now rewrite Hh. }
  destruct (scale_fold l m1 Hnd) as (m' & Hrun & Hsc & Hat & Hop & Hrt & Hdom & Hin & Hout & Hst).
  { eapply Forall_impl; [exact Hall|]. intros r [b Hb]. exists b. now rewrite Hgb. }
  exists m'. unfold scaleBonds. rewrite Hset. cbn [mbind result_bind].
  rewrite (treebonds_frame m m1 false Hh Hr), Htb. cbn [mbind result_bind].
  split; [exact Hrun|]. split; [exact Hsc|].
  split.
  { intros Hk. rewrite Hsc. unfold set_scale in Hset. rewrite Hk in Hset.
    now injection Hset as <-. }
  split.
  { intros Hk. rewrite Hsc. unfold set_scale in Hset. rewrite Hk in Hset.
    now injection Hset as <-. }
  split.
  { intros r b Hr' Hb. rewrite Hsc. apply Hin; [exact Hr'|]. now rewrite Hgb. }
  split; [intros r Hr'; rewrite <- Hh; now apply Hout|].
  split; [intros r n Hn; apply Hst; now rewrite Hh|].
  congruence.
Qed.

End ScaleExtras.

Section ScaleWitness.
Local Open Scope R_scope.

(** The zig-zag chain under the option to stretch every bond by 2. *)
Lemma scaleBonds_scales_tree_witness :
  let m := with_options stretch_options zigzag_chain in
  let m1 := set_bond_scale 2 m in
  let l := [Key 0 1; Key 1 2; Key 2 3] in
  exists m',
    scaleBonds most_common_one m = Ok m' /\
    bond_scale m' = bond_scale m1 /\
    (bond_scale_opt (options m) = keep -> bond_scale m' = bond_scale m) /\
    (bond_scale_opt (options m) = scale ->
       bond_scale m' = bond_stretch (options m)) /\
    (forall r b, r ∈ l -> get_bond m r = Ok b ->
       get_bond m' r = Ok (with_blength (bond_scale m' * blength b) b)) /\
    (forall r, r ∉ l -> heap m' !! r = heap m !! r) /\
    (forall r n, heap m !! r = Some n ->
       exists n', heap m' !! r = Some n' /\
         parent n' = parent n /\ descendants n' = descendants n) /\
    atoms m' = atoms m.
Proof.
  intros m m1 l. apply (scaleBonds_scales_tree most_common_one m m1 l).
  - reflexivity.
  - vm_compute. reflexivity.
  - repeat constructor; set_solver.
  - repeat (apply List.Forall_cons; [eexists; vm_compute; reflexivity|]).
    apply List.Forall_nil.
Defined.

End ScaleWitness.

(** ** A molecule that needs no links *)

Section NoLinkExtras.

Lemma fragment_closed (pairs : list (Z * Z)) (f1 : list (Z * Z))
    (rest : list (list (Z * Z))) :
  concat (f1 :: rest) ≡ₚ pairs ->
  (forall g, g ∈ rest -> atoms_of f1 ## atoms_of g) ->
  forall x y, rtc (edge pairs) x y -> x ∈ atoms_of f1 -> y ∈ atoms_of f1.
Proof.
  intros HP Hdis x y Hr. induction Hr as [|x z y Hxz _ IH]; [auto|].
  intros Hx. apply IH.
  assert (Hp : exists p, p ∈ pairs /\ ((x = p.1 /\ z = p.2) \/ (x = p.2 /\ z = p.1))).
  { destruct Hxz as [H|H]; [exists (x, z) | exists (z, x)]; cbn; auto. }
  destruct Hp as (p & Hp & Hxy).
  rewrite <- HP in Hp. cbn [concat] in Hp.
  apply elem_of_app in Hp as [Hp|Hp].
  - destruct (pair_in_atoms_of p f1 Hp) as [H1 H2].
    destruct Hxy as [[_ ->]|[_ ->]]; assumption.
  - exfalso. apply list_elem_of_In, in_concat in Hp as (g & Hg & Hpg).
    apply list_elem_of_In in Hg, Hpg.
    destruct (pair_in_atoms_of p g Hpg) as [H1 H2].
    apply (Hdis g Hg x); [exact Hx|].
    destruct Hxy as [[-> _]|[-> _]]; assumption.
Qed.

Lemma connected_single_fragment (pairs : list (Z * Z))
    (fs : list (list (Z * Z))) :
  fragments_of pairs fs -> connected_fragment pairs -> exists f, fs = [f].
Proof.
  intros (HP & Hall & Hdis) [Hne Hconn].
  destruct fs as [|f1 [|f2 rest]]; [|eauto|].
  - cbn in HP. apply Permutation_nil_l in HP. congruence.
  - exfalso. destruct Hdis as [Hd1 _].
    inversion Hall as [|? ? [Hne1 _] Hall']; subst.
    inversion Hall' as [|? ? [Hne2 _] _]; subst.
    destruct f1 as [|p1 f1]; [contradiction|].
    destruct f2 as [|p2 f2]; [contradiction|].
    assert (Ha : p1.1 ∈ atoms_of (p1 :: f1))
      by (apply (pair_in_atoms_of p1); left).
    assert (Hb : p2.1 ∈ atoms_of (p2 :: f2))
      by (apply (pair_in_atoms_of p2); left).
    pose proof (atoms_of_perm _ _ HP) as Hat.
    assert (Ha' : p1.1 ∈ atoms_of pairs).
    { rewrite <- Hat. apply (atoms_of_concat_elem (p1 :: f1)); [left | exact Ha]. }
    assert (Hb' : p2.1 ∈ atoms_of pairs).
    { rewrite <- Hat. apply (atoms_of_concat_elem (p2 :: f2)); [right; left | exact Hb]. }
    pose proof (fragment_closed pairs (p1 :: f1) ((p2 :: f2) :: rest) HP Hd1
                  _ _ (Hconn _ _ Ha' Hb') Ha) as Hin.
    apply (Hd1 (p2 :: f2) ltac:(left) p2.1 Hin Hb).
Qed.

(** X17: a molecule whose bonded pairs already form one connected
    fragment that covers every atom gets no link at all:
    [connect_fragments] returns the molecule as it is. *)
Theorem connect_fragments_connected_noop (m : Molecule) :
  connected_fragment (atom_pairs m) ->
  dom (atoms m) ⊆ atoms_of (atom_pairs m) ->
  connect_fragments m = Ok m.
Proof.
  intros Hconn Hsub.
  destruct (molecule_fragments_spec m) as (fs & Hmf & Hof & _).
  destruct (connected_single_fragment _ _ Hof Hconn) as [f ->].
  unfold connect_fragments. rewrite Hmf. cbn [mbind result_bind length].
  rewrite decide_False by lia. cbn [mbind result_bind].
  fold (atoms_of (atom_pairs m)).
  replace (dom (atoms m) ∖ atoms_of (atom_pairs m)) with (∅ : gset Z)
    by (symmetry; apply leibniz_equiv; set_solver).
  rewrite elements_empty. reflexivity.
Qed.

(** The zig-zag chain 0-1-2-3. *)
Lemma connect_fragments_connected_noop_witness :
  connect_fragments zigzag_chain = Ok zigzag_chain.
Proof.
  apply (connect_fragments_connected_noop zigzag_chain).
  - split; [discriminate|].
    assert (Hhub : forall a, a ∈ atoms_of (atom_pairs zigzag_chain) ->
              rtc (edge (atom_pairs zigzag_chain)) 0%Z a).
    { intros a Ha.
      assert (Hcase : a = 0%Z \/ a = 1%Z \/ a = 2%Z \/ a = 3%Z).
      { apply elem_of_atoms_of in Ha as (p & Hp & Ha).
        cbn in Hp. rewrite !elem_of_cons in Hp.
        destruct Hp as [->|[->|[->|Hp]]]; [| | |inversion Hp];
          cbn in Ha; lia. }
      assert (E01 : edge (atom_pairs zigzag_chain) 0 1) by (left; cbn; set_solver).
      assert (E12 : edge (atom_pairs zigzag_chain) 1 2) by (left; cbn; set_solver).
      assert (E23 : edge (atom_pairs zigzag_chain) 2 3) by (left; cbn; set_solver).
      destruct Hcase as [->|[->|[->| ->]]].
      - apply rtc_refl.
      - apply rtc_once, E01.
      - eapply rtc_l; [exact E01|]. apply rtc_once, E12.
      - eapply rtc_l; [exact E01|]. eapply rtc_l; [exact E12|]. apply rtc_once, E23. }
    intros a b Ha Hb. etrans; [apply rtc_edge_sym, Hhub, Ha | apply Hhub, Hb].
  - refine (bool_decide_unpack _ _). vm_compute. exact I.
Defined.

End NoLinkExtras.

(** ** The chain of parents: distance and trunk *)

Section ChainExtras.

Lemma chain_functional (m : Molecule) (r : ref) (p1 p2 : list ref) :
  parent_chain m r p1 -> parent_chain m r p2 -> p1 = p2.
Proof.
  intros H1. revert p2.
  induction H1 as [r n e Hn He Hent|r n e p path Hn He Hent Hp _ IH];
    intros p2 H2; inversion H2 as [? n' e' Hn' He' Hent'|? n' e' p' path' Hn' He' Hent' Hp' Hc'];
    subst; try reflexivity.
  - assert (n' = n) by congruence. subst n'. congruence.
  - assert (n' = n) by congruence. subst n'. congruence.
  - assert (n' = n) by congruence. subst n'.
    assert (p' = p) by congruence. subst p'. f_equal. now apply IH.
Qed.

Lemma chain_suffix (m : Molecule) (r : ref) (path : list ref) :
  parent_chain m r path ->
  forall x l1 l2, path = l1 ++ x :: l2 -> parent_chain m x (x :: l2).
Proof.
  induction 1 as [r n e Hn He Hent|r n e p path Hn He Hent Hp Hc IH];
    intros x l1 l2 Hsplit.
  - destruct l1; discriminate.
  - destruct l1 as [|y l1]; cbn in Hsplit; injection Hsplit as -> ->.
    + eapply chain_step; eassumption.
    + eapply IH. reflexivity.
Qed.

Lemma chain_nodup (m : Molecule) (r : ref) (path : list ref) :
  parent_chain m r path -> NoDup path.
Proof.
  induction 1 as [r n e Hn He Hent|r n e p path Hn He Hent Hp Hc IH];
    [constructor|].
  constructor; [|exact IH]. intros Hin.
  apply list_elem_of_split in Hin as (l1 & l2 & Hsplit).
  pose proof (chain_suffix m p path Hc r l1 l2 Hsplit) as Hr.
  pose proof (chain_step m r n e p path Hn He Hent Hp Hc) as Hr'.
  pose proof (chain_functional m r _ _ Hr Hr') as E. injection E as E.
  apply (f_equal length) in Hsplit. rewrite E, length_app in Hsplit.
  cbn in Hsplit. lia.
Qed.

Lemma chain_in_heap (m : Molecule) (r : ref) (path : list ref) :
  parent_chain m r path -> forall x, x ∈ path -> is_Some (heap m !! x).
Proof.
  induction 1 as [r n e Hn He Hent|r n e p path Hn He Hent Hp Hc IH];
    intros x Hx; [inversion Hx|].
  apply elem_of_cons in Hx as [->|Hx]; eauto.
Qed.

Lemma chain_length (m : Molecule) (r : ref) (path : list ref) :
  parent_chain m r path -> (length path <= size (heap m))%nat.
Proof.
  intros H. apply NoDup_dom_length; [eapply chain_nodup; exact H|].
  eapply chain_in_heap; exact H.
Qed.

Lemma exit_distance_run (m : Molecule) (r : ref) (path : list ref) :
  parent_chain m r path ->
  forall fuel d, (length path < fuel)%nat ->
    exit_distance fuel m (Some r) d = Ok (d + length path)%nat.
Proof.
  induction 1 as [r n e Hn He Hent|r n e p path Hn He Hent Hp Hc IH];
    intros fuel d Hf; (destruct fuel as [|fuel]; [cbn in Hf; lia|]);
    cbn [exit_distance]; unfold get_node; rewrite Hn;
    cbn [mbind result_bind]; rewrite He.
  - rewrite decide_True by exact Hent. cbn. f_equal. lia.
  - rewrite decide_False by exact Hent. rewrite Hp.
    rewrite IH by (cbn in Hf; lia). f_equal. cbn. lia.
Qed.

Lemma chain_frame (m m1 : Molecule) (r : ref) (path : list ref) :
  entry_atom m1 = entry_atom m ->
  (forall x n, heap m !! x = Some n ->
     exists n1, heap m1 !! x = Some n1 /\
       node_end_atom n1 = node_end_atom n /\ parent n1 = parent n) ->
  parent_chain m r path -> parent_chain m1 r path.
Proof.
  intros Hent Hfr.
  induction 1 as [r n e Hn He Hen|r n e p path Hn He Hen Hp Hc IH].
  - destruct (Hfr r n Hn) as (n1 & Hn1 & He1 & _).
    apply (chain_stop m1 r n1 e); [exact Hn1 | congruence | congruence].
  - destruct (Hfr r n Hn) as (n1 & Hn1 & He1 & Hp1).
    apply (chain_step m1 r n1 e p path);
      [exact Hn1 | congruence | congruence | congruence | exact IH].
Qed.

Lemma flag_trunk_run (path : list ref) : forall m r fuel,
  parent_chain m r path -> (length path < fuel)%nat ->
  exists m',
    flag_trunk fuel (Some r) m = Ok m' /\
    atoms m' = atoms m /\ entry_atom m' = entry_atom m /\
    exit_bond m' = exit_bond m /\ root m' = root m /\
    (forall x, x ∈ path ->
       heap m' !! x = map_bond (with_is_trunk true) <$> heap m !! x) /\
    (forall x, x ∉ path -> heap m' !! x = heap m !! x).
Proof.
  induction path as [|r0 path IH]; intros m r fuel Hc Hf;
    (destruct fuel as [|fuel]; [cbn in Hf; lia|]).
  - inversion Hc as [? n e Hn He Hent|]; subst.
    cbn [flag_trunk]. unfold get_node. rewrite Hn. cbn [mbind result_bind].
    rewrite He, decide_True by exact Hent.
    exists m. repeat split; auto. intros x Hx. inversion Hx.
  - pose proof (chain_nodup m r _ Hc) as Hnd.
    inversion Hc as [|? n e p ? Hn He Hent Hp Hc']; subst.
    inversion Hnd as [|? ? Hnotin Hnd']; subst.
    cbn [flag_trunk]. unfold get_node. rewrite Hn. cbn [mbind result_bind].
    rewrite He, decide_False by exact Hent. rewrite Hp.
    set (m1 := update_node r0 (map_bond (with_is_trunk true)) m).
    assert (Hother : forall x, x <> r0 -> heap m1 !! x = heap m !! x).
    { intros x Hne. unfold m1, update_node. cbn. now rewrite lookup_alter_ne. }
    assert (Hself : heap m1 !! r0 = Some (map_bond (with_is_trunk true) n)).
    { unfold m1, update_node. cbn. now rewrite lookup_alter_eq, Hn. }
    assert (Hc1 : parent_chain m1 p path).
    { apply (chain_frame m m1); [reflexivity| |exact Hc'].
      intros x nx Hx. destruct (decide (x = r0)) as [->|Hne].
      - assert (nx = n) by congruence. subst nx.
        eexists. split; [exact Hself|].
        clear. destruct n as [[b| |] pa de]; cbn; auto.
      - exists nx. rewrite (Hother x Hne). auto. }
    destruct (IH m1 p fuel Hc1) as (m' & Hrun & Ha & He' & Hx' & Hr' & Hin & Hout).
    { cbn in Hf. lia. }
    exists m'. split; [exact Hrun|]. do 4 (split; [assumption|]).
    split.
    + intros x [->|Hx]%elem_of_cons.
      * rewrite (Hout r0 Hnotin), Hself, Hn. reflexivity.
      * rewrite (Hin x Hx), Hother; [reflexivity|]. intros ->. contradiction.
    + intros x Hx. rewrite not_elem_of_cons in Hx. destruct Hx as [Hne Hx].
      rewrite (Hout x Hx). now apply Hother.
Qed.

(** X18: when the parents of the bond behind [r] lead, bond by bond, to
    the bond that ends at the entry atom, the loop of [default_exit_bond]
    returns the number of bonds passed on the way (it does not run out of
    fuel: no bond occurs twice on the way). *)
Theorem exit_distance_counts_chain (m : Molecule) (r : ref) (path : list ref) :
  parent_chain m r path ->
  exit_distance (S (size (heap m))) m (Some r) 0 = Ok (length path) /\
  NoDup path.
Proof.
  intros Hc. split; [|eapply chain_nodup; exact Hc].
  rewrite (exit_distance_run m r path Hc); [reflexivity|].
  pose proof (chain_length m r path Hc). lia.
Qed.

(** X19: the loop of [__init__] that flags the trunk, started at the
    exit bond, returns; it sets [is_trunk] on exactly the bonds that lie
    between the exit bond and the bond that ends at the entry atom (the
    exit bond included, the latter excluded), and changes nothing
    else. *)
Theorem flag_trunk_flags_chain (m : Molecule) (r : ref) (path : list ref) :
  parent_chain m r path ->
  exists m',
    flag_trunk (S (size (heap m))) (Some r) m = Ok m' /\
    (forall x, x ∈ path ->
       heap m' !! x = map_bond (with_is_trunk true) <$> heap m !! x) /\
    (forall x, x ∉ path -> heap m' !! x = heap m !! x) /\
    atoms m' = atoms m /\ entry_atom m' = entry_atom m /\
    exit_bond m' = exit_bond m /\ root m' = root m.
Proof.
  intros Hc.
  destruct (flag_trunk_run path m r (S (size (heap m))) Hc)
    as (m' & Hrun & Ha & He & Hx & Hr & Hin & Hout).
  { pose proof (chain_length m r path Hc). lia. }
  exists m'. auto 10.
Qed.

Lemma zigzag_parent_chain :
  parent_chain zigzag_chain (Key 2 3) [Key 2 3; Key 1 2; Key 0 1].
Proof.
  eapply chain_step; [vm_compute; reflexivity | reflexivity | discriminate
                     | reflexivity |].
  eapply chain_step; [vm_compute; reflexivity | reflexivity | discriminate
                     | reflexivity |].
  eapply chain_step; [vm_compute; reflexivity | reflexivity | discriminate
                     | reflexivity |].
  eapply chain_stop; [vm_compute; reflexivity | reflexivity | reflexivity].
Qed.

(** The zig-zag chain, from its last bond. *)
Lemma exit_distance_counts_chain_witness :
  exit_distance (S (size (heap zigzag_chain))) zigzag_chain (Some (Key 2 3)) 0
  = Ok (length [Key 2 3; Key 1 2; Key 0 1]) /\
  NoDup [Key 2 3; Key 1 2; Key 0 1].
Proof.
  exact (exit_distance_counts_chain zigzag_chain (Key 2 3) _ zigzag_parent_chain).
Defined.

Lemma flag_trunk_flags_chain_witness :
  let m := zigzag_chain in
  let path := [Key 2 3; Key 1 2; Key 0 1] in
  exists m',
    flag_trunk (S (size (heap m))) (Some (Key 2 3)) m = Ok m' /\
    (forall x, x ∈ path ->
       heap m' !! x = map_bond (with_is_trunk true) <$> heap m !! x) /\
    (forall x, x ∉ path -> heap m' !! x = heap m !! x) /\
    atoms m' = atoms m /\ entry_atom m' = entry_atom m /\
    exit_bond m' = exit_bond m /\ root m' = root m.
Proof.
  exact (flag_trunk_flags_chain zigzag_chain (Key 2 3) _ zigzag_parent_chain).
Defined.

End ChainExtras.

(** ** From the toolkit molecule to the tree *)

Section PrepareRun.


End PrepareRun.

Section ReadyFacts.









End ReadyFacts.

Section WholeRun.







End WholeRun.

Section WholeTree.




End WholeTree.

(** ** The default exit bond: the farthest bond of the tree *)

Section ExitChoice.

Lemma recurse_in_heap (m : Molecule) : forall fuel rt acc l,
  recurse fuel m rt acc = Ok l ->
  exists l', l = acc ++ l' /\ Forall (fun r => is_Some (heap m !! r)) l'.
Proof.
  induction fuel as [|fuel IH]; intros rt acc l H; [discriminate|].
  cbn [recurse] in H. unfold get_node in H.
  destruct (heap m !! rt) as [n|] eqn:Hn; [|discriminate].
  cbn [mbind result_bind] in H.
  assert (Hfold : forall ds acc0 l0,
            foldM (recurse fuel m) ds acc0 = Ok l0 ->
            exists l', l0 = acc0 ++ l' /\
                       Forall (fun r => is_Some (heap m !! r)) l').
  { induction ds as [|d ds IHds]; intros acc0 l0 H0; cbn [foldM] in H0.
    - injection H0 as <-. exists []. rewrite app_nil_r. split; [reflexivity|constructor].
    - destruct (recurse fuel m d acc0) as [l1|] eqn:E; [|discriminate].
      cbn [mbind result_bind] in H0.
      apply IH in E as (l1' & -> & Hall1).
      apply IHds in H0 as (l2' & -> & Hall2).
      exists (l1' ++ l2'). rewrite app_assoc. split; [reflexivity|].
      apply Forall_app. auto. }
  apply Hfold in H as (l' & -> & Hall).
  exists (rt :: l'). rewrite <- app_assoc. split; [reflexivity|].
  constructor; [eauto | exact Hall].
Qed.

Lemma treebonds_in_heap (m : Molecule) (bonds : list ref) :
  treebonds m false = Ok bonds ->
  Forall (fun r => is_Some (heap m !! r)) bonds.
Proof.
  unfold treebonds. destruct (root m) as [rt|]; [|discriminate].
  cbn [mbind result_bind].
  destruct (recurse _ m rt []) as [l|] eqn:E; [|discriminate].
  cbn [mbind result_bind]. intros [= <-].
  apply recurse_in_heap in E as (l' & -> & Hall). cbn.
  destruct l'; [constructor|]. cbn. now inversion Hall.
Qed.

Lemma filter_split {A} (P : A -> Prop) `{forall x, Decision (P x)}
    (l f1 f2 : list A) (x : A) :
  filter P l = f1 ++ x :: f2 ->
  exists l1 l2, l = l1 ++ x :: l2 /\ filter P l1 = f1 /\ filter P l2 = f2.
Proof.
  revert f1. induction l as [|a l IH]; intros f1 Hf.
  - destruct f1; discriminate.
  - destruct (decide (P a)) as [Ha|Ha].
    + rewrite filter_cons_True in Hf by exact Ha.
      destruct f1 as [|b f1]; cbn in Hf; injection Hf as -> Hf.
      * exists [], l. auto.
      * destruct (IH f1 Hf) as (l1 & l2 & -> & H1 & H2).
        exists (b :: l1), l2. split; [reflexivity|].
        split; [|exact H2]. now rewrite filter_cons_True, H1.
    + rewrite filter_cons_False in Hf by exact Ha.
      destruct (IH f1 Hf) as (l1 & l2 & -> & H1 & H2).
      exists (a :: l1), l2. split; [reflexivity|].
      split; [|exact H2]. now rewrite filter_cons_False.
Qed.

Lemma scored_fold (m : Molecule) (bonds : list ref) : forall acc,
  Forall (fun r => is_Some (heap m !! r)) bonds ->
  (forall r, r ∈ bonds -> tree_phantom m r = false ->
     exists path, parent_chain m r path) ->
  exists sc,
    foldM (fun bond scored =>
             n ← get_node m bond;
             if node_to_phantom n then Ok scored
             else
               distance ← exit_distance (S (size (heap m))) m (Some bond) 0;
               Ok (scored ++ [(distance, length (descendants n), bond)]))
      bonds acc = Ok (acc ++ sc) /\
    Forall2 (scores m) sc (filter (fun r => tree_phantom m r = false) bonds).
Proof.
  set (f := fun bond scored =>
              n ← get_node m bond;
              if node_to_phantom n then Ok scored
              else
                distance ← exit_distance (S (size (heap m))) m (Some bond) 0;
                Ok (scored ++ [(distance, length (descendants n), bond)])).
  induction bonds as [|r bonds IH]; intros acc Hall Hchain; cbn [foldM].
  - exists []. rewrite app_nil_r. split; [reflexivity | constructor].
  - inversion Hall as [|? ? [n Hn] Hall']; subst.
    assert (Hph : tree_phantom m r = node_to_phantom n)
      by (unfold tree_phantom; now rewrite Hn).
    destruct (node_to_phantom n) eqn:Ep.
    + assert (Hstep : f r acc = Ok acc).
      { unfold f, get_node. rewrite Hn. cbn [mbind result_bind]. now rewrite Ep. }
      rewrite Hstep. cbn [mbind result_bind].
      destruct (IH acc Hall') as (sc & Hrun & H2).
      { intros r' Hr'. apply Hchain. now right. }
      exists sc. split; [exact Hrun|].
      rewrite filter_cons_False; [exact H2|]. rewrite Hph. discriminate.
    + destruct (Hchain r) as [path Hc]; [left | exact Hph|].
      assert (Hstep : f r acc
                      = Ok (acc ++ [(length path, length (descendants n), r)])).
      { unfold f, get_node. rewrite Hn. cbn [mbind result_bind]. rewrite Ep.
        rewrite (exit_distance_run m r path Hc)
          by (pose proof (chain_length m r path Hc); lia).
        reflexivity. }
      rewrite Hstep. cbn [mbind result_bind].
      destruct (IH (acc ++ [(length path, length (descendants n), r)]) Hall')
        as (sc & Hrun & H2).
      { intros r' Hr'. apply Hchain. now right. }
      exists ((length path, length (descendants n), r) :: sc).
      rewrite Hrun, <- app_assoc. split; [reflexivity|].
      rewrite filter_cons_True by exact Hph.
      constructor; [|exact H2]. split; [reflexivity|]. eauto.
Qed.

Lemma scores_bound (m : Molecule) (P : nat -> Prop)
    (s : list (nat * nat * ref)) (f : list ref) :
  Forall2 (scores m) s f -> Forall (fun el => P el.1.1) s ->
  forall r path, r ∈ f -> parent_chain m r path -> P (length path).
Proof.
  induction 1 as [|el r0 s f [_ (p0 & Hc0 & E0)] _ IH]; intros HP r path Hr Hc.
  - inversion Hr.
  - inversion HP as [|? ? Hel HP']; subst.
    apply elem_of_cons in Hr as [->|Hr]; [|now apply (IH HP' r path)].
    rewrite (chain_functional m r0 path p0 Hc Hc0), <- E0. exact Hel.
Qed.

(** X11: let [bonds] be the bonds of the tree as [treebonds] lists them,
    and let the parents of every bond among them that is not a phantom
    lead up to the bond that ends at the entry atom.  If no bond
    qualifies (every one is a phantom), [default_exit_bond] raises
    [IndexError].  Otherwise it returns a bond [r] of the tree that is not
    a phantom and is at the greatest distance from the entry atom, counted
    in bonds along the parents: no qualifying bond listed before [r] is
    farther than [r], and every qualifying bond listed after [r] is
    nearer.  The number of descendants plays no part. *)
Theorem default_exit_bond_greatest_distance (m : Molecule) (bonds : list ref) :
  treebonds m false = Ok bonds ->
  (forall r, r ∈ bonds -> tree_phantom m r = false ->
     exists path, parent_chain m r path) ->
  ((forall r, r ∈ bonds -> tree_phantom m r = true) ->
   default_exit_bond m = Raise IndexError) /\
  ((exists r, r ∈ bonds /\ tree_phantom m r = false) ->
   exists r path l1 l2,
     default_exit_bond m = Ok r /\
     bonds = l1 ++ r :: l2 /\ tree_phantom m r = false /\
     parent_chain m r path /\
     (forall r' path', r' ∈ l1 -> tree_phantom m r' = false ->
        parent_chain m r' path' -> (length path' <= length path)%nat) /\
     (forall r' path', r' ∈ l2 -> tree_phantom m r' = false ->
        parent_chain m r' path' -> (length path' < length path)%nat)).
Proof.
  intros Htb Hchain.
  pose proof (treebonds_in_heap m bonds Htb) as Hall.
  destruct (scored_fold m bonds [] Hall Hchain) as (sc & Hrun & H2).
  assert (Hsc : scored_bonds m = Ok sc).
  { unfold scored_bonds. rewrite Htb. cbn [mbind result_bind]. exact Hrun. }
  unfold default_exit_bond. rewrite Hsc. cbn [mbind result_bind].
  split.
  - intros Hnone.
    assert (E : filter (fun r => tree_phantom m r = false) bonds = []).
    { destruct (filter _ bonds) as [|x f] eqn:E; [reflexivity|exfalso].
      assert (Hx : x ∈ filter (fun r => tree_phantom m r = false) bonds)
        by (rewrite E; left).
      apply list_elem_of_filter in Hx as [Hx Hin].
      rewrite (Hnone x Hin) in Hx. discriminate. }
    rewrite E in H2. apply Forall2_nil_inv_r in H2. subst sc. reflexivity.
  - intros (r0 & Hin0 & Hp0).
    assert (Hne : sc <> []).
    { intros ->. apply Forall2_nil_inv_l in H2.
      assert (Hx : r0 ∈ filter (fun r => tree_phantom m r = false) bonds)
        by (apply list_elem_of_filter; auto).
      rewrite H2 in Hx. inversion Hx. }
    destruct (last_sort_by (fun el : nat * nat * ref => el.1.1) sc Hne)
      as (x & s1 & s2 & Hlast & Hsplit & H1 & H3).
    unfold last_item. rewrite Hlast. cbn [mbind result_bind].
    rewrite Hsplit in H2.
    apply Forall2_app_inv_l in H2 as (f1 & f' & Hs1 & H2 & Hf).
    apply Forall2_cons_inv_l in H2 as (r & f2 & Hx & Hs2 & ->).
    destruct (filter_split _ bonds f1 f2 r Hf) as (l1 & l2 & Hb & Hf1 & Hf2).
    destruct Hx as [Hr (path & Hc & Hd)].
    exists r, path, l1, l2. split; [now rewrite Hr|]. split; [exact Hb|].
    assert (Hq : r ∈ filter (fun r => tree_phantom m r = false) bonds)
      by (rewrite Hf; apply elem_of_app; right; left).
    apply list_elem_of_filter in Hq as [Hq _].
    split; [exact Hq|]. split; [exact Hc|]. split.
    + intros r' path' Hr' Hp' Hc'. rewrite <- Hd.
      apply (scores_bound m (fun d => (d <= x.1.1)%nat) s1 f1 Hs1 H1 r' path');
        [|exact Hc'].
      rewrite <- Hf1. apply list_elem_of_filter. auto.
    + intros r' path' Hr' Hp' Hc'. rewrite <- Hd.
      apply (scores_bound m (fun d => (d < x.1.1)%nat) s2 f2 Hs2 H3 r' path');
        [|exact Hc'].
      rewrite <- Hf2. apply list_elem_of_filter. auto.
Qed.

(** The zig-zag chain: the last bond is returned. *)
Lemma default_exit_bond_greatest_distance_witness :
  let m := zigzag_chain in
  let bonds := [Key 0 1; Key 1 2; Key 2 3] in
  exists r path l1 l2,
    default_exit_bond m = Ok r /\
    bonds = l1 ++ r :: l2 /\ tree_phantom m r = false /\
    parent_chain m r path /\
    (forall r' path', r' ∈ l1 -> tree_phantom m r' = false ->
       parent_chain m r' path' -> (length path' <= length path)%nat) /\
    (forall r' path', r' ∈ l2 -> tree_phantom m r' = false ->
       parent_chain m r' path' -> (length path' < length path)%nat).
Proof.
  intros m bonds.
  apply (default_exit_bond_greatest_distance m bonds).
  - vm_compute. reflexivity.
  - intros r Hr _.
    repeat (apply elem_of_cons in Hr as [->|Hr]); [| | |inversion Hr].
    + eexists. apply (chain_suffix _ _ _ zigzag_parent_chain (Key 0 1)
                        [Key 2 3; Key 1 2] []). reflexivity.
    + eexists. apply (chain_suffix _ _ _ zigzag_parent_chain (Key 1 2)
                        [Key 2 3] [Key 0 1]). reflexivity.
    + eexists. exact zigzag_parent_chain.
  - exists (Key 0 1). split; [left | vm_compute; reflexivity].
Defined.

End ExitChoice.
